(** * go-piml: a shallow embedding of the PIML codec and its properties

    The development follows the Go sources [unmarshal.go] (the decoder with
    its one-line lookahead), [marshal.go] (the encoder) and the entry points
    [Marshal] / [Unmarshal].

    Modelling conventions.
    - A Go [string] / [[]byte] is a list of bytes, [list ascii].  Literals are
      written [str "..."].
    - Go's [reflect.Value] is split into a type descriptor [gtype] and a tree
      value [value]; every function that reflects on a value takes both.
      Type descriptors are finite trees, struct fields are exported, field
      names are ASCII identifiers.
    - In-place mutation of the destination becomes value passing: a decoding
      function returns the updated destination.
    - The decoder state ([bufio.Scanner] plus [peekBuf]) is threaded
      explicitly.
    - Loops and the mutual recursion of the decoder are bounded by a fuel
      argument; [Unmarshal] supplies an amount computed from the input. *)

From stdpp Require Import gmap list fin_maps strings.
From Stdlib Require Import ssreflect ZArith Ascii Lia.

Set Warnings "-register-all,-rewrite-rw,-deprecated,-clear-no-such-hyp".
#[local] Open Scope Z_scope.

(** ** Byte strings *)

Abbreviation bytes := (list ascii).

Definition str (s : string) : bytes := String.list_ascii_of_string s.

Definition byte_of (n : N) : ascii := ascii_of_N n.

Module Strings.

(** [strings.Index(s, c)] for a one-byte needle. *)
Fixpoint IndexByte (c : ascii) (s : bytes) : option nat :=
  match s with
  | [] => None
  | x :: s' => if Ascii.eqb x c then Some O else S <$> IndexByte c s'
  end.

(** [strings.HasPrefix]. *)
Fixpoint HasPrefix (s p : bytes) : bool :=
  match p, s with
  | [], _ => true
  | _ :: _, [] => false
  | a :: p', b :: s' => Ascii.eqb a b && HasPrefix s' p'
  end.

(** [strings.Repeat(" ", n)] is [replicate n " "]; [strings.Contains(s, "\n")]. *)
Definition ContainsByte (c : ascii) (s : bytes) : bool :=
  bool_decide (is_Some (IndexByte c s)).

(** [strings.Split(s, sep)] for a one-byte separator: always at least one
    piece. *)
Fixpoint Split (c : ascii) (s : bytes) : list bytes :=
  match s with
  | [] => [[]]
  | x :: s' =>
      if Ascii.eqb x c then [] :: Split c s'
      else match Split c s' with
           | [] => [[x]]
           | l :: ls => (x :: l) :: ls
           end
  end.

(** White space as [unicode.IsSpace] sees it.  The one-byte runes are
    tab, line feed, vertical tab, form feed, carriage return and space. *)
Definition isSpace1 (a : ascii) : bool :=
  let n := N_of_ascii a in
  ((9 <=? n) && (n <=? 13) || (n =? 32))%N.

(** Two-byte runes U+0085 and U+00A0 (UTF-8 [C2 85], [C2 A0]). *)
Definition isSpace2 (a b : ascii) : bool :=
  let m := N_of_ascii a in
  let n := N_of_ascii b in
  ((m =? 194) && ((n =? 133) || (n =? 160)))%N.

(** Three-byte runes U+1680, U+2000..U+200A, U+2028, U+2029, U+202F,
    U+205F and U+3000. *)
Definition isSpace3 (a b c : ascii) : bool :=
  let m := N_of_ascii a in
  let n := N_of_ascii b in
  let o := N_of_ascii c in
  ((m =? 225) && (n =? 154) && (o =? 128)
   || (m =? 226) && (n =? 128)
      && ((128 <=? o) && (o <=? 138) || (o =? 168) || (o =? 169) || (o =? 175))
   || (m =? 226) && (n =? 129) && (o =? 159)
   || (m =? 227) && (n =? 128) && (o =? 128))%N.

(** [strings.TrimLeftFunc(s, unicode.IsSpace)]: runes are decoded from the
    front; a byte that starts no white-space rune stops the scan. *)
Fixpoint TrimLeft (s : bytes) : bytes :=
  match s with
  | [] => []
  | a :: s1 =>
      if isSpace1 a then TrimLeft s1
      else match s1 with
           | [] => s
           | b :: s2 =>
               if isSpace2 a b then TrimLeft s2
               else match s2 with
                    | [] => s
                    | c :: s3 => if isSpace3 a b c then TrimLeft s3 else s
                    end
           end
  end.

(** The same scan from the back, on the reversed string. *)
Fixpoint TrimLeftRev (s : bytes) : bytes :=
  match s with
  | [] => []
  | a :: s1 =>
      if isSpace1 a then TrimLeftRev s1
      else match s1 with
           | [] => s
           | b :: s2 =>
               if isSpace2 b a then TrimLeftRev s2
               else match s2 with
                    | [] => s
                    | c :: s3 => if isSpace3 c b a then TrimLeftRev s3 else s
                    end
           end
  end.

Definition TrimRight (s : bytes) : bytes := reverse (TrimLeftRev (reverse s)).

(** [strings.TrimSpace]. *)
Definition TrimSpace (s : bytes) : bytes := TrimRight (TrimLeft s).

(** [strings.ToLower] on ASCII text. *)
Definition lowerByte (a : ascii) : ascii :=
  let n := N_of_ascii a in
  if ((65 <=? n) && (n <=? 90))%N then ascii_of_N (n + 32) else a.

Definition ToLower (s : bytes) : bytes := lowerByte <$> s.

End Strings.

Import Strings.

(** ** Errors and results *)

(** [reflect.Kind], as far as the codec distinguishes kinds. *)
Inductive intKind := Int | Int8 | Int16 | Int32 | Int64.
Inductive uintKind := Uint | Uint8 | Uint16 | Uint32 | Uint64.
Inductive floatKind := Float32 | Float64.

Inductive kind :=
| KInvalid | KBool | KInt (k : intKind) | KUint (k : uintKind)
| KFloat (k : floatKind) | KString | KStruct | KPtr | KSlice | KArray
| KMap | KInterface | KOther (name : bytes).

#[global] Instance intKind_eq_dec : EqDecision intKind.
Proof. solve_decision. Defined.
#[global] Instance uintKind_eq_dec : EqDecision uintKind.
Proof. solve_decision. Defined.
#[global] Instance floatKind_eq_dec : EqDecision floatKind.
Proof. solve_decision. Defined.
#[global] Instance kind_eq_dec : EqDecision kind.
Proof. solve_decision. Defined.

(** Type descriptors ([reflect.Type]).  A struct field carries its name, the
    value of [Tag.Get("piml")] (empty when there is no tag) and the
    [Anonymous] flag of an embedded field.  [TTime] is [time.Time], a struct
    kind whose fields are unexported and never reached here.  [TOther]
    stands for the kinds the codec has no case for (chan, func, complex,
    uintptr, unsafe pointer). *)
Record fieldInfo := mkField {
  Name : bytes;
  Tag : bytes;
  Anonymous : bool
}.

Inductive gtype :=
| TBool
| TInt (k : intKind)
| TUint (k : uintKind)
| TFloat (k : floatKind)
| TString
| TTime
| TStruct (name : bytes) (fields : list (fieldInfo * gtype))
| TPtr (elem : gtype)
| TSlice (elem : gtype)
| TArray (len : nat) (elem : gtype)
| TMap (key elem : gtype)
| TInterface
| TOther (name : bytes).

Definition Kind (t : gtype) : kind :=
  match t with
  | TBool => KBool
  | TInt k => KInt k
  | TUint k => KUint k
  | TFloat k => KFloat k
  | TString => KString
  | TTime | TStruct _ _ => KStruct
  | TPtr _ => KPtr
  | TSlice _ => KSlice
  | TArray _ _ => KArray
  | TMap _ _ => KMap
  | TInterface => KInterface
  | TOther n => KOther n
  end.

(** [lineType] of unmarshal.go. *)
Inductive lineType :=
| lineBlank | lineKeyValue | lineKeyOnly | lineArrayItem | lineSetItem
| lineArrayObject | lineMultiLine.

(** One constructor per error the sources build; the payload is what the
    message is formatted from.  [ErrSyntax*] wrap the sentinel [ErrSyntax]. *)
Inductive error :=
| ErrSyntaxTabs (fullLine : bytes)
| ErrSyntaxMissingParen (fullLine : bytes)
| ErrSyntaxExpectedKey (lt : lineType)
| ErrSyntaxUnknownLineType (lt : lineType)
| ErrTooLong
| ErrInvalidUnmarshal
| ErrInvalidValue
| ErrObjectInto (k : kind)
| ErrMapKeyNotString
| ErrInvalidState
| ErrArrayInto (k : kind)
| ErrSetTarget
| ErrSetElem
| ErrMultiLineInto (k : kind)
| ErrNilToNonNillable (t : gtype)
| ErrInvalidInteger (s : bytes)
| ErrInvalidUnsigned (s : bytes)
| ErrIntegerOverflow (s : bytes)
| ErrInvalidFloat (s : bytes)
| ErrFloatOverflow (s : bytes)
| ErrInvalidBoolean (s : bytes)
| ErrInvalidTime (s : bytes)
| ErrPrimitiveInto (k : kind)
| ErrSettingField (key : bytes) (e : error)
| ErrDecodingField (key : bytes) (e : error)
| ErrUnsupportedType (k : kind)
| ErrMapKeysMustBeStrings
| ErrReflectPanic
| ErrOutOfFuel.

Inductive result (A : Type) :=
| Ok (a : A)
| Err (e : error).
Arguments Ok {A} a.
Arguments Err {A} e.

Definition rbind {A B} (r : result A) (f : A -> result B) : result B :=
  match r with
  | Ok a => f a
  | Err e => Err e
  end.

Notation "x <- r ;;; k" := (rbind r (fun x => k))
  (at level 20, r at level 100, k at level 200, only parsing).
Notation "' p <- r ;;; k" := (rbind r (fun x => let 'p := x in k))
  (at level 20, p pattern, r at level 100, k at level 200, only parsing).

(** Wrapping with [fmt.Errorf("...%q: %w", key, err)]. *)
Definition wrapErr {A} (w : error -> error) (r : result A) : result A :=
  match r with
  | Ok a => Ok a
  | Err e => Err (w e)
  end.

(** ** The line classifier: [lineInfo] and the body of [peek] *)

Record lineInfo := mkLine {
  indent : Z;
  key : bytes;
  value : bytes;
  lineTypeOf : lineType
}.

(** Step 3 of [peek]: count leading spaces; a tab before the first other
    character is an error ([None]). *)
Fixpoint countIndent (cleanLine : bytes) : option Z :=
  match cleanLine with
  | [] => Some 0
  | r :: rest =>
      if Ascii.eqb r " " then Z.succ <$> countIndent rest
      else if Ascii.eqb r "009" then None
      else Some 0
  end.

(** The body of the [for d.s.Scan()] loop of [peek] for one scanned line:
    [Ok None] is [continue] (blank or comment-only line). *)
Definition parseLine (fullLine : bytes) : result (option lineInfo) :=
  let cleanLine :=
    match IndexByte "#" fullLine with
    | Some commentIdx => take commentIdx fullLine
    | None => fullLine
    end in
  let trimmedLine := TrimSpace cleanLine in
  if bool_decide (trimmedLine = []) then Ok None
  else
    match countIndent cleanLine with
    | None => Err (ErrSyntaxTabs fullLine)
    | Some indent =>
        let lineContent := TrimSpace cleanLine in
        if HasPrefix lineContent (str "> (") then
          Ok (Some (mkLine indent [] [] lineArrayObject))
        else if HasPrefix lineContent (str ">|") then
          Ok (Some (mkLine indent [] (TrimSpace (drop 2 lineContent)) lineSetItem))
        else if HasPrefix lineContent (str ">") then
          Ok (Some (mkLine indent [] (TrimSpace (drop 1 lineContent)) lineArrayItem))
        else if HasPrefix lineContent (str "(") then
          match IndexByte ")" lineContent with
          | None => Err (ErrSyntaxMissingParen fullLine)
          | Some closeParen =>
              let key := drop 1 (take closeParen lineContent) in
              let value := TrimSpace (drop (S closeParen) lineContent) in
              if bool_decide (value = []) then
                Ok (Some (mkLine indent key value lineKeyOnly))
              else
                Ok (Some (mkLine indent key value lineKeyValue))
          end
        else
          Ok (Some (mkLine indent [] cleanLine lineMultiLine))
    end.

(** ** The scanner

    [bufio.Scanner] with [ScanLines] and the default buffer: tokens are the
    pieces between line feeds with one trailing carriage return dropped; a
    final piece without line feed is a token when it is not empty.  A piece
    of [MaxScanTokenSize] bytes or more makes [Scan] fail with [ErrTooLong];
    a [Scan] after that failure hands out the buffered first
    [MaxScanTokenSize] bytes of the piece as a last token, and every later
    [Scan] fails again. *)

Definition MaxScanTokenSize : N := 65536.

Inductive Scanner :=
| Scanning (pieces : list bytes)
| Overflowed (buf : bytes)
| Stopped.

Definition dropCR (data : bytes) : bytes :=
  match reverse data with
  | c :: r => if Ascii.eqb c "013" then reverse r else data
  | [] => data
  end.

(** The pieces [Scan] will offer for [data]. *)
Definition pieces (data : bytes) : list bytes :=
  let ps := Split "010" data in
  match reverse ps with
  | [] :: r => reverse r
  | _ => ps
  end.

Definition NewScanner (data : bytes) : Scanner := Scanning (pieces data).

Definition fits (piece : bytes) : bool :=
  (N.of_nat (length piece) <? MaxScanTokenSize)%N.

(** One call of [d.s.Scan()] followed by [d.s.Text()] or [d.s.Err()]:
    [Ok (Some line)] when [Scan] is true, [Ok None] at the end of input,
    [Err ErrTooLong] when [Err()] is set. *)
Definition Scan (s : Scanner) : result (option bytes) * Scanner :=
  match s with
  | Scanning [] => (Ok None, Scanning [])
  | Scanning (p :: ps) =>
      if fits p then (Ok (Some (dropCR p)), Scanning ps)
      else (Err ErrTooLong, Overflowed (take (N.to_nat MaxScanTokenSize) p))
  | Overflowed buf => (Ok (Some (dropCR buf)), Stopped)
  | Stopped => (Err ErrTooLong, Stopped)
  end.

(** Number of [Scan] calls that can still yield a token. *)
Definition remaining (s : Scanner) : nat :=
  match s with
  | Scanning ps => length ps
  | Overflowed _ => 1
  | Stopped => 0
  end.

(** ** The decoder state, [peek] and [consume] *)

Record Decoder := mkDecoder {
  s : Scanner;
  peekBuf : option lineInfo
}.

Definition NewDecoder (data : bytes) : Decoder :=
  mkDecoder (NewScanner data) None.

(** The [for d.s.Scan()] loop of [peek]; [n] bounds the number of scans. *)
Fixpoint scanLoop (n : nat) (sc : Scanner) : result (option lineInfo) * Scanner :=
  match Scan sc with
  | (Err e, sc') => (Err e, sc')
  | (Ok None, sc') => (Ok None, sc')
  | (Ok (Some fullLine), sc') =>
      match parseLine fullLine with
      | Err e => (Err e, sc')
      | Ok (Some li) => (Ok (Some li), sc')
      | Ok None =>
          match n with
          | O => (Err ErrOutOfFuel, sc')
          | S n' => scanLoop n' sc'
          end
      end
  end.

Definition peek (d : Decoder) : result (option lineInfo) * Decoder :=
  match peekBuf d with
  | Some li => (Ok (Some li), d)
  | None =>
      match scanLoop (remaining (s d)) (s d) with
      | (Ok (Some li), sc') => (Ok (Some li), mkDecoder sc' (Some li))
      | (r, sc') => (r, mkDecoder sc' None)
      end
  end.

Definition consume (d : Decoder) : Decoder := mkDecoder (s d) None.

(** ** [strconv] *)

Module Strconv.

Definition digit (c : ascii) : option Z :=
  let n := Z.of_N (N_of_ascii c) in
  if (48 <=? n) && (n <=? 57) then Some (n - 48) else None.

(** The digit loop of [ParseUint] in base 10. *)
Fixpoint parseDigits (acc : Z) (s : bytes) : option Z :=
  match s with
  | [] => Some acc
  | c :: s' =>
      match digit c with
      | Some d => parseDigits (acc * 10 + d) s'
      | None => None
      end
  end.

(** [strconv.ParseUint(s, 10, 64)]; [None] is any error (syntax or
    range). *)
Definition ParseUint (s : bytes) : option Z :=
  match s with
  | [] => None
  | _ =>
      match parseDigits 0 s with
      | Some n => if n <? 2 ^ 64 then Some n else None
      | None => None
      end
  end.

(** [strconv.ParseInt(s, 10, 64)]. *)
Definition ParseInt (s : bytes) : option Z :=
  match s with
  | [] => None
  | c :: r =>
      let '(neg, ds) :=
        if Ascii.eqb c "+" then (false, r)
        else if Ascii.eqb c "-" then (true, r)
        else (false, s) in
      match ParseUint ds with
      | Some un =>
          if neg then (if un <=? 2 ^ 63 then Some (- un) else None)
          else (if un <? 2 ^ 63 then Some un else None)
      | None =>
          (* a range error of ParseUint is a range error here as well *)
          None
      end
  end.

(** [strconv.ParseBool]. *)
Definition ParseBool (s : bytes) : option bool :=
  if bool_decide (s ∈ [str "1"; str "t"; str "T"; str "TRUE"; str "true"; str "True"])
  then Some true
  else if bool_decide (s ∈ [str "0"; str "f"; str "F"; str "FALSE"; str "false"; str "False"])
  then Some false
  else None.

Definition FormatBool (b : bool) : bytes :=
  if b then str "true" else str "false".

Definition digitChar (d : Z) : ascii := ascii_of_N (Z.to_N (48 + d)).

(** Decimal digits of a non-negative number, most significant first;
    [n] bounds the number of digits. *)
Fixpoint formatBits (n : nat) (u : Z) (acc : bytes) : bytes :=
  let acc' := digitChar (u mod 10) :: acc in
  match n with
  | O => acc'
  | S n' => if u <? 10 then acc' else formatBits n' (u / 10) acc'
  end.

(** [strconv.FormatUint(u, 10)] for [0 <= u < 2^64]. *)
Definition FormatUint (u : Z) : bytes := formatBits 20 u [].

(** [strconv.FormatInt(i, 10)] for an [int64]. *)
Definition FormatInt (i : Z) : bytes :=
  if i <? 0 then "-"%char :: FormatUint (- i) else FormatUint i.

End Strconv.

Import Strconv.

(** ** Values *)

(** The parts of Go's library that are not modelled: IEEE floats
    ([strconv.ParseFloat(s, 64)], [strconv.FormatFloat(f, 'f', -1, 64)],
    reflect's float32 overflow test and the narrowing conversion of
    [SetFloat]) and timestamps ([time.Parse] and [Format] with layout
    [time.RFC3339Nano]). *)
Class GoRuntime := {
  float64 : Type;
  zeroFloat : float64;
  ParseFloat : bytes -> option float64;
  FormatFloat : float64 -> bytes;
  overflowFloat32 : float64 -> bool;
  toFloat32 : float64 -> float64;
  timeT : Type;
  zeroTime : timeT;
  ParseTime : bytes -> option timeT;
  FormatTime : timeT -> bytes;
  (** [v.MapKeys()]: the keys in an order the language leaves open. *)
  MapKeys : forall {A : Type}, gmap bytes A -> list bytes;
  MapKeys_perm : forall (A : Type) (m : gmap bytes A),
    Permutation (MapKeys m) (fst <$> map_to_list m)
}.

Section Codec.

Context {RT : GoRuntime}.

(** The data behind a [reflect.Value].  Pointers, slices and maps are
    [None] when nil.  Values are trees: sharing between pointers is not
    represented. *)
Inductive val :=
| VBool (b : bool)
| VInt (i : Z)
| VUint (u : Z)
| VFloat (f : float64)
| VString (s : bytes)
| VTime (t : timeT)
| VStruct (fields : list val)
| VPtr (p : option val)
| VSlice (l : option (list val))
| VArray (l : list val)
| VMap (m : option (gmap bytes val))
| VInterface (x : option val)
| VOther.

(** [reflect.Zero(t)]. *)
Fixpoint Zero (t : gtype) : val :=
  match t with
  | TBool => VBool false
  | TInt _ => VInt 0
  | TUint _ => VUint 0
  | TFloat _ => VFloat zeroFloat
  | TString => VString []
  | TTime => VTime zeroTime
  | TStruct _ fields =>
      VStruct ((fix zeros (fs : list (fieldInfo * gtype)) : list val :=
                  match fs with
                  | [] => []
                  | f :: fs' => Zero f.2 :: zeros fs'
                  end) fields)
  | TPtr _ => VPtr None
  | TSlice _ => VSlice None
  | TArray n e => VArray (replicate n (Zero e))
  | TMap _ _ => VMap None
  | TInterface => VInterface None
  | TOther _ => VOther
  end.

(** [indirect(v, forceAlloc)]: the value reached through the pointers, its
    type, and how the outer value reads once the reached value has been
    replaced.  With [forceAlloc] a nil pointer on the way is allocated;
    without, the nil pointer itself is returned. *)
Fixpoint indirect (t : gtype) (v : val) (forceAlloc : bool)
  : gtype * val * (val -> val) :=
  match t with
  | TPtr e =>
      match v with
      | VPtr (Some x) =>
          let '(t', x', k) := indirect e x forceAlloc in
          (t', x', fun y => VPtr (Some (k y)))
      | _ =>
          if forceAlloc then
            let '(t', x', k) := indirect e (Zero e) forceAlloc in
            (t', x', fun y => VPtr (Some (k y)))
          else (t, v, fun y => y)
      end
  | _ => (t, v, fun y => y)
  end.

(** ** Scalar assignment: [setPrimitive] *)

Definition intBits (k : intKind) : Z :=
  match k with Int8 => 8 | Int16 => 16 | Int32 => 32 | Int | Int64 => 64 end.

Definition uintBits (k : uintKind) : Z :=
  match k with Uint8 => 8 | Uint16 => 16 | Uint32 => 32 | Uint | Uint64 => 64 end.

(** [v.OverflowInt(i)] and [v.OverflowUint(u)]. *)
Definition OverflowInt (k : intKind) (i : Z) : bool :=
  (i <? - 2 ^ (intBits k - 1)) || (2 ^ (intBits k - 1) <=? i).

Definition OverflowUint (k : uintKind) (u : Z) : bool :=
  2 ^ uintBits k <=? u.

Definition OverflowFloat (k : floatKind) (f : float64) : bool :=
  match k with Float32 => overflowFloat32 f | Float64 => false end.

Definition isNilable (t : gtype) : bool :=
  match t with
  | TPtr _ | TSlice _ | TMap _ _ | TInterface => true
  | _ => false
  end.

(** Step 3 of [setPrimitive], on the value [indirect] reached. *)
Definition setKind (t : gtype) (valueStr : bytes) : result val :=
  match t with
  | TString => Ok (VString valueStr)
  | TInt k =>
      match ParseInt valueStr with
      | None => Err (ErrInvalidInteger valueStr)
      | Some i =>
          if OverflowInt k i then Err (ErrIntegerOverflow valueStr)
          else Ok (VInt i)
      end
  | TUint k =>
      match ParseUint valueStr with
      | None => Err (ErrInvalidUnsigned valueStr)
      | Some u =>
          if OverflowUint k u then Err (ErrIntegerOverflow valueStr)
          else Ok (VUint u)
      end
  | TFloat k =>
      match ParseFloat valueStr with
      | None => Err (ErrInvalidFloat valueStr)
      | Some f =>
          if OverflowFloat k f then Err (ErrFloatOverflow valueStr)
          else Ok (VFloat (match k with Float32 => toFloat32 f | Float64 => f end))
      end
  | TBool =>
      match ParseBool valueStr with
      | None => Err (ErrInvalidBoolean valueStr)
      | Some b => Ok (VBool b)
      end
  | TTime =>
      match ParseTime valueStr with
      | None => Err (ErrInvalidTime valueStr)
      | Some t => Ok (VTime t)
      end
  | _ => Err (ErrPrimitiveInto (Kind t))
  end.

(** [setPrimitive(v, valueStr)]; [(t, v)] is the settable slot (the struct
    field, or the element behind the pointer [reflect.New] returned). *)
Definition setPrimitive (t : gtype) (v : val) (valueStr : bytes) : result val :=
  if bool_decide (valueStr = str "nil") then
    if isNilable t then Ok (Zero t) else Err (ErrNilToNonNillable t)
  else
    let '(t', _, k) := indirect t v true in
    match setKind t' valueStr with
    | Ok x => Ok (k x)
    | Err e => Err e
    end.

(** ** Key resolution: [findStructField] *)

(** The result is the path of field indices from the struct to the field
    found (several indices when the field lies in embedded structs). *)
Fixpoint findStructField (t : gtype) (key : bytes) {struct t} : option (list nat) :=
  match t with
  | TStruct _ fields =>
      (fix loop (fs : list (fieldInfo * gtype)) (i : nat) {struct fs} : option (list nat) :=
         match fs with
         | [] => None
         | (fieldT, ft) :: fs' =>
             if bool_decide (Tag fieldT = key) then Some [i]
             else if bool_decide (Tag fieldT = []) && bool_decide (ToLower (Name fieldT) = key)
             then Some [i]
             else
               match (if Anonymous fieldT
                      then match ft with
                           | TStruct _ _ => findStructField ft key
                           | _ => None
                           end
                      else None) with
               | Some p => Some (i :: p)
               | None => loop fs' (S i)
               end
         end) fields O
  | _ => None
  end.

(** Reading and writing the field a path leads to. *)
Fixpoint fieldAt (t : gtype) (v : val) (path : list nat) : option (gtype * val) :=
  match path with
  | [] => Some (t, v)
  | i :: path' =>
      match t, v with
      | TStruct _ fields, VStruct vs =>
          match fields !! i, vs !! i with
          | Some (_, ft), Some fv => fieldAt ft fv path'
          | _, _ => None
          end
      | _, _ => None
      end
  end.

Fixpoint setFieldAt (v : val) (path : list nat) (x : val) : val :=
  match path with
  | [] => x
  | i :: path' =>
      match v with
      | VStruct vs =>
          match vs !! i with
          | Some fv => VStruct (<[i := setFieldAt fv path' x]> vs)
          | None => v
          end
      | _ => v
      end
  end.

(** ** The decoder *)

(** Lines still to be handed out: the buffered line and what the scanner
    holds. *)
Definition pending (d : Decoder) : nat :=
  (remaining (s d) + match peekBuf d with Some _ => 1 | None => 0 end)%nat.

(** [consumeChildren]: an error of [peek] ends the loop and is dropped. *)
Fixpoint consumeChildrenLoop (n : nat) (currentIndent : Z) (d : Decoder) : Decoder :=
  match peek d with
  | (Ok (Some line), d') =>
      if currentIndent <? indent line then
        match n with
        | O => d'
        | S n' => consumeChildrenLoop n' currentIndent (consume d')
        end
      else d'
  | (_, d') => d'
  end.

Definition consumeChildren (currentIndent : Z) (d : Decoder) : Decoder :=
  consumeChildrenLoop (pending d) currentIndent d.

Definition isKeyLine (lt : lineType) : bool :=
  match lt with
  | lineKeyValue | lineKeyOnly => true
  | _ => false
  end.

(** The slot a key of [decodeObject] binds to: its type, its current value
    and the write-back into the object ([v.SetMapIndex] for a map, nothing
    more than the in-place update for a struct field). *)
Definition findTarget (t : gtype) (v : val) (k : bytes)
  : result (option (gtype * val * (val -> val))) :=
  match t, v with
  | TMap _ elemType, VMap (Some m) =>
      Ok (Some (elemType, Zero elemType, fun x => VMap (Some (<[k := x]> m))))
  | TMap _ _, _ => Err ErrReflectPanic
  | _, _ =>
      match findStructField t k with
      | None => Ok None
      | Some path =>
          match fieldAt t v path with
          | Some (ft, fv) => Ok (Some (ft, fv, setFieldAt v path))
          | None => Err ErrReflectPanic
          end
      end
  end.

(** The part of [decodeObject] before its loop, around the loop [loop]. *)
Definition decodeObjectWith
    (loop : gtype -> val -> Z -> Decoder -> result (val * Decoder))
    (t : gtype) (v : val) (currentIndent : Z) (d : Decoder)
  : result (val * Decoder) :=
  let '(t', v', k) := indirect t v true in
  match Kind t' with
  | KStruct =>
      ' (x, d') <- loop t' v' currentIndent d ;;; Ok (k x, d')
  | KMap =>
      match t' with
      | TMap keyType _ =>
          if bool_decide (Kind keyType = KString) then
            let v'' := match v' with VMap None => VMap (Some ∅) | _ => v' end in
            ' (x, d') <- loop t' v'' currentIndent d ;;; Ok (k x, d')
          else Err ErrMapKeyNotString
      | _ => Err ErrInvalidState
      end
  | knd => Err (ErrObjectInto knd)
  end.

(** The part of [decodeSlice] around its loop. *)
Definition decodeSliceWith
    (loop : gtype -> list val -> Z -> Decoder -> result (list val * Decoder))
    (t : gtype) (v : val) (currentIndent : Z) (d : Decoder)
  : result (val * Decoder) :=
  let '(t', v', k) := indirect t v false in
  match t' with
  | TSlice elemType =>
      ' (l, d') <- loop elemType [] currentIndent d ;;;
      Ok (k (VSlice (Some l)), d')
  | _ => Err (ErrArrayInto (Kind t'))
  end.

(** The [for] loop of [decodeSet]; [m] is the destination map. *)
Fixpoint setLoop (fuel : nat) (setValue : val) (m : gmap bytes val)
    (currentIndent : Z) (d : Decoder) {struct fuel}
  : result (gmap bytes val * Decoder) :=
  match fuel with
  | O => Err ErrOutOfFuel
  | S fuel' =>
      match peek d with
      | (Err e, _) => Err e
      | (Ok None, d) => Ok (m, d)
      | (Ok (Some line), d) =>
          if indent line <=? currentIndent then Ok (m, d)
          else
            match lineTypeOf line with
            | lineSetItem =>
                let d := consume d in
                setLoop fuel' setValue (<[value line := setValue]> m) currentIndent d
            | _ => Ok (m, d)
            end
      end
  end.

(** [decodeSet]. *)
Definition decodeSet (fuel : nat) (t : gtype) (v : val) (currentIndent : Z)
    (d : Decoder) : result (val * Decoder) :=
  let '(t', v', k) := indirect t v false in
  match t' with
  | TMap keyType elemType =>
      if negb (bool_decide (Kind keyType = KString)) then Err ErrSetTarget
      else
        let m := match v' with VMap (Some m) => m | _ => ∅ end in
        match (match elemType with
               | TStruct _ [] => Some (Zero elemType)
               | TBool => Some (VBool true)
               | _ => None
               end) with
        | None => Err ErrSetElem
        | Some setValue =>
            ' (m', d') <- setLoop fuel setValue m currentIndent d ;;;
            Ok (k (VMap (Some m')), d')
        end
  | _ => Err ErrSetTarget
  end.

(** The [for] loop of [decodeMultiLineString]; it carries the builder [b]
    and [baseIndent]. *)
Fixpoint multiLineLoop (fuel : nat) (b : bytes) (baseIndent : Z)
    (currentIndent : Z) (d : Decoder) {struct fuel} : result (bytes * Decoder) :=
  match fuel with
  | O => Err ErrOutOfFuel
  | S fuel' =>
      match peek d with
      | (Err e, _) => Err e
      | (Ok None, d) => Ok (b, d)
      | (Ok (Some line), d) =>
          if indent line <=? currentIndent then Ok (b, d)
          else
            match lineTypeOf line with
            | lineMultiLine =>
                let d := consume d in
                let content := value line in
                if baseIndent =? -1 then
                  let baseIndent := indent line in
                  let b := if bool_decide (b = []) then b else b ++ ["010"%char] in
                  let b :=
                    if baseIndent <? Z.of_nat (length content)
                    then b ++ drop (Z.to_nat baseIndent) content
                    else b ++ TrimSpace content in
                  multiLineLoop fuel' b baseIndent currentIndent d
                else
                  let b := b ++ ["010"%char] in
                  let b :=
                    if HasPrefix content (replicate (Z.to_nat baseIndent) " "%char)
                    then b ++ drop (Z.to_nat baseIndent) content
                    else b ++ TrimSpace content in
                  multiLineLoop fuel' b baseIndent currentIndent d
            | _ => Ok (b, d)
            end
      end
  end.

(** [decodeMultiLineString]. *)
Definition decodeMultiLineString (fuel : nat) (t : gtype) (v : val)
    (currentIndent : Z) (d : Decoder) : result (val * Decoder) :=
  let '(t', v', k) := indirect t v true in
  match t' with
  | TString =>
      ' (b, d') <- multiLineLoop fuel [] (-1) currentIndent d ;;;
      Ok (k (VString b), d')
  | _ => Err (ErrMultiLineInto (Kind t'))
  end.

Fixpoint decodeValue (fuel : nat) (t : gtype) (v : val) (currentIndent : Z)
    (d : Decoder) {struct fuel} : result (val * Decoder) :=
  match fuel with
  | O => Err ErrOutOfFuel
  | S fuel' =>
      match peek d with
      | (Err e, _) => Err e
      | (Ok None, d) => Ok (v, d)
      | (Ok (Some line), d) =>
          if indent line <=? currentIndent then Ok (v, d)
          else
            match lineTypeOf line with
            | lineKeyOnly | lineKeyValue =>
                decodeObjectWith (objectLoop fuel') t v currentIndent d
            | lineArrayItem | lineArrayObject =>
                decodeSliceWith (sliceLoop fuel') t v currentIndent d
            | lineSetItem => decodeSet fuel' t v currentIndent d
            | lineMultiLine => decodeMultiLineString fuel' t v currentIndent d
            | lineBlank => Err (ErrSyntaxUnknownLineType lineBlank)
            end
      end
  end

(** The [for] loop of [decodeObject]; [t] is a struct or map type and [v]
    the struct or (non-nil) map being filled. *)
with objectLoop (fuel : nat) (t : gtype) (v : val) (currentIndent : Z)
    (d : Decoder) {struct fuel} : result (val * Decoder) :=
  match fuel with
  | O => Err ErrOutOfFuel
  | S fuel' =>
      match peek d with
      | (Err e, _) => Err e
      | (Ok None, d) => Ok (v, d)
      | (Ok (Some line), d) =>
          if indent line <=? currentIndent then Ok (v, d)
          else if negb (isKeyLine (lineTypeOf line)) then
            Err (ErrSyntaxExpectedKey (lineTypeOf line))
          else
            match findTarget t v (key line) with
            | Err e => Err e
            | Ok None =>
                let d := consume d in
                let d :=
                  match lineTypeOf line with
                  | lineKeyOnly => consumeChildren (indent line) d
                  | _ => d
                  end in
                objectLoop fuel' t v currentIndent d
            | Ok (Some (targetT, targetV, store)) =>
                match lineTypeOf line with
                | lineKeyValue =>
                    let d := consume d in
                    match setPrimitive targetT targetV (value line) with
                    | Err e => Err (ErrSettingField (key line) e)
                    | Ok x => objectLoop fuel' t (store x) currentIndent d
                    end
                | _ =>
                    let d := consume d in
                    match decodeValue fuel' targetT targetV (indent line) d with
                    | Err e => Err (ErrDecodingField (key line) e)
                    | Ok (x, d) => objectLoop fuel' t (store x) currentIndent d
                    end
                end
            end
      end
  end

(** The [for] loop of [decodeSlice]; [acc] is the slice built so far. *)
with sliceLoop (fuel : nat) (elemType : gtype) (acc : list val) (currentIndent : Z)
    (d : Decoder) {struct fuel} : result (list val * Decoder) :=
  match fuel with
  | O => Err ErrOutOfFuel
  | S fuel' =>
      match peek d with
      | (Err e, _) => Err e
      | (Ok None, d) => Ok (acc, d)
      | (Ok (Some line), d) =>
          if indent line <=? currentIndent then Ok (acc, d)
          else
            match lineTypeOf line with
            | lineArrayObject =>
                let d := consume d in
                match decodeValue fuel' elemType (Zero elemType) (indent line) d with
                | Err e => Err e
                | Ok (x, d) => sliceLoop fuel' elemType (acc ++ [x]) currentIndent d
                end
            | lineArrayItem =>
                let d := consume d in
                match setPrimitive elemType (Zero elemType) (value line) with
                | Err e => Err e
                | Ok x => sliceLoop fuel' elemType (acc ++ [x]) currentIndent d
                end
            | _ => Ok (acc, d)
            end
      end
  end.

Definition decodeObject (fuel : nat) := decodeObjectWith (objectLoop fuel).
Definition decodeSlice (fuel : nat) := decodeSliceWith (sliceLoop fuel).

(** [Decoder.Decode] and [Unmarshal].  The destination [v interface{}] is
    given by its dynamic type and value.  The fuel covers every run: see
    [decodeValue_fuel]. *)
Definition Decode (fuel : nat) (d : Decoder) (t : gtype) (v : val) : result (val * Decoder) :=
  match t, v with
  | TPtr _, VPtr (Some _) => decodeValue fuel t v (-1) d
  | _, _ => Err ErrInvalidUnmarshal
  end.

Definition Unmarshal (data : bytes) (t : gtype) (v : val) : result val :=
  let d := NewDecoder data in
  ' (x, _) <- Decode (2 * pending d + 2) d t v ;;; Ok x.

(** ** The encoder *)

(** The output is the text written to [e.w]; an error aborts the call. *)

Definition nl : bytes := ["010"%char].

(** [if indent > 0 { indentStr = strings.Repeat("  ", indent) }]. *)
Definition indentStrOf (indent : Z) : bytes :=
  replicate (2 * Z.to_nat indent) " "%char.

(** [isNilOrEmpty]. *)
Definition isNilOrEmpty (t : gtype) (v : val) : bool :=
  match v with
  | VPtr None | VInterface None | VSlice None | VMap None => true
  | VSlice (Some l) => bool_decide (length l = O)
  | VMap (Some m) => bool_decide (size m = O)
  | _ => false
  end.

(** [fmt.Sprintf("%s> %s\n", indentStr, s)] and [fmt.Sprintf(" %s\n", s)]. *)
Definition itemLine (indentStr s : bytes) : bytes := indentStr ++ str "> " ++ s ++ nl.
Definition valueLine (s : bytes) : bytes := str " " ++ s ++ nl.

Definition writeScalar (indent : Z) (inArray : bool) (s : bytes) : result bytes :=
  if inArray then Ok (itemLine (indentStrOf indent) s) else Ok (valueLine s).

(** [encodeString]. *)
Definition encodeString (s : bytes) (indent : Z) (inArray : bool) : result bytes :=
  let indentStr := indentStrOf indent in
  if ContainsByte "010" s then
    if inArray then
      Ok (itemLine indentStr (str "... (multi-line not fully supported in array yet)"))
    else
      let lines := Split "010" s in
      let lineIndentStr := indentStrOf (indent + 1) in
      Ok (nl ++ concat ((fun line =>
                           let line := if HasPrefix line (str "#")
                                       then "\"%char :: line else line in
                           lineIndentStr ++ line ++ nl) <$> lines))
  else if inArray then Ok (itemLine indentStr s)
  else Ok (valueLine s).

(** [writePrimitiveArrayItem]. *)
Fixpoint writePrimitiveArrayItem (t : gtype) (v : val) (indentStr : bytes)
  : result bytes :=
  match t, v with
  | TPtr e, VPtr (Some x) => writePrimitiveArrayItem e x indentStr
  | TPtr _, _ => Err (ErrUnsupportedType KInvalid)
  | TString, VString s => Ok (itemLine indentStr s)
  | TInt _, VInt i => Ok (itemLine indentStr (FormatInt i))
  | TUint _, VUint u => Ok (itemLine indentStr (FormatUint u))
  | TFloat _, VFloat f => Ok (itemLine indentStr (FormatFloat f))
  | TBool, VBool b => Ok (itemLine indentStr (FormatBool b))
  | (TString | TInt _ | TUint _ | TFloat _ | TBool), _ => Err ErrReflectPanic
  | _, _ => Err (ErrUnsupportedType (Kind t))
  end.

(** The head of [encodeValue]: nil and empty values; [rest] is the part
    after it. *)
Definition encodeValueWith (rest : val -> Z -> bool -> result bytes)
    (t : gtype) (v : val) (indent : Z) (inArray : bool) : result bytes :=
  if isNilOrEmpty t v then
    if inArray then Ok [] else Ok (str " nil" ++ nl)
  else rest v indent inArray.

(** [encodeStruct]; [enc] is [encodeValue]. *)
Fixpoint encodeStructWith (enc : gtype -> val -> Z -> bool -> result bytes)
    (fields : list (fieldInfo * gtype)) (vs : list val) (indent : Z)
  : result bytes :=
  let fieldIndent := indent + 1 in
  let indentStr := indentStrOf fieldIndent in
  match fields, vs with
  | [], _ => Ok []
  | (field, ft) :: fields', fieldV :: vs' =>
      if bool_decide (Tag field = str "-") then
        encodeStructWith enc fields' vs' indent
      else
        let tag := if bool_decide (Tag field = []) then ToLower (Name field)
                   else Tag field in
        out <- enc ft fieldV fieldIndent false ;;;
        more <- encodeStructWith enc fields' vs' indent ;;;
        Ok (indentStr ++ str "(" ++ tag ++ str ")" ++ out ++ more)
  | _ :: _, [] => Err ErrReflectPanic
  end.

(** The loops of [encodeSlice] over the elements. *)
Fixpoint encodeItems (enc : val -> result bytes) (l : list val) : result bytes :=
  match l with
  | [] => Ok []
  | elemV :: l' =>
      out <- enc elemV ;;;
      more <- encodeItems enc l' ;;;
      Ok (out ++ more)
  end.

(** [encodeSlice]; [enc] is [encodeValue] at the element type. *)
Definition encodeSliceWith (enc : val -> Z -> bool -> result bytes)
    (elemType : gtype) (l : list val) (indent : Z) : result bytes :=
  let elemType' := match elemType with TPtr e => e | _ => elemType end in
  if bool_decide (Kind elemType' = KStruct) then
    encodeItems (fun elemV => enc elemV indent true) l
  else
    encodeItems (fun elemV => writePrimitiveArrayItem elemType elemV (indentStrOf indent)) l.

(** [encodeMap]; [enc] is [encodeValue] at the element type. *)
Fixpoint encodeEntries (enc : val -> Z -> bool -> result bytes)
    (m : gmap bytes val) (keys : list bytes) (indent : Z) : result bytes :=
  let fieldIndent := indent + 1 in
  let indentStr := indentStrOf fieldIndent in
  match keys with
  | [] => Ok []
  | keyStr :: keys' =>
      match m !! keyStr with
      | None => Err ErrReflectPanic
      | Some x =>
          out <- enc x fieldIndent false ;;;
          more <- encodeEntries enc m keys' indent ;;;
          Ok (indentStr ++ str "(" ++ keyStr ++ str ")" ++ out ++ more)
      end
  end.

Definition encodeMapWith (enc : val -> Z -> bool -> result bytes)
    (keyType : gtype) (m : gmap bytes val) (indent : Z) : result bytes :=
  match MapKeys m with
  | [] => Ok []
  | keys =>
      match keyType with
      | TString => encodeEntries enc m keys indent
      | _ => Err ErrMapKeysMustBeStrings
      end
  end.

(** The part of [encodeValue] after the nil test: the pointer loop and the
    switch on the kind. *)
Fixpoint encodeDeref (t : gtype) (v : val) (indent : Z) (inArray : bool)
    {struct t} : result bytes :=
  let enc := fun t' => encodeValueWith (encodeDeref t') t' in
  match t, v with
  | TPtr e, VPtr (Some x) => encodeDeref e x indent inArray
  | TPtr _, _ => Err (ErrUnsupportedType KInvalid)
  | TTime, VTime tm => writeScalar indent inArray (FormatTime tm)
  | TStruct name fields, VStruct vs =>
      if inArray then
        let itemName := if bool_decide (name = []) then str "item" else name in
        out <- encodeStructWith enc fields vs (indent + 1) ;;;
        Ok (indentStrOf indent ++ str "> (" ++ itemName ++ str ")" ++ nl ++ out)
      else
        out <- encodeStructWith enc fields vs indent ;;;
        Ok ((if -1 <? indent then nl else []) ++ out)
  | TSlice e, VSlice l =>
      out <- encodeSliceWith (enc e) e (default [] l) (indent + 1) ;;;
      Ok ((if inArray then [] else nl) ++ out)
  | TArray _ e, VArray l =>
      out <- encodeSliceWith (enc e) e l (indent + 1) ;;;
      Ok ((if inArray then [] else nl) ++ out)
  | TMap kt e, VMap m =>
      out <- encodeMapWith (enc e) kt (default ∅ m) indent ;;;
      Ok ((if inArray then [] else nl) ++ out)
  | TString, VString s => encodeString s indent inArray
  | TInt _, VInt i => writeScalar indent inArray (FormatInt i)
  | TUint _, VUint u => writeScalar indent inArray (FormatUint u)
  | TFloat _, VFloat f => writeScalar indent inArray (FormatFloat f)
  | TBool, VBool b => writeScalar indent inArray (FormatBool b)
  | (TInterface | TOther _), _ => Err (ErrUnsupportedType (Kind t))
  | _, _ => Err ErrReflectPanic
  end.

(** [encodeValue], [encodeStruct], [encodeSlice] and [encodeMap]. *)
Definition encodeValue (t : gtype) : val -> Z -> bool -> result bytes :=
  encodeValueWith (encodeDeref t) t.

Definition encodeStruct := encodeStructWith encodeValue.

Definition encodeSlice (elemType : gtype) := encodeSliceWith (encodeValue elemType) elemType.

Definition encodeMap (keyType elemType : gtype) := encodeMapWith (encodeValue elemType) keyType.

(** [Encoder.Encode] and [Marshal]; the argument [v interface{}] is given
    by its dynamic type and value. *)
Definition Encode (t : gtype) (v : val) : result bytes := encodeValue t v (-1) false.

Definition Marshal (t : gtype) (v : val) : result bytes := Encode t v.

End Codec.


(** * Auxiliary notions for the statements *)

(** Byte lists without leading white space, seen on the first bytes. *)
Definition noSpaceAhead (is1 : ascii -> bool) (is2 : ascii -> ascii -> bool)
    (is3 : ascii -> ascii -> ascii -> bool) (x : bytes) : bool :=
  match x with
  | [] => true
  | a :: r =>
      negb (is1 a) &&
      match r with
      | [] => true
      | b :: r2 =>
          negb (is2 a b) &&
          match r2 with
          | [] => true
          | c :: _ => negb (is3 a b c)
          end
      end
  end.

Definition trimmedLeft : bytes -> bool := noSpaceAhead isSpace1 isSpace2 isSpace3.
Definition trimmedRev : bytes -> bool :=
  noSpaceAhead isSpace1 (fun a b => isSpace2 b a) (fun a b c => isSpace3 c b a).

(** ** Fixtures of piml_test.go *)

(** A document given by its lines, each ended by a line feed. *)
Definition unlines (ls : list string) : bytes :=
  concat ((fun l => str l ++ nl) <$> ls).

Definition field (name tag : string) (t : gtype) : fieldInfo * gtype :=
  (mkField (str name) (str tag) false, t).

Definition embedded (name : string) (t : gtype) : fieldInfo * gtype :=
  (mkField (str name) [] true, t).

(** [Config] of [TestMultilineWithError] and [TestComments]. *)
Definition Config : gtype :=
  TStruct (str "Config")
    [field "SomeKey" "some key" TString; field "Description" "description" TString].

(** The document of the multi-line reconstruction property, with an empty
    line and with a line of two spaces as the blank line. *)
Definition multiLineDoc (blank : string) : bytes :=
  unlines ["(description)";
           "  This is a multi-line";
           "  description for the site.";
           blank;
           "  as well"].

(** The document of [TestComments]. *)
Definition commentsDoc : bytes :=
  unlines ["";
           "(some key) XXXX";
           "(description)";
           "  This is a multi-line";
           "  description for the site.";
           "  # this is a comment and should be ignored";
           "  \# this line should start with a hash";
           "  as well"].

(** [Note] and the value of [TestEscapedHashRoundtrip]. *)
Definition Note : gtype := TStruct (str "Note") [field "Content" "content" TString].

Definition joinLines (ls : list string) : bytes :=
  match ls with
  | [] => []
  | l :: ls' => str l ++ concat ((fun x => nl ++ str x) <$> ls')
  end.

(** ** Key resolution, field by field *)

(** The loop of [findStructField] from field index [i] on. *)
Fixpoint findFrom (key : bytes) (fs : list (fieldInfo * gtype)) (i : nat)
  : option (list nat) :=
  match fs with
  | [] => None
  | (fieldT, ft) :: fs' =>
      if bool_decide (Tag fieldT = key) then Some [i]
      else if bool_decide (Tag fieldT = []) && bool_decide (ToLower (Name fieldT) = key)
      then Some [i]
      else
        match (if Anonymous fieldT
               then match ft with
                    | TStruct _ _ => findStructField ft key
                    | _ => None
                    end
               else None) with
        | Some p => Some (i :: p)
        | None => findFrom key fs' (S i)
        end
  end.

(** A field answers a key directly: by its tag, or untagged by its
    lowercased name. *)
Definition matchesDirect (key : bytes) (f : fieldInfo * gtype) : bool :=
  bool_decide (Tag f.1 = key)
  || bool_decide (Tag f.1 = []) && bool_decide (ToLower (Name f.1) = key).

(** The search inside an embedded struct field. *)
Definition searchEmbedded (key : bytes) (f : fieldInfo * gtype) : option (list nat) :=
  if Anonymous f.1
  then match f.2 with
       | TStruct _ _ => findStructField f.2 key
       | _ => None
       end
  else None.

Definition fieldMatches (key : bytes) (f : fieldInfo * gtype) : bool :=
  matchesDirect key f || bool_decide (is_Some (searchEmbedded key f)).

(** The key under which [encodeStruct] writes a field. *)
Definition keyOf (f : fieldInfo * gtype) : bytes :=
  if bool_decide (Tag f.1 = []) then ToLower (Name f.1) else Tag f.1.

(** [BaseSettings] and [AppSettings] of [TestEmbeddedStructs]. *)
Definition BaseSettings : gtype :=
  TStruct (str "BaseSettings") [field "Timeout" "timeout" (TInt Int)].

Definition AppSettings : gtype :=
  TStruct (str "AppSettings")
    [embedded "BaseSettings" BaseSettings; field "AppName" "app_name" TString].

(** A record whose second field is tagged with the lowercased name of its
    untagged first field. *)
Definition Shadowed : gtype :=
  TStruct (str "Shadowed") [field "Port" "" (TInt Int); field "Other" "port" TString].

(** The key lines of a text: indent and key of every line [peek] would
    classify as [(key) value] or [(key)]. *)
Definition keyLines (out : bytes) : list (Z * bytes) :=
  omap (fun p =>
          match parseLine (dropCR p) with
          | Ok (Some li) =>
              if isKeyLine (lineTypeOf li) then Some (indent li, key li) else None
          | _ => None
          end) (pieces out).

(** [NilConfig] of [TestNilHandling]. *)
Definition NilConfig : gtype :=
  TStruct (str "NilConfig")
    [field "Admin" "admin" (TPtr TString);
     field "Features" "features" (TSlice TString);
     field "Aliases" "aliases" (TMap TString (TInt Int));
     field "SiteName" "site_name" TString].

(** [SimpleConfig] of [TestSimpleRoundtrip]. *)
Definition SimpleConfig : gtype :=
  TStruct (str "SimpleConfig")
    [field "SiteName" "site_name" TString;
     field "Port" "port" (TInt Int);
     field "IsProduction" "is_production" TBool;
     field "Version" "version" (TFloat Float64);
     field "InternalCounter" "-" (TInt Int)].

(** ** The causes of a failing scalar assignment *)

(** The type [indirect] reaches. *)
Fixpoint derefType (t : gtype) : gtype :=
  match t with
  | TPtr e => derefType e
  | _ => t
  end.

Section Causes.

Context {RT : GoRuntime}.

(** The text does not parse as the primitive kind of the destination. *)
Definition parseFails (t : gtype) (valueStr : bytes) : Prop :=
  match derefType t with
  | TInt _ => ParseInt valueStr = None
  | TUint _ => ParseUint valueStr = None
  | TFloat _ => ParseFloat valueStr = None
  | TBool => ParseBool valueStr = None
  | TTime => ParseTime valueStr = None
  | _ => False
  end.

(** The parsed number does not fit the bit width of the destination. *)
Definition overflows (t : gtype) (valueStr : bytes) : Prop :=
  match derefType t with
  | TInt k => exists i, ParseInt valueStr = Some i /\ OverflowInt k i = true
  | TUint k => exists u, ParseUint valueStr = Some u /\ OverflowUint k u = true
  | TFloat k => exists f, ParseFloat valueStr = Some f /\ OverflowFloat k f = true
  | _ => False
  end.

(** The literal nil meets a destination that cannot be nil. *)
Definition nilToNonNilable (t : gtype) (valueStr : bytes) : Prop :=
  valueStr = str "nil" /\ isNilable t = false.

(** The destination is of no scalar kind: a record that is not a
    timestamp, a list, an array, a map, an interface, or a kind the codec
    has no case for. *)
Definition notScalar (t : gtype) : Prop :=
  match derefType t with
  | TStruct _ _ | TSlice _ | TArray _ _ | TMap _ _ | TInterface | TOther _ => True
  | _ => False
  end.

Definition fails {A} (r : result A) : Prop := exists e, r = Err e.

End Causes.

(** ** Decoding into a map that already has entries *)

Section Overlay.

Context {RT : GoRuntime}.

(** The entries of [a] laid over those of [m]. *)
Definition overlay (m : gmap bytes val) (v : val) : val :=
  match v with
  | VMap (Some a) => VMap (Some (a ∪ m))
  | _ => v
  end.

Definition onValue {A B S} (f : A -> B) (r : result (A * S)) : result (B * S) :=
  match r with
  | Ok (x, d) => Ok (f x, d)
  | Err e => Err e
  end.

End Overlay.

(** ** Blocks of nested lines *)

(** A scanned piece that [peek] skips, or classifies as a line indented
    by more than [i]. *)
Definition nestedUnder (i : Z) (piece : bytes) : Prop :=
  fits piece = true
  /\ (parseLine (dropCR piece) = Ok None
      \/ exists li, parseLine (dropCR piece) = Ok (Some li) /\ i < indent li).

(** [DBConfig] of [TestComplexRoundtrip]. *)
Definition DBConfig : gtype :=
  TStruct (str "DBConfig") [field "Host" "host" TString; field "Port" "port" (TInt Int)].

(** ** A runtime to evaluate examples with

    Floats are restricted to the integers, written in decimal; a timestamp
    is kept as its text; the keys of a map come in the order of
    [map_to_list]. *)
#[global] Instance intRuntime : GoRuntime := {|
  float64 := Z;
  zeroFloat := 0;
  ParseFloat := ParseInt;
  FormatFloat := FormatInt;
  overflowFloat32 := fun _ => false;
  toFloat32 := fun f => f;
  timeT := bytes;
  zeroTime := [];
  ParseTime := fun s => Some s;
  FormatTime := fun t => t;
  MapKeys := fun A m => fst <$> map_to_list m;
  MapKeys_perm := fun A m => reflexivity _
|}.

(** The document with a malformed line inside the block of an unknown
    key, and the same document without that key and its block. *)
Definition unknownBlockDoc : bytes :=
  unlines ["(unknown)"; "  (bad"; "  (port) 99"; "(host) h"].

Definition unknownBlockRest : bytes := unlines ["(host) h"].


(** ** Text that survives the line classifier *)

Definition LF : ascii := "010"%char.

(** Text that stands on a line as it is: not empty, no white space around
    it, on one line, free of the comment sign. *)
Definition lineText (s : bytes) : Prop :=
  s <> [] /\ TrimSpace s = s /\ "#"%char ∉ s /\ LF ∉ s.

(** The value of a key-value line or of a list item: a line text that is
    not the nil literal. *)
Definition plainText (s : bytes) : Prop := lineText s /\ s <> str "nil".

(** A key: on one line, free of the comment sign and of the closing
    parenthesis. *)
Definition plainKey (k : bytes) : Prop :=
  ")"%char ∉ k /\ "#"%char ∉ k /\ LF ∉ k.

(** A byte below 128 that is no white space: it is part of no white-space
    rune. *)
Definition lowByte (a : ascii) : bool :=
  (N_of_ascii a <? 128)%N && negb (isSpace1 a).

(** The lines of a text, each followed by a line feed. *)
Definition unlinesB (ls : list bytes) : bytes :=
  concat ((fun l => l ++ [LF]) <$> ls).

(** The decoder about to scan the given lines. *)
Definition onLines (ls : list bytes) : Decoder := mkDecoder (Scanning ls) None.

(** The indentation, in spaces, of the lines [encodeStruct] writes at
    nesting level [i]. *)
Definition indentOf (i : Z) : Z := Z.of_nat (2 * Z.to_nat i).

(** The line of a key written at level [i], with what follows the closing
    parenthesis, and the line of a list item. *)
Definition keyLine (i : Z) (k tail : bytes) : bytes :=
  indentStrOf i ++ str "(" ++ k ++ str ")" ++ tail.

Definition itemText (i : Z) (s : bytes) : bytes :=
  indentStrOf i ++ str "> " ++ s.

(** The header line of a record in a list. *)
Definition headerLine (i : Z) (name : bytes) : bytes :=
  indentStrOf i ++ str "> (" ++ (if bool_decide (name = []) then str "item" else name)
    ++ str ")".

(** A byte that may stand anywhere in a plain text: below 128, no white
    space, not the comment sign. *)
Definition safeByte (c : ascii) : bool :=
  lowByte c && negb (Ascii.eqb c "#").

Definition isItemLine (lt : lineType) : bool :=
  match lt with
  | lineArrayItem | lineArrayObject => true
  | _ => false
  end.

(** ** Multi-line strings *)

(** A line of a multi-line string that comes back as it is: not blank,
    not taken for a key or a list item, free of the comment sign, not ended
    by a carriage return, and without a tab in its indentation. *)
Definition textLine (l : bytes) : Prop :=
  TrimSpace l <> []
  /\ head (TrimSpace l) <> Some "("%char
  /\ head (TrimSpace l) <> Some ">"%char
  /\ "#"%char ∉ l
  /\ last l <> Some "013"%char
  /\ is_Some (countIndent l).

(** A string of two lines or more, all of them such lines, that does not
    start with a space. *)
Definition multiLineText (s : bytes) : Prop :=
  LF ∈ s /\ head s <> Some " "%char /\ Forall textLine (Split LF s).

(** Lines joined by line feeds. *)
Definition joinLF (ls : list bytes) : bytes :=
  match ls with
  | [] => []
  | l :: ls' => l ++ concat ((fun x => LF :: x) <$> ls')
  end.

(** ** The values the round trip is stated for *)

Section RoundTripClass.

Context {RT : GoRuntime}.

(** The text a scalar is written as. *)
Definition scalarText (t : gtype) (v : val) : option bytes :=
  match t, v with
  | TString, VString s => Some s
  | TInt _, VInt i => Some (FormatInt i)
  | TUint _, VUint u => Some (FormatUint u)
  | TFloat _, VFloat f => Some (FormatFloat f)
  | TBool, VBool b => Some (FormatBool b)
  | TTime, VTime tm => Some (FormatTime tm)
  | _, _ => None
  end.

(** Scalars that come back: numbers within the range of their type, a
    string that is empty or plain, and floats and timestamps whose text
    (given by the runtime) is plain and parses back to them. *)
Definition scalarOK (t : gtype) (v : val) : Prop :=
  match t, v with
  | TString, VString s => s = [] \/ plainText s
  | TInt k, VInt i => OverflowInt k i = false
  | TUint k, VUint u => 0 <= u /\ OverflowUint k u = false
  | TFloat k, VFloat f =>
      plainText (FormatFloat f)
      /\ ParseFloat (FormatFloat f) = Some f
      /\ OverflowFloat k f = false
      /\ match k with Float32 => toFloat32 f | Float64 => f end = f
  | TBool, VBool _ => True
  | TTime, VTime tm =>
      plainText (FormatTime tm) /\ ParseTime (FormatTime tm) = Some tm
  | _, _ => False
  end.

(** As a list item the text must moreover not start with the opening
    parenthesis, which would make the line the header of a record. *)
Definition itemOK (t : gtype) (v : val) : Prop :=
  scalarOK t v
  /\ forall s, scalarText t v = Some s -> head s <> Some "("%char.

Definition isScalarType (t : gtype) : bool :=
  match t with
  | TString | TInt _ | TUint _ | TFloat _ | TBool | TTime => true
  | _ => false
  end.

End RoundTripClass.

Section RoundTripInvariants.

Context {RT : GoRuntime}.

(** Every key [encodeStruct] writes for the record is resolved by
    [findStructField] to the field it was written for. *)
Definition resolves (name : bytes) (fields : list (fieldInfo * gtype)) : Prop :=
  forall i f, fields !! i = Some f -> Tag f.1 <> str "-" ->
    findStructField (TStruct name fields) (keyOf f) = Some [i].

(** The fields of a record, one by one: a field excluded by its tag holds
    its zero value, any other field has a plain key and a value that is
    [ok]. *)
Definition fieldsOK (ok : gtype -> val -> Prop)
  : list (fieldInfo * gtype) -> list val -> Prop :=
  fix fieldsOK (fs : list (fieldInfo * gtype)) (xs : list val) {struct fs} : Prop :=
    match fs, xs with
    | [], [] => True
    | f :: fs', x :: xs' =>
        (if bool_decide (Tag f.1 = str "-") then x = Zero f.2
         else plainKey (keyOf f) /\ ok f.2 x)
        /\ fieldsOK fs' xs'
    | _, _ => False
    end.

(** The values of the round trip: scalars, multi-line strings (as values
    of fields), records of such values, lists (nil or not empty) of scalars
    or of records, maps (nil or not empty) from plain keys to scalars.  A
    field excluded by its tag holds its zero value; the name of a record
    type that heads list items is on one line and free of the comment
    sign. *)
Fixpoint valueOK (t : gtype) (v : val) {struct t} : Prop :=
  match t with
  | TStruct name fields =>
      match v with
      | VStruct vs =>
          (fix fieldsOK (fs : list (fieldInfo * gtype)) (xs : list val) {struct fs} : Prop :=
             match fs, xs with
             | [], [] => True
             | f :: fs', x :: xs' =>
                 (if bool_decide (Tag f.1 = str "-") then x = Zero f.2
                  else plainKey (keyOf f) /\ valueOK f.2 x)
                 /\ fieldsOK fs' xs'
             | _, _ => False
             end) fields vs
          /\ resolves name fields
      | _ => False
      end
  | TSlice e =>
      match v with
      | VSlice None => True
      | VSlice (Some l) =>
          l <> []
          /\ match e with
             | TStruct name _ =>
                 "#"%char ∉ name /\ LF ∉ name /\ Forall (valueOK e) l
             | _ => isScalarType e = true /\ Forall (itemOK e) l
             end
      | _ => False
      end
  | TMap kt e =>
      kt = TString /\ isScalarType e = true
      /\ match v with
         | VMap None => True
         | VMap (Some m) =>
             m <> ∅ /\ map_Forall (fun k x => plainKey k /\ scalarOK e x) m
         | _ => False
         end
  | TString => scalarOK t v \/ (exists s, v = VString s /\ multiLineText s)
  | _ => scalarOK t v
  end.

(** The lines ahead end the block of a line indented by [c]: the input
    ends, or the next line [peek] finds is indented by at most [c]. *)
Definition stops (c : Z) (rest : list bytes) (drest : Decoder) : Prop :=
  exists r, peek (onLines rest) = (Ok r, drest)
            /\ forall li, r = Some li -> indent li <= c.

Definition allFit (ls : list bytes) : Prop := Forall (fun l => fits l = true) ls.

Definition noLF (ls : list bytes) : Prop := Forall (fun l => LF ∉ l) ls.

(** [lines], read under a line indented by [c] into a destination [dst] of
    type [t], decode to [v]. *)
Definition decodesLines (t : gtype) (dst v : val) (c : Z) (lines : list bytes) : Prop :=
  forall fuel rest drest,
    allFit lines -> stops c rest drest ->
    (2 * length lines + 2 <= fuel)%nat ->
    decodeValue fuel t dst c (onLines (lines ++ rest)) = Ok (v, drest).

(** What [encodeValue] writes behind a key at level [i]: the [tail] of the
    key line and the [lines] under it.  Either the tail is a text that is
    assigned back to [v], or the key stands alone and the lines decode to
    [v]. *)
Definition fieldShape (t : gtype) (v : val) (i : Z) (tail : bytes)
    (lines : list bytes) : Prop :=
  (exists s, tail = " "%char :: s /\ lineText s /\ lines = []
             /\ forall old, setPrimitive t old s = Ok v)
  \/ ((tail = [] \/ tail = [" "%char]) /\ decodesLines t (Zero t) v (indentOf i) lines).

Definition fieldCodec (t : gtype) (v : val) (i : Z) : Prop :=
  exists tail lines,
    encodeValue t v i false = Ok (tail ++ LF :: unlinesB lines)
    /\ noLF lines
    /\ fieldShape t v i tail lines.

(** The lines start with a line of a type [ok] accepts at level [lvl], if
    there are any. *)
Definition startsWith (ok : lineType -> bool) (lvl : Z) (lines : list bytes) : Prop :=
  forall rest, allFit lines ->
    lines = []
    \/ exists li d1, peek (onLines (lines ++ rest)) = (Ok (Some li), d1)
                     /\ ok (lineTypeOf li) = true
                     /\ indent li = indentOf lvl.

(** The lines [encodeStruct] writes for the fields [fs] with values [xs]
    at level [i + 1], read by the loop of [decodeObject] into the record
    [T] whose fields before [fs] already hold [pre]. *)
Definition structCodec (T : gtype) (pre : list val)
    (fs : list (fieldInfo * gtype)) (xs : list val) (i : Z) : Prop :=
  exists lines,
    encodeStruct fs xs i = Ok (unlinesB lines)
    /\ noLF lines
    /\ startsWith isKeyLine (i + 1) lines
    /\ forall c fuel rest drest,
         c < indentOf (i + 1) ->
         allFit lines -> stops c rest drest ->
         (2 * length lines + 1 <= fuel)%nat ->
         objectLoop fuel T (VStruct (pre ++ ((fun f => Zero f.2) <$> fs))) c
           (onLines (lines ++ rest))
         = Ok (VStruct (pre ++ xs), drest).

(** The lines of one list element, read by one turn of the loop of
    [decodeSlice]. *)
Definition itemCodec (e : gtype) (x : val) (j : Z) (lines : list bytes) : Prop :=
  noLF lines
  /\ lines <> []
  /\ startsWith isItemLine j lines
  /\ forall c fuel acc rest drest,
       c < indentOf j ->
       allFit lines -> stops (indentOf j) rest drest ->
       (2 * length lines <= fuel)%nat ->
       sliceLoop (S fuel) e acc c (onLines (lines ++ rest))
       = sliceLoop fuel e (acc ++ [x]) c (onLines rest).

(** The map the loop of [decodeObject] builds from the entries of [m]
    under the keys [ks], starting from [acc]. *)
Definition insertAll (m : gmap bytes val) (ks : list bytes) (acc : gmap bytes val)
  : gmap bytes val :=
  foldl (fun a k => match m !! k with Some x => <[k := x]> a | None => a end) acc ks.

End RoundTripInvariants.

(** ** A record with every kind of field of the round trip *)

Definition Server : gtype :=
  TStruct (str "Server")
    [field "Name" "name" TString;
     field "Port" "" (TInt Int16);
     field "Tags" "tags" (TSlice TString);
     field "DB" "db" DBConfig;
     field "Limits" "limits" (TMap TString (TUint Uint8));
     field "Secret" "-" TString;
     field "Peers" "peers" (TSlice DBConfig);
     field "Debug" "debug" TBool;
     field "Notes" "notes" TString].

Section Fixtures.

Context {RT : GoRuntime}.

Definition server : val :=
  VStruct
    [VString (str "web 1");
     VInt (-8080);
     VSlice (Some [VString (str "a b"); VString []]);
     VStruct [VString (str "db.local"); VInt 5432];
     VMap (Some {[ str "max conn" := VUint 200 ]});
     VString [];
     VSlice (Some [VStruct [VString (str "peer"); VInt 1]; VStruct [VString []; VInt 0]]);
     VBool true;
     VString (joinLines ["first line"; "  second, indented"; "third"])].

End Fixtures.

(** ** Lines that carry nothing *)

(** A line of one-byte white space, with or without a comment behind it,
    short enough for the scanner. *)
Definition blankOrComment (p : bytes) : Prop :=
  exists ws rest,
    Forall (fun a => isSpace1 a = true) ws /\ (p = ws \/ p = ws ++ "#"%char :: rest).

Definition skipped (p : bytes) : Prop := fits p = true /\ blankOrComment p.

(** ** Errors that no input should produce, and progress *)

(** The errors of the branches the sources mark as impossible, the
    exhaustion of the fuel, and any error that wraps one of them. *)
Fixpoint internalError (e : error) : bool :=
  match e with
  | ErrOutOfFuel | ErrSyntaxUnknownLineType _ | ErrInvalidState => true
  | ErrSettingField _ e' | ErrDecodingField _ e' => internalError e'
  | _ => false
  end.

(** The buffered line, if there is one, is a line [peek] has classified. *)
Definition wfDecoder (d : Decoder) : Prop :=
  forall li, peekBuf d = Some li -> lineTypeOf li <> lineBlank.

(** The outcome of a decoding step that started in state [d]: no internal
    error, and a state that is not behind [d]. *)
Definition progress {A} (d : Decoder) (r : result (A * Decoder)) : Prop :=
  match r with
  | Ok (_, d') => wfDecoder d' /\ (pending d' <= pending d)%nat
  | Err e => internalError e = false
  end.

Definition clean {A} (r : result A) : Prop :=
  match r with
  | Ok _ => True
  | Err e => internalError e = false
  end.

(** ** Sets *)

(** The line of a set item at level [i]. *)
Definition setItemText (i : Z) (s : bytes) : bytes :=
  indentStrOf i ++ str ">| " ++ s.

Section Sets.

Context {RT : GoRuntime}.

(** The map [decodeSet] builds: every item becomes a key bound to
    [setValue]. *)
Definition addAll (setValue : val) (items : list bytes) (m : gmap bytes val)
  : gmap bytes val :=
  foldl (fun a s => <[s := setValue]> a) m items.

End Sets.

(** ** Carriage returns *)

Definition CR : ascii := "013"%char.

(** A line that may be followed by a carriage return: it does not end in
    one itself, and fits the scanner with the carriage return added. *)
Definition crOK (l : bytes) : Prop :=
  last l <> Some CR /\ fits (l ++ [CR]) = true.

(** The lines of a text, each followed by a carriage return and a line
    feed. *)
Definition unlinesCRLF (ls : list bytes) : bytes :=
  concat ((fun l => l ++ [CR; LF]) <$> ls).

(** Two decoders that differ only in a carriage return at the end of every
    line still to be scanned. *)
Definition sameButCR (dA dB : Decoder) : Prop :=
  peekBuf dA = peekBuf dB
  /\ exists ls, s dA = Scanning ((fun l => l ++ [CR]) <$> ls)
                /\ s dB = Scanning ls /\ Forall crOK ls.

Definition sameRun {A} (rA rB : result (A * Decoder)) : Prop :=
  match rA, rB with
  | Ok (x, dA), Ok (y, dB) => x = y /\ sameButCR dA dB
  | Err e, Err e' => e = e'
  | _, _ => False
  end.

(** * Properties *)

(** ** Byte strings *)

Section StringFacts.

Local Open Scope nat_scope.

Lemma TrimLeft_suffix s : exists k, TrimLeft s = drop k s.
Proof.
  remember (length s) as n eqn:Hn. revert s Hn.
  induction n as [n IH] using lt_wf_ind. intros s ->.
  destruct s as [|a s1]; [by exists 0|]. simpl.
  destruct (isSpace1 a).
  { destruct (IH (length s1) ltac:(simpl; lia) s1 eq_refl) as [k Hk].
    exists (S k). by rewrite Hk. }
  destruct s1 as [|b s2]; [by exists 0|].
  destruct (isSpace2 a b).
  { destruct (IH (length s2) ltac:(simpl; lia) s2 eq_refl) as [k Hk].
    exists (S (S k)). by rewrite Hk. }
  destruct s2 as [|c s3]; [by exists 0|].
  destruct (isSpace3 a b c); [|by exists 0].
  destruct (IH (length s3) ltac:(simpl; lia) s3 eq_refl) as [k Hk].
  exists (S (S (S k))). by rewrite Hk.
Qed.

Lemma TrimLeftRev_suffix s : exists k, TrimLeftRev s = drop k s.
Proof.
  remember (length s) as n eqn:Hn. revert s Hn.
  induction n as [n IH] using lt_wf_ind. intros s ->.
  destruct s as [|a s1]; [by exists 0|]. simpl.
  destruct (isSpace1 a).
  { destruct (IH (length s1) ltac:(simpl; lia) s1 eq_refl) as [k Hk].
    exists (S k). by rewrite Hk. }
  destruct s1 as [|b s2]; [by exists 0|].
  destruct (isSpace2 b a).
  { destruct (IH (length s2) ltac:(simpl; lia) s2 eq_refl) as [k Hk].
    exists (S (S k)). by rewrite Hk. }
  destruct s2 as [|c s3]; [by exists 0|].
  destruct (isSpace3 c b a); [|by exists 0].
  destruct (IH (length s3) ltac:(simpl; lia) s3 eq_refl) as [k Hk].
  exists (S (S (S k))). by rewrite Hk.
Qed.

Lemma TrimLeft_trimmed s : trimmedLeft (TrimLeft s) = true.
Proof.
  remember (length s) as n eqn:Hn. revert s Hn.
  induction n as [n IH] using lt_wf_ind. intros s ->.
  destruct s as [|a s1]; [done|]. simpl.
  destruct (isSpace1 a) eqn:H1.
  { by apply (IH (length s1)); simpl; try lia. }
  destruct s1 as [|b s2]; [by rewrite /trimmedLeft /= H1|].
  destruct (isSpace2 a b) eqn:H2.
  { by apply (IH (length s2)); simpl; try lia. }
  destruct s2 as [|c s3]; [by rewrite /trimmedLeft /= H1 H2|].
  destruct (isSpace3 a b c) eqn:H3; [|by rewrite /trimmedLeft /= H1 H2 H3].
  by apply (IH (length s3)); simpl; try lia.
Qed.

Lemma TrimLeftRev_trimmed s : trimmedRev (TrimLeftRev s) = true.
Proof.
  remember (length s) as n eqn:Hn. revert s Hn.
  induction n as [n IH] using lt_wf_ind. intros s ->.
  destruct s as [|a s1]; [done|]. simpl.
  destruct (isSpace1 a) eqn:H1.
  { by apply (IH (length s1)); simpl; try lia. }
  destruct s1 as [|b s2]; [by rewrite /trimmedRev /= H1|].
  destruct (isSpace2 b a) eqn:H2.
  { by apply (IH (length s2)); simpl; try lia. }
  destruct s2 as [|c s3]; [by rewrite /trimmedRev /= H1 H2|].
  destruct (isSpace3 c b a) eqn:H3; [|by rewrite /trimmedRev /= H1 H2 H3].
  by apply (IH (length s3)); simpl; try lia.
Qed.

Lemma trimmedLeft_fix s : trimmedLeft s = true -> TrimLeft s = s.
Proof.
  rewrite /trimmedLeft. destruct s as [|a [|b [|c s]]]; simpl; try done;
    destruct (isSpace1 a); simpl; try done;
    destruct (isSpace2 a b); simpl; try done;
    by destruct (isSpace3 a b c).
Qed.

Lemma trimmedRev_fix s : trimmedRev s = true -> TrimLeftRev s = s.
Proof.
  rewrite /trimmedRev. destruct s as [|a [|b [|c s]]]; simpl; try done;
    destruct (isSpace1 a); simpl; try done;
    destruct (isSpace2 b a); simpl; try done;
    by destruct (isSpace3 c b a).
Qed.

(** A prefix of a string without leading white space has none either. *)
Lemma trimmedLeft_take s n : trimmedLeft s = true -> trimmedLeft (take n s) = true.
Proof.
  rewrite /trimmedLeft.
  destruct s as [|a [|b [|c s]]], n as [|[|[|n]]]; simpl; try done;
    destruct (isSpace1 a); simpl; try done;
    by destruct (isSpace2 a b).
Qed.

Lemma TrimRight_prefix s : exists n, TrimRight s = take n s.
Proof.
  rewrite /TrimRight. destruct (TrimLeftRev_suffix (reverse s)) as [k ->].
  exists (length s - k). by rewrite drop_reverse reverse_involutive.
Qed.

Lemma TrimRight_idemp s : TrimRight (TrimRight s) = TrimRight s.
Proof.
  rewrite /TrimRight reverse_involutive.
  by rewrite (trimmedRev_fix _ (TrimLeftRev_trimmed _)).
Qed.

Lemma TrimSpace_trimmedLeft s : trimmedLeft (TrimSpace s) = true.
Proof.
  rewrite /TrimSpace. destruct (TrimRight_prefix (TrimLeft s)) as [n ->].
  apply trimmedLeft_take, TrimLeft_trimmed.
Qed.

Lemma TrimSpace_trimmedRight s : trimmedRev (reverse (TrimSpace s)) = true.
Proof. by rewrite /TrimSpace /TrimRight reverse_involutive TrimLeftRev_trimmed. Qed.

(** [strings.TrimSpace] is idempotent. *)
Lemma TrimSpace_idemp s : TrimSpace (TrimSpace s) = TrimSpace s.
Proof.
  rewrite {1}/TrimSpace (trimmedLeft_fix _ (TrimSpace_trimmedLeft s)).
  by rewrite /TrimSpace TrimRight_idemp.
Qed.

Lemma trimmedLeft_head s a : trimmedLeft s = true -> head s = Some a -> isSpace1 a = false.
Proof. destruct s; rewrite /trimmedLeft /=; [done|]. intros H [= ->]. by destruct (isSpace1 a). Qed.

Lemma trimmedRev_head s a : trimmedRev s = true -> head s = Some a -> isSpace1 a = false.
Proof. destruct s; rewrite /trimmedRev /=; [done|]. intros H [= ->]. by destruct (isSpace1 a). Qed.

End StringFacts.

Section Properties.

Context {RT : GoRuntime}.

(** ** Multi-line strings and comments *)

(** C2, evaluated on the code: the blank line between "description for the
    site." and "as well" is skipped by [peek], so the decoded string has a
    single line feed there where the claim (and [TestMultineStringCorrectly])
    expect two.  The result is the same for an empty blank line and for a
    blank line of spaces. *)
Theorem C2_blank_line_dropped :
  let decoded :=
    Ok (VPtr (Some (VStruct
      [VString [];
       VString (joinLines ["This is a multi-line";
                           "description for the site.";
                           "as well"])]))) in
  Unmarshal (multiLineDoc "") (TPtr Config) (VPtr (Some (Zero Config))) = decoded
  /\ Unmarshal (multiLineDoc "  ") (TPtr Config) (VPtr (Some (Zero Config))) = decoded.
Proof. split; by vm_compute. Qed.

(** C5, evaluated on the code: [peek] cuts the line at the first '#' whether
    or not a backslash precedes it, so the escaped line of [TestComments]
    reaches [decodeMultiLineString] as a lone backslash. *)
Theorem C5_escaped_hash_truncated :
  parseLine (str "  \# this line should start with a hash")
  = Ok (Some (mkLine 2 [] (str "  \") lineMultiLine))
  /\ Unmarshal commentsDoc (TPtr Config) (VPtr (Some (Zero Config)))
     = Ok (VPtr (Some (VStruct
         [VString (str "XXXX");
          VString (joinLines ["This is a multi-line";
                              "description for the site.";
                              "\";
                              "as well"])]))).
Proof. split; by vm_compute. Qed.

(** ** The line classifier *)

Lemma parseLine_KeyValue fullLine li :
  parseLine fullLine = Ok (Some li) -> lineTypeOf li = lineKeyValue ->
  exists rest, value li = TrimSpace rest /\ value li <> [].
Proof.
  rewrite /parseLine. intros Hp Ht.
  repeat (case_match; simplify_eq/=); try done;
    (eexists; split; [done|]; by eapply bool_decide_eq_false).
Qed.

(** C10: the value of a key-value line is stored trimmed: it is a fixed
    point of [strings.TrimSpace], it neither starts nor ends with a
    white-space byte, and assigning it to a string slot stores exactly that
    text. *)
Theorem C10_key_value_trimmed fullLine li :
  parseLine fullLine = Ok (Some li) ->
  lineTypeOf li = lineKeyValue ->
  TrimSpace (value li) = value li
  /\ (forall a, head (value li) = Some a -> isSpace1 a = false)
  /\ (forall a, last (value li) = Some a -> isSpace1 a = false)
  /\ (forall v x, setPrimitive TString v (value li) = Ok x -> x = VString (value li)).
Proof.
  intros Hp Ht. destruct (parseLine_KeyValue _ _ Hp Ht) as (rest & Hv & Hne).
  rewrite Hv. split_and!.
  - apply TrimSpace_idemp.
  - intros a. apply trimmedLeft_head, TrimSpace_trimmedLeft.
  - intros a. rewrite -head_reverse. apply trimmedRev_head, TrimSpace_trimmedRight.
  - intros v x. rewrite /setPrimitive. case_bool_decide; [done|]. simpl. by intros [= <-].
Qed.

(** ** Key resolution *)

Lemma findStructField_unfold name fields key :
  findStructField (TStruct name fields) key = findFrom key fields 0.
Proof.
  simpl. generalize 0%nat.
  induction fields as [|[fieldT ft] fs IH]; intros i; simpl; [done|].
  by rewrite IH.
Qed.

Lemma findFrom_skip key pre fs i :
  Forall (fun g => fieldMatches key g = false) pre ->
  findFrom key (pre ++ fs) i = findFrom key fs (i + length pre).
Proof.
  intros H. revert i. induction H as [|[fieldT ft] pre Hf _ IH]; intros i; simpl.
  { by rewrite Nat.add_0_r. }
  move: Hf. rewrite /fieldMatches /matchesDirect /searchEmbedded /=.
  intros [[Ht Hn]%orb_false_iff Hs%bool_decide_eq_false]%orb_false_iff.
  rewrite Ht Hn.
  destruct (if Anonymous fieldT then _ else _) eqn:He.
  { exfalso. apply Hs. eauto. }
  rewrite IH. f_equal. lia.
Qed.

Lemma findFrom_direct key f fs i :
  matchesDirect key f = true -> findFrom key (f :: fs) i = Some [i].
Proof.
  destruct f as [fieldT ft]. rewrite /matchesDirect /=.
  destruct (bool_decide (Tag fieldT = key)); [done|]. simpl. by intros ->.
Qed.

Lemma findFrom_embedded key f fs i p :
  matchesDirect key f = false -> searchEmbedded key f = Some p ->
  findFrom key (f :: fs) i = Some (i :: p).
Proof.
  destruct f as [fieldT ft]. rewrite /matchesDirect /searchEmbedded /=.
  intros [-> ->]%orb_false_iff ->. done.
Qed.

Lemma findStructField_first name fields key i f :
  fields !! i = Some f ->
  Forall (fun g => fieldMatches key g = false) (take i fields) ->
  findStructField (TStruct name fields) key = findFrom key (f :: drop (S i) fields) i.
Proof.
  intros Hi Hpre. rewrite findStructField_unfold.
  rewrite -{1}(take_drop_middle _ _ _ Hi) findFrom_skip //.
  rewrite length_take_le; [|done]. apply lookup_lt_Some in Hi. lia.
Qed.

(** C4, as the code has it: the fields are tried in declaration order, so
    a field whose tag equals the key is the one bound when no earlier field
    answers the key (by its tag, untagged by its lowercased name, or from
    inside an embedded struct). *)
Theorem C4_first_match_wins name fields key i f :
  fields !! i = Some f ->
  Tag f.1 = key ->
  Forall (fun g => fieldMatches key g = false) (take i fields) ->
  findStructField (TStruct name fields) key = Some [i].
Proof.
  intros Hi Ht Hpre. rewrite (findStructField_first _ _ _ _ _ Hi Hpre).
  apply findFrom_direct. rewrite /matchesDirect. by rewrite bool_decide_eq_true_2.
Qed.

(** ** The encoder, case by case *)

Lemma encodeValue_struct name fields vs indent :
  encodeValue (TStruct name fields) (VStruct vs) indent false
  = (out <- encodeStruct fields vs indent ;;;
     Ok ((if -1 <? indent then nl else []) ++ out)).
Proof. reflexivity. Qed.

Lemma encodeStruct_cons f fields fieldV vs indent :
  Tag f.1 <> str "-" ->
  encodeStruct (f :: fields) (fieldV :: vs) indent
  = (out <- encodeValue f.2 fieldV (indent + 1) false ;;;
     more <- encodeStruct fields vs indent ;;;
     Ok (indentStrOf (indent + 1) ++ str "(" ++ keyOf f ++ str ")" ++ out ++ more)).
Proof.
  intros Hne. destruct f as [fieldT ft].
  rewrite /encodeStruct /keyOf /=. by rewrite bool_decide_eq_false_2.
Qed.

Lemma encodeStruct_skip f fields fieldV vs indent :
  Tag f.1 = str "-" ->
  encodeStruct (f :: fields) (fieldV :: vs) indent = encodeStruct fields vs indent.
Proof.
  intros He. destruct f as [fieldT ft].
  rewrite /encodeStruct /=. by rewrite bool_decide_eq_true_2.
Qed.

(** ** Embedded structs *)

(** C3, as the code has it.  Decoding: a key that no earlier field answers
    and that an embedded struct field does not answer itself is searched
    inside the embedded struct, so [(timeout) 30] at the parent's indent
    fills the embedded field.  Encoding: [encodeStruct] treats an embedded
    struct like any struct field; it writes the field's own key and the
    fields of the embedded struct one level deeper. *)
Theorem C3_embedded_promoted_on_decode_nested_on_encode :
  (forall name fields key i f p,
      fields !! i = Some f ->
      matchesDirect key f = false ->
      searchEmbedded key f = Some p ->
      Forall (fun g => fieldMatches key g = false) (take i fields) ->
      findStructField (TStruct name fields) key = Some (i :: p))
  /\ Unmarshal (unlines [""; "(app_name) My-App"; "(timeout) 30"])
       (TPtr AppSettings) (VPtr (Some (Zero AppSettings)))
     = Ok (VPtr (Some (VStruct [VStruct [VInt 30]; VString (str "My-App")])))
  /\ (forall f name fields' vs' fields vs indent inner more,
      f.2 = TStruct name fields' ->
      Tag f.1 <> str "-" ->
      -1 <= indent ->
      encodeStruct fields' vs' (indent + 1) = Ok inner ->
      encodeStruct fields vs indent = Ok more ->
      encodeStruct (f :: fields) (VStruct vs' :: vs) indent
      = Ok (indentStrOf (indent + 1) ++ str "(" ++ keyOf f ++ str ")" ++ nl
            ++ inner ++ more))
  /\ Marshal AppSettings (VStruct [VStruct [VInt 30]; VString (str "My-App")])
     = Ok (unlines ["(basesettings)"; "  (timeout) 30"; "(app_name) My-App"]).
Proof.
  split_and!.
  - intros name fields key i f p Hi Hd Hs Hpre.
    rewrite (findStructField_first _ _ _ _ _ Hi Hpre).
    by apply findFrom_embedded.
  - by vm_compute.
  - intros f name fields' vs' fields vs indent inner more Hf Ht Hi Hin Hmore.
    rewrite encodeStruct_cons // Hf encodeValue_struct Hin Hmore /=.
    destruct (-1 <? indent + 1) eqn:E; [|lia].
    by rewrite -!app_assoc.
  - by vm_compute.
Qed.

(** ** Scalar assignment *)

Lemma indirect_force_type t v :
  (indirect t v true).1.1 = derefType t.
Proof.
  revert v. induction t as [| | | | | | |t IH| | | | |]; intros v; try done. simpl.
  destruct v as [| | | | | | |[x|]| | | | |]; simpl;
    first [ specialize (IH x); by destruct (indirect t x true) as [[??]?]
          | specialize (IH (Zero t)); by destruct (indirect t (Zero t) true) as [[??]?] ].
Qed.

Lemma derefType_not_ptr t e : derefType t <> TPtr e.
Proof. induction t; simpl; done. Qed.

Lemma setKind_fails_iff t valueStr :
  fails (setKind (derefType t) valueStr)
  <-> parseFails t valueStr \/ overflows t valueStr \/ notScalar t.
Proof.
  rewrite /fails /parseFails /overflows /notScalar.
  pose proof (derefType_not_ptr t) as Hp.
  destruct (derefType t) eqn:Ht; simpl; repeat case_match; try (by naive_solver);
    (split; [by intros [? [=]]|intros [[=]|[(? & [= <-] & ?)|[]]]; congruence]).
Qed.

(** [setPrimitive] fails in exactly four situations. *)
Lemma setPrimitive_fails_iff t v valueStr :
  fails (setPrimitive t v valueStr)
  <-> nilToNonNilable t valueStr
      \/ (valueStr <> str "nil"
          /\ (parseFails t valueStr \/ overflows t valueStr \/ notScalar t)).
Proof.
  rewrite /setPrimitive /nilToNonNilable. case_bool_decide as Hnil.
  - rewrite /fails. destruct (isNilable t); naive_solver.
  - pose proof (indirect_force_type t v) as Ht.
    destruct (indirect t v true) as [[t' v'] k]. simpl in Ht. subst t'.
    rewrite -setKind_fails_iff. rewrite /fails.
    destruct (setKind (derefType t) valueStr); naive_solver.
Qed.

(** ** The loops, one iteration at a time *)

Arguments peek : simpl never.
Arguments consume : simpl never.
Arguments consumeChildren : simpl never.
Arguments setPrimitive : simpl never.
Arguments findTarget : simpl never.

Lemma objectLoop_keyValue fuel t v currentIndent d line d' targetT targetV store :
  peek d = (Ok (Some line), d') ->
  currentIndent < indent line ->
  lineTypeOf line = lineKeyValue ->
  findTarget t v (key line) = Ok (Some (targetT, targetV, store)) ->
  objectLoop (S fuel) t v currentIndent d
  = match setPrimitive targetT targetV (value line) with
    | Err e => Err (ErrSettingField (key line) e)
    | Ok x => objectLoop fuel t (store x) currentIndent (consume d')
    end.
Proof.
  intros Hp Hi Ht Hf. simpl. rewrite Hp.
  destruct (indent line <=? currentIndent) eqn:E; [lia|].
  by rewrite Ht /= Hf.
Qed.

Lemma objectLoop_keyOnly fuel t v currentIndent d line d' targetT targetV store :
  peek d = (Ok (Some line), d') ->
  currentIndent < indent line ->
  lineTypeOf line = lineKeyOnly ->
  findTarget t v (key line) = Ok (Some (targetT, targetV, store)) ->
  objectLoop (S fuel) t v currentIndent d
  = match decodeValue fuel targetT targetV (indent line) (consume d') with
    | Err e => Err (ErrDecodingField (key line) e)
    | Ok (x, d'') => objectLoop fuel t (store x) currentIndent d''
    end.
Proof.
  intros Hp Hi Ht Hf. simpl. rewrite Hp.
  destruct (indent line <=? currentIndent) eqn:E; [lia|].
  by rewrite Ht /= Hf.
Qed.

Lemma objectLoop_unknown fuel t v currentIndent d line d' :
  peek d = (Ok (Some line), d') ->
  currentIndent < indent line ->
  isKeyLine (lineTypeOf line) = true ->
  findTarget t v (key line) = Ok None ->
  objectLoop (S fuel) t v currentIndent d
  = objectLoop fuel t v currentIndent
      (match lineTypeOf line with
       | lineKeyOnly => consumeChildren (indent line) (consume d')
       | _ => consume d'
       end).
Proof.
  intros Hp Hi Ht Hf. simpl. rewrite Hp.
  destruct (indent line <=? currentIndent) eqn:E; [lia|].
  by rewrite Ht /= Hf.
Qed.

Lemma objectLoop_end fuel t v currentIndent d d' :
  peek d = (Ok None, d') ->
  objectLoop (S fuel) t v currentIndent d = Ok (v, d').
Proof. intros Hp. simpl. by rewrite Hp. Qed.

Lemma objectLoop_dedent fuel t v currentIndent d line d' :
  peek d = (Ok (Some line), d') ->
  indent line <= currentIndent ->
  objectLoop (S fuel) t v currentIndent d = Ok (v, d').
Proof.
  intros Hp Hi. simpl. rewrite Hp.
  by destruct (indent line <=? currentIndent) eqn:E; [|lia].
Qed.

Lemma sliceLoop_item fuel elemType acc currentIndent d line d' :
  peek d = (Ok (Some line), d') ->
  currentIndent < indent line ->
  lineTypeOf line = lineArrayItem ->
  sliceLoop (S fuel) elemType acc currentIndent d
  = match setPrimitive elemType (Zero elemType) (value line) with
    | Err e => Err e
    | Ok x => sliceLoop fuel elemType (acc ++ [x]) currentIndent (consume d')
    end.
Proof.
  intros Hp Hi Ht. simpl. rewrite Hp.
  destruct (indent line <=? currentIndent) eqn:E; [lia|].
  by rewrite Ht.
Qed.

Lemma sliceLoop_object fuel elemType acc currentIndent d line d' :
  peek d = (Ok (Some line), d') ->
  currentIndent < indent line ->
  lineTypeOf line = lineArrayObject ->
  sliceLoop (S fuel) elemType acc currentIndent d
  = match decodeValue fuel elemType (Zero elemType) (indent line) (consume d') with
    | Err e => Err e
    | Ok (x, d'') => sliceLoop fuel elemType (acc ++ [x]) currentIndent d''
    end.
Proof.
  intros Hp Hi Ht. simpl. rewrite Hp.
  destruct (indent line <=? currentIndent) eqn:E; [lia|].
  by rewrite Ht.
Qed.

Lemma sliceLoop_end fuel elemType acc currentIndent d d' :
  peek d = (Ok None, d') ->
  sliceLoop (S fuel) elemType acc currentIndent d = Ok (acc, d').
Proof. intros Hp. simpl. by rewrite Hp. Qed.

Lemma sliceLoop_dedent fuel elemType acc currentIndent d line d' :
  peek d = (Ok (Some line), d') ->
  indent line <= currentIndent ->
  sliceLoop (S fuel) elemType acc currentIndent d = Ok (acc, d').
Proof.
  intros Hp Hi. simpl. rewrite Hp.
  by destruct (indent line <=? currentIndent) eqn:E; [|lia].
Qed.

Lemma sliceLoop_other fuel elemType acc currentIndent d line d' :
  peek d = (Ok (Some line), d') ->
  lineTypeOf line <> lineArrayItem ->
  lineTypeOf line <> lineArrayObject ->
  sliceLoop (S fuel) elemType acc currentIndent d = Ok (acc, d').
Proof.
  intros Hp H1 H2. simpl. rewrite Hp.
  destruct (indent line <=? currentIndent) eqn:E; [done|].
  by destruct (lineTypeOf line).
Qed.

(** C7, as the code has it.  A scalar assignment fails exactly when the
    text is nil and the destination cannot be nil, or the text is not nil
    and, behind the pointers, the destination is a number, boolean or
    timestamp the text does not parse as, a number the parsed value
    overflows, or no scalar at all.  The loops stop at the first failure:
    for a key-value line the error carries the key of the line, a failure
    below a key-only line carries that key, a failing list item is passed
    on as it is. *)
Theorem C7_type_mismatch_causes_and_abort :
  (forall t v valueStr,
      fails (setPrimitive t v valueStr)
      <-> nilToNonNilable t valueStr
          \/ (valueStr <> str "nil"
              /\ (parseFails t valueStr \/ overflows t valueStr \/ notScalar t)))
  /\ (forall fuel t v currentIndent d line d' targetT targetV store e,
      peek d = (Ok (Some line), d') ->
      currentIndent < indent line ->
      lineTypeOf line = lineKeyValue ->
      findTarget t v (key line) = Ok (Some (targetT, targetV, store)) ->
      setPrimitive targetT targetV (value line) = Err e ->
      objectLoop (S fuel) t v currentIndent d = Err (ErrSettingField (key line) e))
  /\ (forall fuel t v currentIndent d line d' targetT targetV store e,
      peek d = (Ok (Some line), d') ->
      currentIndent < indent line ->
      lineTypeOf line = lineKeyOnly ->
      findTarget t v (key line) = Ok (Some (targetT, targetV, store)) ->
      decodeValue fuel targetT targetV (indent line) (consume d') = Err e ->
      objectLoop (S fuel) t v currentIndent d = Err (ErrDecodingField (key line) e))
  /\ (forall fuel elemType acc currentIndent d line d' e,
      peek d = (Ok (Some line), d') ->
      currentIndent < indent line ->
      lineTypeOf line = lineArrayItem ->
      setPrimitive elemType (Zero elemType) (value line) = Err e ->
      sliceLoop (S fuel) elemType acc currentIndent d = Err e)
  /\ Unmarshal (unlines ["(site_name) x"; "(port) thirty"; "(version) 1"])
       (TPtr SimpleConfig) (VPtr (Some (Zero SimpleConfig)))
     = Err (ErrSettingField (str "port") (ErrInvalidInteger (str "thirty"))).
Proof.
  split_and!.
  - apply setPrimitive_fails_iff.
  - intros * Hp Hi Ht Hf He. by rewrite (objectLoop_keyValue _ _ _ _ _ _ _ _ _ _ Hp Hi Ht Hf) He.
  - intros * Hp Hi Ht Hf He. by rewrite (objectLoop_keyOnly _ _ _ _ _ _ _ _ _ _ Hp Hi Ht Hf) He.
  - intros * Hp Hi Ht He. by rewrite (sliceLoop_item _ _ _ _ _ _ _ Hp Hi Ht) He.
  - by vm_compute.
Qed.

(** ** Nil and empty values *)

(** C6: as the value of a key (and at the root), a nil pointer, a nil list
    and an empty list are all written as the token nil; the literal nil
    assigned to a list or map slot leaves the slot nil whatever it held. *)
Theorem C6_nil_empty_collapse :
  (forall e indent, encodeValue (TPtr e) (VPtr None) indent false = Ok (str " nil" ++ nl))
  /\ (forall e indent, encodeValue (TSlice e) (VSlice None) indent false = Ok (str " nil" ++ nl))
  /\ (forall e indent, encodeValue (TSlice e) (VSlice (Some [])) indent false = Ok (str " nil" ++ nl))
  /\ (forall e v, setPrimitive (TSlice e) v (str "nil") = Ok (VSlice None))
  /\ (forall k e v, setPrimitive (TMap k e) v (str "nil") = Ok (VMap None))
  /\ Marshal NilConfig (VStruct [VPtr None; VSlice (Some []); VMap None; VString (str "Test")])
     = Ok (unlines ["(admin) nil"; "(features) nil"; "(aliases) nil"; "(site_name) Test"])
  /\ Unmarshal (unlines ["(admin) nil"; "(features) nil"; "(aliases) nil"; "(site_name) Test"])
       (TPtr NilConfig)
       (VPtr (Some (VStruct [VPtr (Some (VString (str "root")));
                             VSlice (Some [VString (str "a")]);
                             VMap (Some ∅);
                             VString []])))
     = Ok (VPtr (Some (VStruct [VPtr None; VSlice None; VMap None; VString (str "Test")]))).
Proof. split_and!; try done; by vm_compute. Qed.

(** ** Lists are rebuilt, maps are added to *)

Lemma objectLoop_overlay fuel kt e a m currentIndent d :
  objectLoop fuel (TMap kt e) (VMap (Some (a ∪ m))) currentIndent d
  = onValue (overlay m) (objectLoop fuel (TMap kt e) (VMap (Some a)) currentIndent d).
Proof.
  revert a d. induction fuel as [|fuel IH]; intros a d; [done|].
  simpl. destruct (peek d) as [[[line|]|err] d']; try done.
  destruct (indent line <=? currentIndent); [done|].
  destruct (isKeyLine (lineTypeOf line)); [|done]. simpl.
  rewrite /findTarget.
  destruct (lineTypeOf line); simpl;
    try (destruct (decodeValue _ _ _ _ _) as [[x d'']|]; [|done]);
    try (destruct (setPrimitive _ _ _) as [x|]; [|done]);
    by rewrite insert_union_l IH.
Qed.

Lemma setLoop_overlay fuel setValue a m currentIndent d :
  setLoop fuel setValue (a ∪ m) currentIndent d
  = onValue (fun a' => a' ∪ m) (setLoop fuel setValue a currentIndent d).
Proof.
  revert a d. induction fuel as [|fuel IH]; intros a d; [done|].
  simpl. destruct (peek d) as [[[line|]|err] d']; try done.
  destruct (indent line <=? currentIndent); [done|].
  destruct (lineTypeOf line); try done.
  by rewrite insert_union_l IH.
Qed.

(** C9.  [decodeSlice] builds its result from an empty slice: what the
    destination held plays no part, and the result is a non-nil slice.
    [decodeObject] and [decodeSet] on a non-nil map add to it: the result is
    what the same lines produce in an empty map, laid over the old entries,
    so every old entry whose key the lines do not set is still there. *)
Theorem C9_slice_rebuilt_map_extended :
  (forall fuel e old old' currentIndent d,
      decodeSlice fuel (TSlice e) (VSlice old) currentIndent d
      = decodeSlice fuel (TSlice e) (VSlice old') currentIndent d
      /\ forall x d', decodeSlice fuel (TSlice e) (VSlice old) currentIndent d = Ok (x, d') ->
                      exists l, x = VSlice (Some l))
  /\ (forall fuel kt e m currentIndent d,
      decodeObject fuel (TMap kt e) (VMap (Some m)) currentIndent d
      = onValue (overlay m) (decodeObject fuel (TMap kt e) (VMap (Some ∅)) currentIndent d))
  /\ (forall fuel kt e m currentIndent d,
      decodeSet fuel (TMap kt e) (VMap (Some m)) currentIndent d
      = onValue (overlay m) (decodeSet fuel (TMap kt e) (VMap (Some ∅)) currentIndent d))
  /\ (forall (a m : gmap bytes val) k, a !! k = None -> (a ∪ m) !! k = m !! k).
Proof.
  split_and!.
  - intros. split; [done|]. rewrite /decodeSlice /decodeSliceWith /=.
    intros x d'. destruct (sliceLoop _ _ _ _ _) as [[l d'']|]; [|done].
    simpl. intros [= <- <-]. eauto.
  - intros. rewrite /decodeObject /decodeObjectWith /=.
    case_bool_decide; [|done].
    rewrite -{1}(left_id_L ∅ (∪) m) objectLoop_overlay.
    by destruct (objectLoop _ _ _ _ _) as [[[] ?]|].
  - intros. rewrite /decodeSet /=.
    case_bool_decide; [|done]. simpl.
    destruct (match e with TStruct _ [] => _ | _ => _ end); [|done].
    rewrite -{1}(left_id_L ∅ (∪) m) setLoop_overlay.
    by destruct (setLoop _ _ _ _ _) as [[? ?]|].
  - intros a m k Ha. by rewrite lookup_union_r.
Qed.

(** ** [peek] *)

Lemma peek_buffered sc li :
  peek (mkDecoder sc (Some li)) = (Ok (Some li), mkDecoder sc (Some li)).
Proof. done. Qed.

Lemma peek_blank p ps :
  fits p = true -> parseLine (dropCR p) = Ok None ->
  peek (mkDecoder (Scanning (p :: ps)) None) = peek (mkDecoder (Scanning ps) None).
Proof. intros Hf Hp. rewrite /peek /=. by rewrite Hf Hp. Qed.

Lemma peek_line p ps li :
  fits p = true -> parseLine (dropCR p) = Ok (Some li) ->
  peek (mkDecoder (Scanning (p :: ps)) None)
  = (Ok (Some li), mkDecoder (Scanning ps) (Some li)).
Proof. intros Hf Hp. rewrite /peek /=. by rewrite Hf Hp. Qed.

Lemma peek_eof : peek (mkDecoder (Scanning []) None) = (Ok None, mkDecoder (Scanning []) None).
Proof. done. Qed.

Lemma scanLoop_eof n sc sc' : scanLoop n sc = (Ok None, sc') -> sc' = Scanning [].
Proof.
  revert sc. induction n as [|n IH]; intros sc; simpl;
    destruct sc as [[|p ps]|buf|]; simpl; repeat case_match; naive_solver.
Qed.

(** A second [peek] returns what the first returned. *)
Lemma peek_idemp d r d' : peek d = (Ok r, d') -> peek d' = (Ok r, d').
Proof.
  rewrite /peek. destruct d as [sc [li|]]; simpl.
  { by intros [= <- <-]. }
  destruct (scanLoop (remaining sc) sc) as [[[li|]|e] sc'] eqn:Hs; intros [= <- <-]; [done|].
  by rewrite (scanLoop_eof _ _ _ Hs).
Qed.

Lemma objectLoop_peeked fuel t v currentIndent d r d' :
  peek d = (Ok r, d') ->
  objectLoop fuel t v currentIndent d' = objectLoop fuel t v currentIndent d.
Proof.
  intros Hp. destruct fuel as [|fuel]; [done|].
  simpl. by rewrite Hp (peek_idemp _ _ _ Hp).
Qed.

(** ** Unknown keys *)

Lemma consumeChildrenLoop_block n i block rest r drest :
  (length block <= n)%nat ->
  Forall (nestedUnder i) block ->
  peek (mkDecoder (Scanning rest) None) = (Ok r, drest) ->
  (forall li, r = Some li -> indent li <= i) ->
  consumeChildrenLoop n i (mkDecoder (Scanning (block ++ rest)) None) = drest.
Proof.
  intros Hn Hblock Hrest Hr. revert n Hn.
  induction Hblock as [|p block [Hfit Hp] _ IH]; intros n Hn; simpl.
  - destruct n; simpl; rewrite Hrest; destruct r as [li|]; try done;
      (destruct (i <? indent li) eqn:E; [specialize (Hr li eq_refl); lia|done]).
  - destruct Hp as [Hp|(li & Hp & Hi)].
    + assert (forall m, consumeChildrenLoop m i (mkDecoder (Scanning (p :: block ++ rest)) None)
                        = consumeChildrenLoop m i (mkDecoder (Scanning (block ++ rest)) None)) as ->.
      { intros [|m]; simpl; by rewrite (peek_blank _ _ Hfit Hp). }
      apply IH. simpl in Hn. lia.
    + destruct n as [|n]; [simpl in Hn; lia|]. simpl.
      rewrite (peek_line _ _ _ Hfit Hp).
      destruct (i <? indent li) eqn:E; [|lia].
      apply IH. simpl in Hn. lia.
Qed.

(** Unknown keys where every line is well formed.  In a record, a key-only
    line with an unknown key is skipped together with the lines nested under
    it, provided each of those lines is one [peek] accepts and [peek] also
    accepts the first line after them, and the loop goes on with the lines
    after the block and the destination as it was; a key-value line with an
    unknown key is skipped alone. *)
Theorem unknown_key_block_skipped :
  (forall fuel t v currentIndent d hdr block rest r drest,
      peek d = (Ok (Some hdr), mkDecoder (Scanning (block ++ rest)) (Some hdr)) ->
      currentIndent < indent hdr ->
      lineTypeOf hdr = lineKeyOnly ->
      findTarget t v (key hdr) = Ok None ->
      Forall (nestedUnder (indent hdr)) block ->
      peek (mkDecoder (Scanning rest) None) = (Ok r, drest) ->
      (forall li, r = Some li -> indent li <= indent hdr) ->
      objectLoop (S fuel) t v currentIndent d
      = objectLoop fuel t v currentIndent (mkDecoder (Scanning rest) None))
  /\ (forall fuel t v currentIndent d hdr d',
      peek d = (Ok (Some hdr), d') ->
      currentIndent < indent hdr ->
      lineTypeOf hdr = lineKeyValue ->
      findTarget t v (key hdr) = Ok None ->
      objectLoop (S fuel) t v currentIndent d
      = objectLoop fuel t v currentIndent (consume d')).
Proof.
  split.
  - intros * Hp Hi Ht Hf Hblock Hrest Hr.
    assert (isKeyLine (lineTypeOf hdr) = true) as Hk by (by rewrite Ht).
    rewrite (objectLoop_unknown _ _ _ _ _ _ _ Hp Hi Hk Hf) Ht.
    rewrite /consumeChildren /consume /=.
    rewrite (consumeChildrenLoop_block _ _ _ _ _ _ _ Hblock Hrest Hr).
    { rewrite /pending /= length_app. lia. }
    by apply objectLoop_peeked with r.
  - intros * Hp Hi Ht Hf.
    assert (isKeyLine (lineTypeOf hdr) = true) as Hk by (by rewrite Ht).
    by rewrite (objectLoop_unknown _ _ _ _ _ _ _ Hp Hi Hk Hf) Ht.
Qed.

(** ** Round trip: the text level *)

Section TextFacts.

Local Open Scope nat_scope.

Lemma IndexByte_None c s : c ∉ s -> IndexByte c s = None.
Proof.
  induction s as [|x s IH]; [done|]. intros [Hx Hs]%not_elem_of_cons. simpl.
  destruct (Ascii.eqb_spec x c); [congruence|]. by rewrite IH.
Qed.

Lemma IndexByte_app c a b : c ∉ a -> IndexByte c (a ++ c :: b) = Some (length a).
Proof.
  induction a as [|x a IH]; simpl.
  - by rewrite Ascii.eqb_refl.
  - intros [Hx Hs]%not_elem_of_cons.
    destruct (Ascii.eqb_spec x c); [congruence|]. by rewrite IH.
Qed.

Lemma HasPrefix_app p s : HasPrefix (p ++ s) p = true.
Proof. induction p as [|a p IH]; [by destruct s|]. simpl. by rewrite Ascii.eqb_refl. Qed.

Lemma countIndent_spaces n a rest :
  a <> " "%char -> a <> "009"%char ->
  countIndent (replicate n " "%char ++ a :: rest) = Some (Z.of_nat n).
Proof.
  intros H1 H2. induction n as [|n IH]; simpl.
  - destruct (Ascii.eqb_spec a " "); [done|].
    by destruct (Ascii.eqb_spec a "009").
  - rewrite IH /=. f_equal. lia.
Qed.

Lemma TrimLeft_spaces n s : TrimLeft (replicate n " "%char ++ s) = TrimLeft s.
Proof. induction n as [|n IH]; [done|]. simpl. by rewrite IH. Qed.

Lemma lowByte_not_space2 a b : lowByte a = true -> isSpace2 a b = false.
Proof.
  rewrite /lowByte /isSpace2. intros [H _]%andb_true_iff. apply N.ltb_lt in H.
  apply andb_false_iff. left. apply N.eqb_neq. lia.
Qed.

Lemma lowByte_not_space2_r a b : lowByte b = true -> isSpace2 a b = false.
Proof.
  rewrite /lowByte /isSpace2. intros [H _]%andb_true_iff. apply N.ltb_lt in H.
  apply andb_false_iff. right. apply orb_false_iff. split; apply N.eqb_neq; lia.
Qed.

Lemma lowByte_not_space3 a b c : lowByte a = true -> isSpace3 a b c = false.
Proof.
  rewrite /lowByte /isSpace3. intros [H _]%andb_true_iff. apply N.ltb_lt in H.
  assert (N_of_ascii a =? 225 = false)%N as -> by (apply N.eqb_neq; lia).
  assert (N_of_ascii a =? 226 = false)%N as -> by (apply N.eqb_neq; lia).
  assert (N_of_ascii a =? 227 = false)%N as -> by (apply N.eqb_neq; lia).
  done.
Qed.

Lemma lowByte_not_space3_m a b c : (N_of_ascii b < 128)%N -> isSpace3 a b c = false.
Proof.
  rewrite /isSpace3. intros H.
  assert (N_of_ascii b =? 154 = false)%N as -> by (apply N.eqb_neq; lia).
  assert (N_of_ascii b =? 128 = false)%N as -> by (apply N.eqb_neq; lia).
  assert (N_of_ascii b =? 129 = false)%N as -> by (apply N.eqb_neq; lia).
  by rewrite !andb_false_r.
Qed.

Lemma lowByte_not_space3_r a b c : lowByte c = true -> isSpace3 a b c = false.
Proof.
  rewrite /lowByte /isSpace3. intros [H _]%andb_true_iff. apply N.ltb_lt in H.
  assert (N_of_ascii c =? 128 = false)%N as -> by (apply N.eqb_neq; lia).
  assert (N_of_ascii c =? 159 = false)%N as -> by (apply N.eqb_neq; lia).
  assert (N_of_ascii c =? 168 = false)%N as -> by (apply N.eqb_neq; lia).
  assert (N_of_ascii c =? 169 = false)%N as -> by (apply N.eqb_neq; lia).
  assert (N_of_ascii c =? 175 = false)%N as -> by (apply N.eqb_neq; lia).
  assert (128 <=? N_of_ascii c = false)%N as -> by (apply N.leb_gt; lia).
  by rewrite !andb_false_r.
Qed.

Lemma lowByte_not_space1 a : lowByte a = true -> isSpace1 a = false.
Proof. rewrite /lowByte. intros [_ H]%andb_true_iff. by apply negb_true_iff. Qed.

(** A string that starts with a low byte has no white space in front. *)
Lemma trimmedLeft_low a s : lowByte a = true -> trimmedLeft (a :: s) = true.
Proof.
  intros H. rewrite /trimmedLeft /= (lowByte_not_space1 _ H) /=.
  destruct s as [|b [|c s]]; [done| |];
    by rewrite (lowByte_not_space2 _ _ H) /= ?(lowByte_not_space3 _ _ _ H).
Qed.

Lemma trimmedRev_low a s : lowByte a = true -> trimmedRev (a :: s) = true.
Proof.
  intros H. rewrite /trimmedRev /= (lowByte_not_space1 _ H) /=.
  destruct s as [|b [|c s]]; [done| |];
    by rewrite (lowByte_not_space2_r _ _ H) /= ?(lowByte_not_space3_r _ _ _ H).
Qed.

(** Putting a space (and anything else) behind the reversed text keeps it
    free of white space in front. *)
Lemma trimmedRev_app_space r y :
  r <> [] -> trimmedRev r = true -> trimmedRev (r ++ " "%char :: y) = true.
Proof.
  rewrite /trimmedRev. destruct r as [|a [|b [|c r]]]; simpl; try done; intros _.
  destruct (isSpace1 a); [done|]. simpl. intros _.
  destruct y; [done|]. by rewrite lowByte_not_space3_m.
Qed.

Lemma TrimSpace_fix_iff s :
  TrimSpace s = s <-> trimmedLeft s = true /\ trimmedRev (reverse s) = true.
Proof.
  split.
  - intros H. split.
    + rewrite -H. apply TrimSpace_trimmedLeft.
    + rewrite -H. apply TrimSpace_trimmedRight.
  - intros [H1 H2]. rewrite /TrimSpace (trimmedLeft_fix _ H1) /TrimRight.
    by rewrite (trimmedRev_fix _ H2) reverse_involutive.
Qed.

End TextFacts.

Section LineFacts.

Lemma not_elem_of_spaces c n : c <> " "%char -> c ∉ replicate n " "%char.
Proof. intros Hc [-> _]%elem_of_replicate. done. Qed.

Lemma lineText_trimmed s :
  lineText s -> trimmedLeft s = true /\ trimmedRev (reverse s) = true.
Proof. intros (_ & H & _). by apply TrimSpace_fix_iff. Qed.

Lemma TrimSpace_space_text s : TrimSpace s = s -> TrimSpace (" "%char :: s) = s.
Proof. done. Qed.

(** The content of a line: leading spaces go, a text that ends in a
    trimmed value stays as it is. *)
Lemma TrimSpace_line_value n a x s :
  lowByte a = true -> s <> [] -> TrimSpace s = s ->
  TrimSpace (replicate n " "%char ++ a :: x ++ " "%char :: s) = a :: x ++ " "%char :: s.
Proof.
  intros Ha Hs Ht. apply TrimSpace_fix_iff in Ht as [_ Hr].
  rewrite /TrimSpace TrimLeft_spaces (trimmedLeft_fix _ (trimmedLeft_low _ _ Ha)).
  rewrite /TrimRight trimmedRev_fix ?reverse_involutive //.
  rewrite reverse_cons reverse_app reverse_cons -!app_assoc /=.
  apply trimmedRev_app_space; [|done].
  intros H%(f_equal reverse). by rewrite reverse_involutive in H.
Qed.

(** The same for a text that ends in a low byte, with or without one
    space behind it. *)
Lemma TrimSpace_line_low n a x b :
  lowByte a = true -> lowByte b = true ->
  TrimSpace (replicate n " "%char ++ a :: x ++ [b]) = a :: x ++ [b].
Proof.
  intros Ha Hb.
  rewrite /TrimSpace TrimLeft_spaces (trimmedLeft_fix _ (trimmedLeft_low _ _ Ha)).
  rewrite /TrimRight trimmedRev_fix ?reverse_involutive //.
  rewrite reverse_cons reverse_app /=. by apply trimmedRev_low.
Qed.

Lemma TrimLeftRev_space r : TrimLeftRev (" "%char :: r) = TrimLeftRev r.
Proof. done. Qed.

Lemma TrimSpace_line_low_space n a x b :
  lowByte a = true -> lowByte b = true ->
  TrimSpace (replicate n " "%char ++ a :: x ++ [b; " "%char]) = a :: x ++ [b].
Proof.
  intros Ha Hb.
  rewrite /TrimSpace TrimLeft_spaces (trimmedLeft_fix _ (trimmedLeft_low _ _ Ha)).
  rewrite /TrimRight.
  assert (reverse (a :: x ++ [b; " "%char]) = " "%char :: (b :: reverse x ++ [a])) as ->
    by (by rewrite reverse_cons reverse_app).
  rewrite TrimLeftRev_space trimmedRev_fix; [by apply trimmedRev_low|].
  by rewrite reverse_cons reverse_app reverse_involutive.
Qed.

Lemma TrimSpace_single_low n a :
  lowByte a = true -> TrimSpace (replicate n " "%char ++ [a]) = [a].
Proof.
  intros Ha. rewrite /TrimSpace TrimLeft_spaces /=.
  rewrite (lowByte_not_space1 _ Ha) /TrimRight /= (lowByte_not_space1 _ Ha). done.
Qed.

Lemma dropCR_id l b : last l = Some b -> b <> "013"%char -> dropCR l = l.
Proof.
  rewrite /dropCR -head_reverse. destruct (reverse l) as [|c r]; [done|].
  intros [= ->] Hb. by destruct (Ascii.eqb_spec b "013").
Qed.

Lemma lineText_last s : lineText s -> exists b, last s = Some b /\ b <> "013"%char.
Proof.
  intros Hp. pose proof (lineText_trimmed _ Hp) as [_ Hr]. destruct Hp as (Hs & _).
  destruct (last s) as [b|] eqn:Hl; [|by apply last_None in Hl].
  exists b. split; [done|]. intros ->.
  rewrite -head_reverse in Hl. by pose proof (trimmedRev_head _ _ Hr Hl).
Qed.

End LineFacts.

Section ParseFacts.

Lemma keyLine_eq i k tail :
  keyLine i k tail = replicate (2 * Z.to_nat i) " "%char ++ "("%char :: k ++ ")"%char :: tail.
Proof. done. Qed.

Lemma itemText_eq i s :
  itemText i s = replicate (2 * Z.to_nat i) " "%char ++ ">"%char :: " "%char :: s.
Proof. done. Qed.

Lemma keyLine_no_hash i k tail :
  "#"%char ∉ k -> "#"%char ∉ tail -> IndexByte "#" (keyLine i k tail) = None.
Proof.
  intros Hk Ht. apply IndexByte_None. rewrite keyLine_eq.
  rewrite !not_elem_of_app !not_elem_of_cons. split_and!; try done.
  - by apply not_elem_of_spaces.
  - rewrite not_elem_of_app not_elem_of_cons. done.
Qed.

(** The remainder of a key line behind the key. *)
Lemma key_split k tail :
  ")"%char ∉ k ->
  IndexByte ")" ("("%char :: k ++ ")"%char :: tail) = Some (S (length k))
  /\ drop 1 (take (S (length k)) ("("%char :: k ++ ")"%char :: tail)) = k
  /\ drop (S (S (length k))) ("("%char :: k ++ ")"%char :: tail) = tail.
Proof.
  intros Hk. split_and!.
  - change ("("%char :: k ++ ")"%char :: tail) with (("("%char :: k) ++ ")"%char :: tail).
    rewrite IndexByte_app //. rewrite not_elem_of_cons. done.
  - simpl. rewrite take_app_length. by rewrite drop_0.
  - simpl. rewrite (cons_middle ")"%char k tail) app_assoc.
    rewrite drop_app_length' //. rewrite length_app /=. lia.
Qed.

Lemma paren_prefixes x :
  HasPrefix ("("%char :: x) (str "> (") = false
  /\ HasPrefix ("("%char :: x) (str ">|") = false
  /\ HasPrefix ("("%char :: x) (str ">") = false
  /\ HasPrefix ("("%char :: x) (str "(") = true.
Proof. split_and!; try done. by destruct x. Qed.

(** A key line with a value is classified as such. *)
Lemma parseLine_keyValue i k s :
  plainKey k -> lineText s ->
  parseLine (keyLine i k (" "%char :: s))
  = Ok (Some (mkLine (indentOf i) k s lineKeyValue)).
Proof.
  intros (Hk1 & Hk2 & Hk3) Hs. destruct (Hs) as (Hne & Htrim & Hh & Hl).
  rewrite /parseLine keyLine_no_hash //.
  { rewrite not_elem_of_cons. done. }
  rewrite keyLine_eq.
  assert ("("%char :: k ++ ")"%char :: " "%char :: s
          = "("%char :: (k ++ [")"%char]) ++ " "%char :: s) as Heq
    by (by rewrite -app_assoc).
  rewrite countIndent_spaces // Heq TrimSpace_line_value // -Heq.
  rewrite bool_decide_eq_false_2 //.
  destruct (paren_prefixes (k ++ ")"%char :: " "%char :: s)) as (-> & -> & -> & ->).
  destruct (key_split k (" "%char :: s) Hk1) as (-> & Hkey & Hval).
  rewrite Hkey Hval. rewrite (TrimSpace_space_text _ Htrim).
  by rewrite bool_decide_eq_false_2.
Qed.

(** A key line without value, with or without a space behind the key. *)
Lemma parseLine_keyOnly i k tail :
  plainKey k -> tail = [] \/ tail = [" "%char] ->
  parseLine (keyLine i k tail) = Ok (Some (mkLine (indentOf i) k [] lineKeyOnly)).
Proof.
  intros (Hk1 & Hk2 & Hk3) Ht.
  rewrite /parseLine keyLine_no_hash //.
  { destruct Ht as [-> | ->]; [apply not_elem_of_nil|].
    rewrite not_elem_of_cons. split; [done|apply not_elem_of_nil]. }
  rewrite keyLine_eq countIndent_spaces //.
  assert (TrimSpace (replicate (2 * Z.to_nat i) " "%char ++ "("%char :: k ++ ")"%char :: tail)
          = "("%char :: k ++ [")"%char]) as ->.
  { destruct Ht as [-> | ->].
    - by apply TrimSpace_line_low.
    - by apply (TrimSpace_line_low_space _ "("%char k ")"%char). }
  rewrite bool_decide_eq_false_2 //.
  destruct (paren_prefixes (k ++ [")"%char])) as (-> & -> & -> & ->).
  destruct (key_split k [] Hk1) as (-> & -> & ->).
  done.
Qed.

Lemma chevron_prefixes s :
  head s <> Some "("%char ->
  HasPrefix (">"%char :: " "%char :: s) (str "> (") = false
  /\ HasPrefix (">"%char :: " "%char :: s) (str ">|") = false
  /\ HasPrefix (">"%char :: " "%char :: s) (str ">") = true.
Proof.
  intros Hs. split_and!; try done.
  destruct s as [|a s]; [done|].
  change (HasPrefix (">"%char :: " "%char :: a :: s) (str "> ("))
    with (Ascii.eqb "(" a && HasPrefix s []).
  destruct (Ascii.eqb_spec "(" a); [by subst|done].
Qed.

(** A list item with a value. *)
Lemma parseLine_item i s :
  lineText s -> head s <> Some "("%char ->
  parseLine (itemText i s) = Ok (Some (mkLine (indentOf i) [] s lineArrayItem)).
Proof.
  intros Hs Hh. destruct (Hs) as (Hne & Htrim & Hhash & Hl).
  rewrite /parseLine IndexByte_None.
  { rewrite itemText_eq !not_elem_of_app !not_elem_of_cons. split_and!; try done.
    by apply not_elem_of_spaces. }
  rewrite itemText_eq countIndent_spaces //.
  rewrite (TrimSpace_line_value _ ">"%char [] s) //.
  change ([] ++ " "%char :: s) with (" "%char :: s).
  rewrite bool_decide_eq_false_2 //.
  destruct (chevron_prefixes s Hh) as (-> & -> & ->).
  change (drop 1 (">"%char :: " "%char :: s)) with (" "%char :: s).
  by rewrite (TrimSpace_space_text _ Htrim).
Qed.

(** The item of an empty string. *)
Lemma parseLine_item_empty i :
  parseLine (itemText i []) = Ok (Some (mkLine (indentOf i) [] [] lineArrayItem)).
Proof.
  rewrite /parseLine IndexByte_None.
  { rewrite itemText_eq !not_elem_of_app !not_elem_of_cons. split_and!; try done.
    - by apply not_elem_of_spaces.
    - apply not_elem_of_nil. }
  rewrite itemText_eq countIndent_spaces //.
  assert (TrimSpace (replicate (2 * Z.to_nat i) " "%char ++ [">"%char; " "%char])
          = [">"%char]) as ->.
  { rewrite /TrimSpace TrimLeft_spaces. done. }
  done.
Qed.

(** The header of a record in a list. *)
Lemma parseLine_header i name :
  "#"%char ∉ name ->
  parseLine (indentStrOf i ++ str "> (" ++ name ++ str ")")
  = Ok (Some (mkLine (indentOf i) [] [] lineArrayObject)).
Proof.
  intros Hn.
  assert (indentStrOf i ++ str "> (" ++ name ++ str ")"
          = replicate (2 * Z.to_nat i) " "%char
              ++ ">"%char :: (" "%char :: "("%char :: name) ++ [")"%char]) as -> by done.
  rewrite /parseLine IndexByte_None.
  { rewrite !not_elem_of_app !not_elem_of_cons !not_elem_of_app !not_elem_of_cons.
    split_and!; try done; [by apply not_elem_of_spaces|apply not_elem_of_nil]. }
  rewrite countIndent_spaces // TrimSpace_line_low //.
  rewrite bool_decide_eq_false_2 //.
  change (HasPrefix (">"%char :: (" "%char :: "("%char :: name) ++ [")"%char]) (str "> ("))
    with (HasPrefix (name ++ [")"%char]) []).
  by destruct name.
Qed.

Lemma dropCR_keyLine i k tail :
  tail = [] \/ tail = [" "%char] -> dropCR (keyLine i k tail) = keyLine i k tail.
Proof.
  intros Ht. rewrite keyLine_eq.
  destruct Ht as [-> | ->].
  - apply dropCR_id with ")"%char; [|done].
    change ("("%char :: k ++ [")"%char]) with (("("%char :: k) ++ [")"%char]).
    by rewrite app_assoc last_snoc.
  - apply dropCR_id with " "%char; [|done].
    rewrite (cons_middle ")"%char k) !app_assoc.
    change ("("%char :: (k ++ [")"%char]) ++ [" "%char])
      with (("("%char :: k ++ [")"%char]) ++ [" "%char]).
    by rewrite app_assoc last_snoc.
Qed.

Lemma dropCR_text x s : lineText s -> dropCR (x ++ s) = x ++ s.
Proof.
  intros (b & Hb & Hcr)%lineText_last.
  apply dropCR_id with b; [|done]. rewrite last_app Hb //.
Qed.

Lemma dropCR_header i name :
  dropCR (indentStrOf i ++ str "> (" ++ name ++ str ")")
  = indentStrOf i ++ str "> (" ++ name ++ str ")".
Proof. apply dropCR_id with ")"%char; [|done]. by rewrite !app_assoc last_snoc. Qed.

Lemma dropCR_item_empty i : dropCR (itemText i []) = itemText i [].
Proof.
  apply dropCR_id with " "%char; [|done]. rewrite itemText_eq.
  by rewrite (cons_middle ">"%char) app_assoc last_snoc.
Qed.

End ParseFacts.

(** ** Round trip: numbers and booleans *)

Section StrconvFacts.

Lemma plainText_safe s :
  s <> [] -> Forall (fun c => safeByte c = true) s -> s <> str "nil" -> plainText s.
Proof.
  intros Hne Hall Hnil. split; [|done]. split_and!; try done.
  - apply TrimSpace_fix_iff. split.
    + destruct s as [|a s]; [done|]. apply Forall_cons in Hall as [Ha _].
      apply trimmedLeft_low. by apply andb_true_iff in Ha as [? _].
    + apply Forall_reverse in Hall.
      destruct (reverse s) as [|a r] eqn:Hr.
      { apply (f_equal reverse) in Hr. by rewrite reverse_involutive in Hr. }
      apply Forall_cons in Hall as [Ha _].
      apply trimmedRev_low. by apply andb_true_iff in Ha as [? _].
  - intros Hin. rewrite Forall_forall in Hall. specialize (Hall _ Hin). done.
  - intros Hin. rewrite Forall_forall in Hall. specialize (Hall _ Hin). done.
Qed.

Lemma digit_safe c d : digit c = Some d -> safeByte c = true.
Proof.
  rewrite /digit /safeByte /lowByte /isSpace1.
  destruct (_ && _) eqn:E; [|done]. intros _.
  apply andb_true_iff in E as [E1 E2]. apply Z.leb_le in E1, E2.
  destruct (Ascii.eqb_spec c "#") as [->|_]; [done|].
  rewrite !andb_true_iff negb_true_iff orb_false_iff andb_false_iff.
  rewrite N.ltb_lt N.leb_gt N.eqb_neq. split_and!; try done; [lia| |lia].
  right. apply N.leb_gt. lia.
Qed.

Lemma digit_digitChar d : 0 <= d <= 9 -> digit (digitChar d) = Some d.
Proof.
  intros Hd. rewrite /digit /digitChar N_ascii_embedding; [lia|].
  rewrite Z2N.id; [lia|].
  destruct (_ && _) eqn:E.
  - f_equal. lia.
  - apply andb_false_iff in E as [E|E]; [apply Z.leb_gt in E|apply Z.leb_gt in E]; lia.
Qed.

Lemma mod10_digit u : 0 <= u mod 10 <= 9.
Proof. pose proof (Z.mod_pos_bound u 10). lia. Qed.

Lemma parseDigits_formatBits n u tail :
  0 <= u < 10 ^ Z.of_nat (S n) ->
  parseDigits 0 (formatBits n u tail) = parseDigits u tail.
Proof.
  revert u tail. induction n as [|n IH]; intros u tail Hu.
  - simpl. rewrite digit_digitChar; [apply mod10_digit|].
    change (10 ^ Z.of_nat 1) with 10 in Hu. by rewrite Z.mod_small.
  - cbn [formatBits]. destruct (u <? 10) eqn:E.
    + apply Z.ltb_lt in E. simpl. rewrite digit_digitChar; [apply mod10_digit|].
      by rewrite Z.mod_small; [lia|].
    + apply Z.ltb_ge in E. rewrite IH.
      { rewrite Nat2Z.inj_succ Z.pow_succ_r in Hu; [lia|].
        split; [apply Z.div_pos; lia|]. apply Z.div_lt_upper_bound; lia. }
      simpl. rewrite digit_digitChar; [apply mod10_digit|].
      f_equal. pose proof (Z.div_mod u 10). lia.
Qed.

Lemma formatBits_digits n u tail :
  Forall (fun c => is_Some (digit c)) tail ->
  Forall (fun c => is_Some (digit c)) (formatBits n u tail).
Proof.
  revert u tail. induction n as [|n IH]; intros u tail Ht; cbn [formatBits].
  - apply Forall_cons. split; [|done].
    rewrite digit_digitChar; [apply mod10_digit|]. eauto.
  - assert (is_Some (digit (digitChar (u mod 10)))).
    { rewrite digit_digitChar; [apply mod10_digit|]. eauto. }
    destruct (u <? 10); [by apply Forall_cons|].
    apply IH. by apply Forall_cons.
Qed.

Lemma formatBits_nonempty n u tail : formatBits n u tail <> [].
Proof.
  revert u tail. induction n as [|n IH]; intros u tail; cbn [formatBits]; [done|].
  destruct (u <? 10); [done|]. apply IH.
Qed.

Lemma ParseUint_FormatUint u : 0 <= u < 2 ^ 64 -> ParseUint (FormatUint u) = Some u.
Proof.
  intros Hu. rewrite /ParseUint /FormatUint.
  pose proof (formatBits_nonempty 20 u []) as Hne.
  destruct (formatBits 20 u []) as [|c s] eqn:Hf; [done|]. rewrite -Hf.
  rewrite parseDigits_formatBits.
  { split; [lia|]. eapply Z.lt_trans; [apply Hu|]. done. }
  simpl. destruct (u <? 2 ^ 64) eqn:E; [done|]. apply Z.ltb_ge in E. lia.
Qed.

Lemma digits_plain s :
  s <> [] -> Forall (fun c => is_Some (digit c)) s ->
  plainText s /\ head s <> Some "("%char /\ head s <> Some "+"%char /\ head s <> Some "-"%char.
Proof.
  intros Hne Hd. split.
  - apply plainText_safe; [done| |].
    + eapply Forall_impl; [exact Hd|]. intros c [d Hc]. exact (digit_safe _ _ Hc).
    + intros ->. change (str "nil") with ("n"%char :: str "il") in Hd.
      apply Forall_cons in Hd as [[? Hn] _]. by compute in Hn.
  - destruct s as [|c s]; [done|]. apply Forall_cons in Hd as [[d Hc] _].
    split_and!; intros [= ->]; done.
Qed.

Lemma FormatUint_plain u :
  plainText (FormatUint u) /\ head (FormatUint u) <> Some "("%char.
Proof.
  destruct (digits_plain (FormatUint u)) as (? & ? & _); [| |done].
  - apply formatBits_nonempty.
  - by apply formatBits_digits.
Qed.

Lemma FormatInt_plain i :
  plainText (FormatInt i) /\ head (FormatInt i) <> Some "("%char.
Proof.
  rewrite /FormatInt. destruct (i <? 0); [|apply FormatUint_plain].
  split; [|done]. apply plainText_safe; [done| |done].
  apply Forall_cons. split; [done|].
  eapply Forall_impl; [by apply formatBits_digits|].
  intros c [d Hc]. exact (digit_safe _ _ Hc).
Qed.

Lemma ParseInt_FormatInt i :
  - 2 ^ 63 <= i < 2 ^ 63 -> ParseInt (FormatInt i) = Some i.
Proof.
  intros Hi. rewrite /FormatInt. destruct (i <? 0) eqn:E.
  - apply Z.ltb_lt in E. cbn [ParseInt]. simpl.
    rewrite ParseUint_FormatUint; [lia|].
    destruct (- i <=? 2 ^ 63) eqn:E2; [f_equal; lia|]. apply Z.leb_gt in E2. lia.
  - apply Z.ltb_ge in E.
    destruct (digits_plain (FormatUint i)) as (_ & _ & Hp & Hm).
    { apply formatBits_nonempty. } { by apply formatBits_digits. }
    pose proof (ParseUint_FormatUint i ltac:(lia)) as HP.
    destruct (FormatUint i) as [|c r] eqn:Hf; [done|].
    rewrite /ParseInt.
    destruct (Ascii.eqb_spec c "+") as [->|_]; [done|].
    destruct (Ascii.eqb_spec c "-") as [->|_]; [done|].
    rewrite HP. destruct (i <? 2 ^ 63) eqn:E2; [done|]. apply Z.ltb_ge in E2. lia.
Qed.

Lemma FormatBool_plain b :
  plainText (FormatBool b) /\ head (FormatBool b) <> Some "("%char
  /\ ParseBool (FormatBool b) = Some b.
Proof.
  destruct b; (split_and!; [|done|done]);
    (apply plainText_safe; [done| |done]); by repeat apply Forall_cons_2.
Qed.

Lemma OverflowInt_range k i : OverflowInt k i = false -> - 2 ^ 63 <= i < 2 ^ 63.
Proof.
  rewrite /OverflowInt. intros [H1%Z.ltb_ge H2%Z.leb_gt]%orb_false_iff.
  destruct k; simpl in *; lia.
Qed.

Lemma OverflowUint_range k u : OverflowUint k u = false -> u < 2 ^ 64.
Proof. rewrite /OverflowUint. intros H%Z.leb_gt. destruct k; simpl in *; lia. Qed.

(** What a scalar of the class is written as, and that the text is
    assigned back to the same scalar. *)
Lemma scalar_text t v :
  scalarOK t v ->
  exists s, scalarText t v = Some s
    /\ (s = [] /\ v = Zero t /\ t = TString
        \/ plainText s /\ forall old, setPrimitive t old s = Ok v).
Proof.
  destruct t, v; simpl; try done.
  - (* bool *)
    intros _. destruct (FormatBool_plain b) as (Hp & _ & HP).
    eexists; split; [done|]. right. split; [done|]. intros old.
    rewrite /setPrimitive bool_decide_eq_false_2; [apply Hp|]. by rewrite /= HP.
  - (* int *)
    intros Ho. destruct (FormatInt_plain i) as (Hp & _).
    eexists; split; [done|]. right. split; [done|]. intros old.
    rewrite /setPrimitive bool_decide_eq_false_2; [apply Hp|].
    by rewrite /= (ParseInt_FormatInt _ (OverflowInt_range _ _ Ho)) Ho.
  - (* uint *)
    intros [H0 Ho]. destruct (FormatUint_plain u) as (Hp & _).
    eexists; split; [done|]. right. split; [done|]. intros old.
    rewrite /setPrimitive bool_decide_eq_false_2; [apply Hp|].
    rewrite /= ParseUint_FormatUint; [split; [done|exact (OverflowUint_range _ _ Ho)]|].
    by rewrite Ho.
  - (* float *)
    intros (Hp & HP & Ho & Hr).
    eexists; split; [done|]. right. split; [done|]. intros old.
    rewrite /setPrimitive bool_decide_eq_false_2; [apply Hp|].
    rewrite /= HP Ho. by rewrite Hr.
  - (* string *)
    intros [->|Hp]; eexists; (split; [done|]); [by left|].
    right. split; [done|]. intros old.
    rewrite /setPrimitive bool_decide_eq_false_2; [apply Hp|]. done.
  - (* time *)
    intros (Hp & HP).
    eexists; split; [done|]. right. split; [done|]. intros old.
    rewrite /setPrimitive bool_decide_eq_false_2; [apply Hp|].
    by rewrite /= HP.
Qed.

End StrconvFacts.


(** ** Round trip: one field *)

Section FieldFacts.

Lemma consume_peeked sc li : consume (mkDecoder sc (Some li)) = mkDecoder sc None.
Proof. done. Qed.

Lemma stops_weaken c c' rest drest : c <= c' -> stops c rest drest -> stops c' rest drest.
Proof.
  intros Hc (r & Hp & Hr). exists r. split; [done|].
  intros li Hli. specialize (Hr li Hli). lia.
Qed.

(** At the end of a block [decodeValue] returns the destination as it is. *)
Lemma decodeValue_stops fuel t v c rest drest :
  stops c rest drest -> (1 <= fuel)%nat ->
  decodeValue fuel t v c (onLines rest) = Ok (v, drest).
Proof.
  intros (r & Hp & Hr) Hf. destruct fuel as [|fuel]; [lia|].
  simpl. rewrite Hp. destruct r as [li|]; [|done].
  specialize (Hr li eq_refl). by destruct (indent li <=? c) eqn:E; [|lia].
Qed.

Lemma objectLoop_stops fuel t v c rest drest :
  stops c rest drest -> (1 <= fuel)%nat ->
  objectLoop fuel t v c (onLines rest) = Ok (v, drest).
Proof.
  intros (r & Hp & Hr) Hf. destruct fuel as [|fuel]; [lia|].
  simpl. rewrite Hp. destruct r as [li|]; [|done].
  specialize (Hr li eq_refl). by destruct (indent li <=? c) eqn:E; [|lia].
Qed.

Lemma sliceLoop_stops fuel e acc c rest drest :
  stops c rest drest -> (1 <= fuel)%nat ->
  sliceLoop fuel e acc c (onLines rest) = Ok (acc, drest).
Proof.
  intros (r & Hp & Hr) Hf. destruct fuel as [|fuel]; [lia|].
  simpl. rewrite Hp. destruct r as [li|]; [|done].
  specialize (Hr li eq_refl). by destruct (indent li <=? c) eqn:E; [|lia].
Qed.

Lemma sliceLoop_peeked fuel e acc c d r d' :
  peek d = (Ok r, d') ->
  sliceLoop fuel e acc c d' = sliceLoop fuel e acc c d.
Proof.
  intros Hp. destruct fuel as [|fuel]; [done|].
  simpl. by rewrite Hp (peek_idemp _ _ _ Hp).
Qed.

Lemma indentOf_succ i : 0 <= i -> indentOf (i + 1) = indentOf i + 2.
Proof. intros Hi. rewrite /indentOf. rewrite Z2Nat.inj_add //. lia. Qed.

Lemma indentOf_nonneg i : 0 <= indentOf i.
Proof. rewrite /indentOf. lia. Qed.

Lemma indentOf_neg i : i <= 0 -> indentOf i = 0.
Proof. intros Hi. rewrite /indentOf. by rewrite Z2Nat.nonpos.  Qed.

Lemma unlinesB_cons l ls : unlinesB (l :: ls) = l ++ LF :: unlinesB ls.
Proof. rewrite /unlinesB /=. by rewrite -app_assoc. Qed.

Lemma unlinesB_app a b : unlinesB (a ++ b) = unlinesB a ++ unlinesB b.
Proof. by rewrite /unlinesB fmap_app concat_app. Qed.

(** The key line of a field with a value, and of a field without. *)
Lemma keyLine_value_parse i k s :
  plainKey k -> lineText s ->
  parseLine (dropCR (keyLine i k (" "%char :: s)))
  = Ok (Some (mkLine (indentOf i) k s lineKeyValue)).
Proof.
  intros Hk Hs.
  assert (keyLine i k (" "%char :: s)
          = (indentStrOf i ++ str "(" ++ k ++ str ") ") ++ s) as ->.
  { rewrite /keyLine -!app_assoc. done. }
  rewrite dropCR_text // -!app_assoc. by apply parseLine_keyValue.
Qed.

Lemma keyLine_only_parse i k tail :
  plainKey k -> tail = [] \/ tail = [" "%char] ->
  parseLine (dropCR (keyLine i k tail))
  = Ok (Some (mkLine (indentOf i) k [] lineKeyOnly)).
Proof. intros Hk Ht. rewrite dropCR_keyLine //. by apply parseLine_keyOnly. Qed.

Lemma fieldShape_keyLine t v i tail lines k :
  fieldShape t v i tail lines -> plainKey k ->
  exists li, parseLine (dropCR (keyLine i k tail)) = Ok (Some li)
    /\ isKeyLine (lineTypeOf li) = true /\ indent li = indentOf i.
Proof.
  intros [(s & -> & Hs & _)|[Ht _]] Hk.
  - eexists. split; [by apply keyLine_value_parse|done].
  - eexists. split; [by apply keyLine_only_parse|done].
Qed.

Lemma fieldShape_noLF t v i tail lines : fieldShape t v i tail lines -> LF ∉ tail.
Proof.
  intros [(s & -> & (_ & _ & _ & Hs) & _)|[[->| ->] _]].
  - rewrite not_elem_of_cons. done.
  - apply not_elem_of_nil.
  - rewrite not_elem_of_cons. split; [done|apply not_elem_of_nil].
Qed.

(** One turn of the loop of [decodeObject] reads a field and what is
    written under it. *)
Lemma field_step t v i tail lines k T V store c fuel rest drest :
  fieldShape t v i tail lines -> plainKey k ->
  findTarget T V k = Ok (Some (t, Zero t, store)) ->
  c < indentOf i ->
  fits (keyLine i k tail) = true -> allFit lines ->
  stops (indentOf i) rest drest ->
  (2 * length lines + 2 <= fuel)%nat ->
  objectLoop (S fuel) T V c (onLines (keyLine i k tail :: lines ++ rest))
  = objectLoop fuel T (store v) c (onLines rest).
Proof.
  intros Hshape Hk Hfind Hc Hfit Hfits Hstop Hfuel.
  destruct Hshape as [(s & -> & Hs & -> & Hset)|[Ht Hdec]].
  - pose proof (peek_line _ ([] ++ rest) _ Hfit (keyLine_value_parse i k s Hk Hs)) as Hpeek.
    rewrite (objectLoop_keyValue _ _ _ _ _ _ _ _ _ _ Hpeek Hc eq_refl Hfind) /=.
    by rewrite Hset.
  - pose proof (peek_line _ (lines ++ rest) _ Hfit (keyLine_only_parse i k tail Hk Ht)) as Hpeek.
    rewrite (objectLoop_keyOnly _ _ _ _ _ _ _ _ _ _ Hpeek Hc eq_refl Hfind) /=.
    rewrite consume_peeked (Hdec fuel rest drest) //.
    destruct Hstop as (r & Hp & _). by apply objectLoop_peeked with r.
Qed.

Lemma ContainsByte_false c s : c ∉ s -> ContainsByte c s = false.
Proof.
  intros H. rewrite /ContainsByte (IndexByte_None _ _ H).
  apply bool_decide_eq_false_2. by intros [? [=]].
Qed.

(** A scalar behind a key. *)
Lemma encodeValue_scalar t v i s :
  scalarOK t v -> scalarText t v = Some s ->
  encodeValue t v i false = Ok (valueLine s).
Proof.
  destruct t, v; simpl; try done; intros Hok [= <-]; try done.
  rewrite /encodeValue /encodeValueWith /= /encodeString.
  rewrite ContainsByte_false //.
  destruct Hok as [->|((_ & _ & _ & Hl) & _)]; [apply not_elem_of_nil|done].
Qed.

Lemma scalar_codec t v i : scalarOK t v -> fieldCodec t v i.
Proof.
  intros Hok. destruct (scalar_text _ _ Hok) as (s & Hs & Hcase).
  exists (" "%char :: s), []. split_and!.
  - by rewrite (encodeValue_scalar _ _ _ _ Hok Hs).
  - constructor.
  - destruct Hcase as [(-> & -> & ->)|[Hp Hset]].
    + right. split; [by right|]. intros fuel rest drest _ Hstop Hf.
      apply decodeValue_stops; [done|lia].
    + left. exists s. by destruct Hp.
Qed.

Lemma Zero_struct name fields :
  Zero (TStruct name fields) = VStruct ((fun f => Zero f.2) <$> fields).
Proof. reflexivity. Qed.

End FieldFacts.

(** ** Round trip: records *)

Section StructFacts.

Lemma valueOK_struct name fields vs :
  valueOK (TStruct name fields) (VStruct vs)
  <-> fieldsOK valueOK fields vs /\ resolves name fields.
Proof. reflexivity. Qed.

Lemma keyLine_noLF i k tail : plainKey k -> LF ∉ tail -> LF ∉ keyLine i k tail.
Proof.
  intros (_ & _ & Hk) Ht. rewrite keyLine_eq.
  rewrite !not_elem_of_app !not_elem_of_cons not_elem_of_app not_elem_of_cons.
  split_and!; try done. by apply not_elem_of_spaces.
Qed.

Lemma findTarget_field name prefs f fs' pre x0 rest0 :
  length pre = length prefs ->
  findStructField (TStruct name (prefs ++ f :: fs')) (keyOf f) = Some [length prefs] ->
  exists store,
    findTarget (TStruct name (prefs ++ f :: fs')) (VStruct (pre ++ x0 :: rest0)) (keyOf f)
    = Ok (Some (f.2, x0, store))
    /\ forall y, store y = VStruct (pre ++ y :: rest0).
Proof.
  intros Hlen Hfind. rewrite /findTarget Hfind /=.
  assert ((prefs ++ f :: fs') !! length prefs = Some f) as ->
    by (by apply list_lookup_middle).
  assert ((pre ++ x0 :: rest0) !! length prefs = Some x0) as Hx
    by (by apply list_lookup_middle).
  rewrite Hx. destruct f as [fi ft]. eexists. split; [done|].
  intros y. simpl. rewrite insert_app_r_alt; [lia|].
  by rewrite Hlen Nat.sub_diag.
Qed.

(** After the lines of a field come the lines of the next field, or the
    end of the block. *)
Lemma stops_next ok lvl lines c rest drest :
  startsWith ok lvl lines -> allFit lines -> stops c rest drest -> c <= indentOf lvl ->
  exists d', stops (indentOf lvl) (lines ++ rest) d'.
Proof.
  intros Hstart Hfit Hstop Hc. destruct (Hstart rest Hfit) as [->|(li & d1 & Hp & _ & Hi)].
  - exists drest. by apply stops_weaken with c.
  - exists d1, (Some li). split; [done|]. intros ? [= <-]. lia.
Qed.

Lemma struct_codec name fields i :
  -1 <= i ->
  Forall (fun f => forall v j, 0 <= j -> valueOK f.2 v -> fieldCodec f.2 v j) fields ->
  resolves name fields ->
  forall fs prefs pre xs, fields = prefs ++ fs -> length pre = length prefs ->
    fieldsOK valueOK fs xs ->
    structCodec (TStruct name fields) pre fs xs i.
Proof.
  intros Hi HIH Hres.
  induction fs as [|f fs' IHfs]; intros prefs pre xs Hfields Hlen Hok.
  - destruct xs; [|done]. exists []. split_and!.
    + done.
    + constructor.
    + intros rest _. by left.
    + intros c fuel rest drest Hc _ Hstop Hfuel. simpl in *.
      apply objectLoop_stops; [done|lia].
  - destruct xs as [|x xs']; [done|]. destruct Hok as [Hf Hok'].
    destruct (IHfs (prefs ++ [f]) (pre ++ [x]) xs') as (mlines & Hmenc & Hmlf & Hmstart & Hmloop).
    { by rewrite -app_assoc. }
    { rewrite !length_app /=. lia. }
    { done. }
    case_bool_decide as Htag.
    + subst x. exists mlines. split_and!; try done.
      * by rewrite encodeStruct_skip.
      * intros c fuel rest drest Hc Hfit Hstop Hfuel.
        specialize (Hmloop c fuel rest drest Hc Hfit Hstop Hfuel).
        by rewrite -!app_assoc /= in Hmloop.
    + destruct Hf as [Hkey Hval].
      assert (fieldCodec f.2 x (i + 1)) as (tail & flines & Henc & Hflf & Hshape).
      { rewrite Hfields in HIH. apply Forall_app in HIH as [_ HIH].
        apply Forall_cons in HIH as [HIH _]. apply HIH; [lia|done]. }
      exists (keyLine (i + 1) (keyOf f) tail :: flines ++ mlines). split_and!.
      * rewrite encodeStruct_cons // Henc Hmenc /=. f_equal.
        rewrite unlinesB_cons unlinesB_app keyLine_eq -!app_assoc /=.
        by rewrite -?app_assoc /= -?app_assoc.
      * apply Forall_cons. split; [|by apply Forall_app].
        apply keyLine_noLF; [done|]. exact (fieldShape_noLF _ _ _ _ _ Hshape).
      * intros rest [Hfit1 _]%Forall_cons. right.
        destruct (fieldShape_keyLine _ _ _ _ _ _ Hshape Hkey) as (li & Hparse & Hkl & Hind).
        exists li, (mkDecoder (Scanning ((flines ++ mlines) ++ rest)) (Some li)).
        split; [|done]. by apply peek_line.
      * intros c fuel rest drest Hc [Hfit1 [Hfit2 Hfit3]%Forall_app]%Forall_cons Hstop Hfuel.
        destruct fuel as [|fuel]; [simpl in Hfuel; lia|].
        simpl in Hfuel. rewrite length_app in Hfuel.
        assert (fields !! length prefs = Some f) as Hlook.
        { rewrite Hfields. by apply list_lookup_middle. }
        pose proof (Hres _ _ Hlook Htag) as Hfind. rewrite Hfields in Hfind.
        destruct (findTarget_field name prefs f fs' pre (Zero f.2)
                    ((fun g => Zero g.2) <$> fs') Hlen Hfind) as (store & Htarget & Hstore).
        destruct (stops_next _ _ _ _ _ _ Hmstart Hfit3 Hstop ltac:(lia)) as (d' & Hstop').
        rewrite Hfields -app_comm_cons -app_assoc fmap_cons.
        rewrite (field_step _ _ _ _ _ _ _ _ _ _ _ _ _ Hshape Hkey Htarget Hc Hfit1 Hfit2 Hstop');
          [lia|].
        rewrite Hstore.
        specialize (Hmloop c fuel rest drest Hc Hfit3 Hstop ltac:(lia)).
        rewrite -!app_assoc /= Hfields in Hmloop. done.
Qed.

End StructFacts.

(** ** Round trip: records as values, lists, maps *)

Section ValueFacts.

Lemma decodeValue_object fuel t v c d li d1 :
  peek d = (Ok (Some li), d1) -> c < indent li -> isKeyLine (lineTypeOf li) = true ->
  decodeValue (S fuel) t v c d = decodeObjectWith (objectLoop fuel) t v c d1.
Proof.
  intros Hp Hc Hk. simpl. rewrite Hp.
  destruct (indent li <=? c) eqn:E; [lia|]. by destruct (lineTypeOf li).
Qed.

Lemma decodeValue_slice fuel t v c d li d1 :
  peek d = (Ok (Some li), d1) -> c < indent li -> isItemLine (lineTypeOf li) = true ->
  decodeValue (S fuel) t v c d = decodeSliceWith (sliceLoop fuel) t v c d1.
Proof.
  intros Hp Hc Hk. simpl. rewrite Hp.
  destruct (indent li <=? c) eqn:E; [lia|]. by destruct (lineTypeOf li).
Qed.

(** The lines of a record decode to it, into the record itself or through
    a pointer to it. *)
Lemma struct_decodes name fields vs j t v k :
  structCodec (TStruct name fields) [] fields vs j ->
  indirect t v true = (TStruct name fields, Zero (TStruct name fields), k) ->
  k (Zero (TStruct name fields)) = v ->
  exists lines,
    encodeStruct fields vs j = Ok (unlinesB lines)
    /\ noLF lines
    /\ startsWith isKeyLine (j + 1) lines
    /\ forall c, c < indentOf (j + 1) -> decodesLines t v (k (VStruct vs)) c lines.
Proof.
  intros (lines & Henc & Hlf & Hstart & Hloop) Hind Hk.
  exists lines. split_and!; try done.
  intros c Hc fuel rest drest Hfit Hstop Hfuel.
  destruct fuel as [|fuel]; [lia|].
  destruct (Hstart rest Hfit) as [->|(li & d1 & Hp & Hkl & Hi)].
  - specialize (Hloop c 1%nat rest drest Hc Hfit Hstop ltac:(simpl; lia)).
    rewrite (objectLoop_stops _ _ _ _ _ _ Hstop) // in Hloop. injection Hloop as Hvs.
    simpl in Hvs. rewrite -Hvs. simpl app.
    rewrite (decodeValue_stops _ _ _ _ _ _ Hstop); [lia|]. by rewrite -{1}Hk.
  - rewrite (decodeValue_object _ _ _ _ _ _ _ Hp) //; [lia|].
    rewrite /decodeObjectWith Hind /=.
    rewrite (objectLoop_peeked _ _ _ _ _ _ _ Hp).
    specialize (Hloop c fuel rest drest Hc Hfit Hstop ltac:(lia)).
    simpl in Hloop. by rewrite Hloop.
Qed.

Lemma Split_app c a b : c ∉ a -> Split c (a ++ c :: b) = a :: Split c b.
Proof.
  induction a as [|x a IH]; simpl.
  - by rewrite Ascii.eqb_refl.
  - intros [Hx Ha]%not_elem_of_cons.
    destruct (Ascii.eqb_spec x c); [congruence|]. by rewrite IH.
Qed.

Lemma Split_unlinesB ls : noLF ls -> Split LF (unlinesB ls) = ls ++ [[]].
Proof.
  induction 1 as [|l ls Hl _ IH]; [done|].
  by rewrite unlinesB_cons Split_app // IH.
Qed.

(** The scanner hands out the lines that were written. *)
Lemma pieces_unlinesB ls : noLF ls -> pieces (unlinesB ls) = ls.
Proof.
  intros H. rewrite /pieces (Split_unlinesB _ H) reverse_app /=.
  by rewrite reverse_involutive.
Qed.

End ValueFacts.

Section SliceFacts.

Lemma itemText_noLF j s : LF ∉ s -> LF ∉ itemText j s.
Proof.
  intros Hs. rewrite itemText_eq !not_elem_of_app !not_elem_of_cons.
  split_and!; try done. by apply not_elem_of_spaces.
Qed.

Lemma startsWith_line ok lvl l ls li :
  parseLine (dropCR l) = Ok (Some li) -> ok (lineTypeOf li) = true ->
  indent li = indentOf lvl ->
  startsWith ok lvl (l :: ls).
Proof.
  intros Hp Hok Hi rest [Hfit _]%Forall_cons. right.
  exists li, (mkDecoder (Scanning (ls ++ rest)) (Some li)).
  split; [|done]. by apply peek_line.
Qed.

Lemma startsWith_app ok lvl a b :
  a <> [] -> startsWith ok lvl a -> startsWith ok lvl (a ++ b).
Proof.
  intros Ha Hs rest [Hfit _]%Forall_app. right.
  rewrite -app_assoc. by destruct (Hs (b ++ rest) Hfit).
Qed.

Lemma itemLine_eq j s : itemLine (indentStrOf j) s = itemText j s ++ [LF].
Proof. by rewrite /itemLine /itemText -!app_assoc. Qed.

(** A scalar in a list: its line, and the turn of the loop that reads
    it. *)
Lemma item_scalar e x j :
  isScalarType e = true -> itemOK e x ->
  exists s,
    (if bool_decide (Kind e = KStruct) then encodeValue e x j true
     else writePrimitiveArrayItem e x (indentStrOf j)) = Ok (unlinesB [itemText j s])
    /\ itemCodec e x j [itemText j s].
Proof.
  intros He [Hok Hhead].
  destruct (scalar_text _ _ Hok) as (s & Hs & Hcase). specialize (Hhead s Hs).
  exists s. split.
  { rewrite /unlinesB /= app_nil_r -itemLine_eq.
    destruct e, x; simpl in *; try done; by simplify_eq. }
  assert (LF ∉ s /\ parseLine (dropCR (itemText j s))
                    = Ok (Some (mkLine (indentOf j) [] s lineArrayItem))
          /\ setPrimitive e (Zero e) s = Ok x) as (Hlf & Hparse & Hset).
  { destruct Hcase as [(-> & -> & ->)|[[Hp Hnil] Hset]].
    - split_and!; [apply not_elem_of_nil| |done].
      rewrite dropCR_item_empty. apply parseLine_item_empty.
    - split_and!; [apply Hp| |done].
      rewrite /itemText !app_assoc dropCR_text // -!app_assoc.
      by apply parseLine_item. }
  split_and!.
  - apply Forall_cons. split; [by apply itemText_noLF|constructor].
  - done.
  - exact (startsWith_line isItemLine _ _ _ _ Hparse eq_refl eq_refl).
  - intros c fuel acc rest drest Hc [Hfit _]%Forall_cons Hstop Hfuel.
    pose proof (peek_line _ ([] ++ rest) _ Hfit Hparse) as Hpeek.
    rewrite (sliceLoop_item _ _ _ _ _ _ _ Hpeek Hc eq_refl) /=.
    by rewrite Hset.
Qed.

Lemma headerLine_noLF j name : LF ∉ name -> LF ∉ headerLine j name.
Proof.
  intros Hn. rewrite /headerLine !not_elem_of_app. split_and!.
  - by apply not_elem_of_spaces.
  - compute_done.
  - case_bool_decide; [compute_done|done].
  - compute_done.
Qed.

Lemma headerLine_parse j name :
  "#"%char ∉ name ->
  parseLine (dropCR (headerLine j name))
  = Ok (Some (mkLine (indentOf j) [] [] lineArrayObject)).
Proof.
  intros Hn. rewrite /headerLine dropCR_header. apply parseLine_header.
  case_bool_decide; [compute_done|done].
Qed.

(** A record in a list: its header line and the lines of its fields. *)
Lemma item_struct name fs vs j :
  0 <= j -> "#"%char ∉ name -> LF ∉ name ->
  structCodec (TStruct name fs) [] fs vs (j + 1) ->
  exists lines,
    encodeValue (TStruct name fs) (VStruct vs) j true = Ok (unlinesB lines)
    /\ itemCodec (TStruct name fs) (VStruct vs) j lines.
Proof.
  intros Hj Hhash Hlf Hcodec.
  destruct (struct_decodes name fs vs (j + 1) (TStruct name fs) (Zero (TStruct name fs))
              (fun y => y) Hcodec eq_refl eq_refl)
    as (slines & Henc & Hslf & _ & Hdec).
  exists (headerLine j name :: slines). split; [|split_and!].
  - rewrite /encodeValue /encodeValueWith /=.
    change (encodeStructWith _ fs vs (j + 1)) with (encodeStruct fs vs (j + 1)).
    rewrite Henc /= unlinesB_cons /headerLine. f_equal.
    by rewrite -!app_assoc.
  - apply Forall_cons. split; [by apply headerLine_noLF|done].
  - done.
  - eapply startsWith_line; [by apply headerLine_parse|done|done].
  - intros c fuel acc rest drest Hc [Hfit Hfits]%Forall_cons Hstop Hfuel.
    pose proof (peek_line _ (slines ++ rest) _ Hfit (headerLine_parse j name Hhash)) as Hpeek.
    rewrite -app_comm_cons.
    rewrite (sliceLoop_object _ _ _ _ _ _ _ Hpeek Hc eq_refl) /= consume_peeked.
    rewrite (Hdec (indentOf j) _ fuel rest drest Hfits Hstop).
    { rewrite !indentOf_succ; lia. }
    { simpl in Hfuel. lia. }
    destruct Hstop as (r & Hp & _). by apply sliceLoop_peeked with r.
Qed.

(** The elements of a list, one after the other. *)
Lemma items_codec e j (enc : val -> result bytes) l :
  Forall (fun x => exists lines, enc x = Ok (unlinesB lines) /\ itemCodec e x j lines) l ->
  exists lines,
    encodeItems enc l = Ok (unlinesB lines)
    /\ noLF lines
    /\ startsWith isItemLine j lines
    /\ (l <> [] -> lines <> [])
    /\ forall c fuel acc rest drest,
         c < indentOf j -> allFit lines -> stops c rest drest ->
         (2 * length lines + 1 <= fuel)%nat ->
         sliceLoop fuel e acc c (onLines (lines ++ rest)) = Ok (acc ++ l, drest).
Proof.
  induction 1 as [|x l (ilines & Henc & Hilf & Hne & Histart & Hstep) _
                    (mlines & Hmenc & Hmlf & Hmstart & _ & Hmloop)].
  - exists []. split_and!; try done.
    + intros rest _. by left.
    + intros c fuel acc rest drest Hc _ Hstop Hfuel. rewrite app_nil_r.
      apply sliceLoop_stops; [done|simpl in Hfuel; lia].
  - exists (ilines ++ mlines). split_and!.
    + by rewrite /= Henc Hmenc /= unlinesB_app.
    + by apply Forall_app.
    + by apply startsWith_app.
    + intros _ [? _]%app_eq_nil. done.
    + intros c fuel acc rest drest Hc [Hfit1 Hfit2]%Forall_app Hstop Hfuel.
      destruct fuel as [|fuel]; [lia|]. rewrite length_app in Hfuel.
      destruct (stops_next _ _ _ _ _ _ Hmstart Hfit2 Hstop ltac:(lia)) as (d' & Hstop').
      assert (1 <= length ilines)%nat by (destruct ilines; [done|simpl; lia]).
      rewrite -app_assoc (Hstep c fuel acc (mlines ++ rest) d' Hc Hfit1 Hstop'); [lia|].
      rewrite (Hmloop c fuel (acc ++ [x]) rest drest Hc Hfit2 Hstop); [lia|].
      by rewrite -app_assoc.
Qed.

End SliceFacts.

Section CollectionFacts.

Lemma lineText_nil : lineText (str "nil").
Proof. split_and!; [done|done|compute_done|compute_done]. Qed.

(** A nil list or map is written as the nil literal, which sets the slot
    to nil. *)
Lemma nil_codec t i :
  isNilable t = true -> isNilOrEmpty t (Zero t) = true -> fieldCodec t (Zero t) i.
Proof.
  intros Hn He. exists (str " nil"), []. split_and!.
  - by rewrite /encodeValue /encodeValueWith He.
  - constructor.
  - left. exists (str "nil"). split_and!; try done; [apply lineText_nil|].
    intros old. by rewrite /setPrimitive bool_decide_eq_true_2 // Hn.
Qed.

Lemma encodeSlice_items e l j :
  match e with TPtr _ => False | _ => True end ->
  encodeSlice e l j
  = encodeItems (fun x => if bool_decide (Kind e = KStruct) then encodeValue e x j true
                          else writePrimitiveArrayItem e x (indentStrOf j)) l.
Proof.
  intros He. rewrite /encodeSlice /encodeSliceWith.
  assert (match e with TPtr e0 => e0 | _ => e end = e) as -> by (by destruct e).
  by case_bool_decide.
Qed.

Lemma slice_codec e l i lines :
  0 <= i -> l <> [] ->
  encodeSlice e l (i + 1) = Ok (unlinesB lines) ->
  noLF lines -> startsWith isItemLine (i + 1) lines -> lines <> [] ->
  (forall c fuel acc rest drest,
      c < indentOf (i + 1) -> allFit lines -> stops c rest drest ->
      (2 * length lines + 1 <= fuel)%nat ->
      sliceLoop fuel e acc c (onLines (lines ++ rest)) = Ok (acc ++ l, drest)) ->
  fieldCodec (TSlice e) (VSlice (Some l)) i.
Proof.
  intros Hi Hl Henc Hlf Hstart Hne Hloop. exists [], lines. split_and!.
  - rewrite /encodeValue /encodeValueWith /=.
    rewrite bool_decide_eq_false_2; [by destruct l|]. simpl.
    change (encodeSliceWith _ e l (i + 1)) with (encodeSlice e l (i + 1)).
    by rewrite Henc.
  - done.
  - right. split; [by left|]. intros fuel rest drest Hfit Hstop Hfuel.
    destruct fuel as [|fuel]; [lia|].
    destruct (Hstart rest Hfit) as [->|(li & d1 & Hp & Hk & Hind)]; [done|].
    rewrite (decodeValue_slice _ _ _ _ _ _ _ Hp) //.
    { rewrite Hind indentOf_succ //. lia. }
    rewrite /decodeSliceWith /= (sliceLoop_peeked _ _ _ _ _ _ _ Hp).
    rewrite (Hloop (indentOf i) fuel [] rest drest) //.
    { rewrite indentOf_succ //. lia. }
    lia.
Qed.

Lemma findTarget_map kt e m k :
  findTarget (TMap kt e) (VMap (Some m)) k
  = Ok (Some (e, Zero e, fun x => VMap (Some (<[k := x]> m)))).
Proof. done. Qed.

(** The entries of a map, one key line each. *)
Lemma entries_codec e i m ks :
  -1 <= i ->
  Forall (fun k => exists x, m !! k = Some x /\ plainKey k /\ scalarOK e x) ks ->
  exists lines,
    encodeEntries (encodeValue e) m ks i = Ok (unlinesB lines)
    /\ noLF lines
    /\ startsWith isKeyLine (i + 1) lines
    /\ (ks <> [] -> lines <> [])
    /\ forall c fuel acc rest drest,
         c < indentOf (i + 1) -> allFit lines -> stops c rest drest ->
         (2 * length lines + 1 <= fuel)%nat ->
         objectLoop fuel (TMap TString e) (VMap (Some acc)) c (onLines (lines ++ rest))
         = Ok (VMap (Some (insertAll m ks acc)), drest).
Proof.
  intros Hi.
  induction 1 as [|k ks (x & Hm & Hkey & Hok) _
                    (mlines & Hmenc & Hmlf & Hmstart & _ & Hmloop)].
  - exists []. split_and!; try done.
    + intros rest _. by left.
    + intros c fuel acc rest drest Hc _ Hstop Hfuel.
      apply objectLoop_stops; [done|simpl in Hfuel; lia].
  - destruct (scalar_codec e x (i + 1) Hok) as (tail & flines & Henc & Hflf & Hshape).
    exists (keyLine (i + 1) k tail :: flines ++ mlines). split_and!.
    + rewrite /= Hm Henc /= Hmenc /=. f_equal.
      rewrite unlinesB_cons unlinesB_app keyLine_eq -!app_assoc /=.
      by rewrite -?app_assoc /= -?app_assoc.
    + apply Forall_cons. split; [|by apply Forall_app].
      apply keyLine_noLF; [done|]. exact (fieldShape_noLF _ _ _ _ _ Hshape).
    + destruct (fieldShape_keyLine _ _ _ _ _ _ Hshape Hkey) as (li & Hparse & Hkl & Hind).
      exact (startsWith_line isKeyLine _ _ _ _ Hparse Hkl Hind).
    + done.
    + intros c fuel acc rest drest Hc [Hfit1 [Hfit2 Hfit3]%Forall_app]%Forall_cons Hstop Hfuel.
      destruct fuel as [|fuel]; [simpl in Hfuel; lia|].
      simpl in Hfuel. rewrite length_app in Hfuel.
      destruct (stops_next _ _ _ _ _ _ Hmstart Hfit3 Hstop ltac:(lia)) as (d' & Hstop').
      rewrite -app_comm_cons -app_assoc.
      rewrite (field_step _ _ _ _ _ _ _ _ _ _ _ _ _ Hshape Hkey (findTarget_map _ _ _ _)
                 Hc Hfit1 Hfit2 Hstop'); [lia|].
      rewrite (Hmloop c fuel _ rest drest Hc Hfit3 Hstop); [lia|].
      by rewrite /insertAll /= Hm.
Qed.

Lemma insertAll_lookup (m : gmap bytes val) ks acc (k : bytes) :
  insertAll m ks acc !! k
  = match (if bool_decide (k ∈ ks) then m !! k else None) with
    | Some x => Some x
    | None => acc !! k
    end.
Proof.
  revert acc. induction ks as [|k0 ks IH]; intros acc.
  - by rewrite bool_decide_eq_false_2; [apply not_elem_of_nil|].
  - rewrite /insertAll /= -/(insertAll m ks _) IH.
    destruct (decide (k ∈ ks)) as [Hin|Hin].
    + rewrite !bool_decide_eq_true_2 //; [by right|].
      destruct (m !! k) eqn:Hk; [done|].
      destruct (m !! k0) eqn:Hk0; [|done].
      rewrite lookup_insert_ne; first [done|congruence].
    + rewrite (bool_decide_eq_false_2 (k ∈ ks)) //.
      destruct (decide (k = k0)) as [->|Hne].
      * rewrite bool_decide_eq_true_2; [by left|].
        destruct (m !! k0) eqn:Hk0; [by rewrite lookup_insert_eq|done].
      * rewrite bool_decide_eq_false_2; [by intros [?|?]%elem_of_cons|].
        destruct (m !! k0); [|done].
        rewrite lookup_insert_ne; first [done|congruence].
Qed.

Lemma insertAll_all m ks :
  (forall k, k ∈ ks <-> is_Some (m !! k)) -> insertAll m ks ∅ = m.
Proof.
  intros H. apply map_eq. intros k. rewrite insertAll_lookup lookup_empty.
  case_bool_decide as Hin.
  - by destruct (m !! k).
  - symmetry. apply eq_None_not_Some. by rewrite -H.
Qed.

Lemma MapKeys_elem (m : gmap bytes val) k : k ∈ MapKeys m <-> is_Some (m !! k).
Proof.
  rewrite (MapKeys_perm val m) list_elem_of_fmap. split.
  - intros ([k' x] & -> & Hin%elem_of_map_to_list). by exists x.
  - intros [x Hx]. exists (k, x). split; [done|]. by apply elem_of_map_to_list.
Qed.

Lemma map_codec e m i :
  0 <= i -> m <> ∅ ->
  map_Forall (fun k x => plainKey k /\ scalarOK e x) m ->
  fieldCodec (TMap TString e) (VMap (Some m)) i.
Proof.
  intros Hi Hne Hall.
  assert (Forall (fun k => exists x, m !! k = Some x /\ plainKey k /\ scalarOK e x)
            (MapKeys m)) as Hks.
  { apply Forall_forall. intros k [x Hx]%MapKeys_elem. exists x. split; [done|].
    exact (Hall k x Hx). }
  assert (MapKeys m <> []) as Hkne.
  { intros Hnil. apply Hne, map_eq. intros k. rewrite lookup_empty.
    apply eq_None_not_Some. rewrite -MapKeys_elem Hnil. apply not_elem_of_nil. }
  destruct (entries_codec e i m (MapKeys m) ltac:(lia) Hks)
    as (lines & Henc & Hlf & Hstart & Hlne & Hloop).
  exists [], lines. split_and!.
  - rewrite /encodeValue /encodeValueWith /=.
    rewrite bool_decide_eq_false_2; [by rewrite map_size_empty_iff|]. simpl.
    rewrite /encodeMapWith.
    change (encodeEntries _ m ?ks i) with (encodeEntries (encodeValue e) m ks i).
    destruct (MapKeys m) eqn:Hk; [done|]. by rewrite Henc.
  - done.
  - right. split; [by left|]. intros fuel rest drest Hfit Hstop Hfuel.
    destruct fuel as [|fuel]; [lia|].
    destruct (Hstart rest Hfit) as [Hnil|(li & d1 & Hp & Hk & Hind)]; [by apply Hlne in Hnil|].
    rewrite (decodeValue_object _ _ _ _ _ _ _ Hp) //.
    { rewrite Hind indentOf_succ //. lia. }
    rewrite /decodeObjectWith /= (objectLoop_peeked _ _ _ _ _ _ _ Hp).
    rewrite (Hloop (indentOf i) fuel ∅ rest drest) //.
    { rewrite indentOf_succ //. lia. }
    { lia. }
    simpl. by rewrite (insertAll_all _ _ (MapKeys_elem m)).
Qed.

End CollectionFacts.


(** ** Multi-line strings *)

Section MultiLine.

Lemma countIndent_spec s n :
  countIndent s = Some n ->
  0 <= n /\ exists rest, s = replicate (Z.to_nat n) " "%char ++ rest
                         /\ head rest <> Some " "%char.
Proof.
  revert n. induction s as [|r s IH]; intros n; simpl.
  - intros [= <-]. split; [done|]. by exists [].
  - destruct (Ascii.eqb_spec r " ") as [->|Hr].
    + destruct (countIndent s) as [m|]; [|done]. intros [= <-].
      destruct (IH m eq_refl) as (Hm & rest & -> & Hh).
      split; [lia|]. exists rest. split; [|done].
      by rewrite Z2Nat.inj_succ.
    + destruct (Ascii.eqb r "009"); [done|]. intros [= <-].
      split; [done|]. exists (r :: s). split; [done|]. simpl. congruence.
Qed.

(** The loops, unfolded by one turn. *)
Lemma setLoop_S (f : nat) (sv : val) (m : gmap bytes val) (c : Z) (d : Decoder) :
  setLoop (S f) sv m c d
  = ltac:(let body := eval cbn [setLoop] in (@setLoop RT (S f) sv m c d) in exact body).
Proof. reflexivity. Qed.

Lemma multiLineLoop_S (f : nat) (b : bytes) (base c : Z) (d : Decoder) :
  multiLineLoop (S f) b base c d
  = ltac:(let body := eval cbn [multiLineLoop] in (multiLineLoop (S f) b base c d) in
          exact body).
Proof. reflexivity. Qed.

Lemma decodeValue_S (f : nat) (t : gtype) (v : val) (c : Z) (d : Decoder) :
  decodeValue (S f) t v c d
  = ltac:(let body := eval cbn [decodeValue objectLoop sliceLoop] in
            (@decodeValue RT (S f) t v c d) in exact body).
Proof. reflexivity. Qed.

Lemma objectLoop_S (f : nat) (t : gtype) (v : val) (c : Z) (d : Decoder) :
  objectLoop (S f) t v c d
  = ltac:(let body := eval cbn [decodeValue objectLoop sliceLoop] in
            (@objectLoop RT (S f) t v c d) in exact body).
Proof. reflexivity. Qed.

Lemma sliceLoop_S (f : nat) (e : gtype) (acc : list val) (c : Z) (d : Decoder) :
  sliceLoop (S f) e acc c d
  = ltac:(let body := eval cbn [decodeValue objectLoop sliceLoop] in
            (@sliceLoop RT (S f) e acc c d) in exact body).
Proof. reflexivity. Qed.


Lemma Split_nonempty c s : Split c s <> [].
Proof.
  destruct s as [|x s]; [done|]. simpl.
  destruct (Ascii.eqb x c); [done|]. by destruct (Split c s).
Qed.

Lemma joinLF_cons l ls : ls <> [] -> joinLF (l :: ls) = l ++ LF :: joinLF ls.
Proof. by destruct ls. Qed.

Lemma joinLF_Split s : joinLF (Split LF s) = s.
Proof.
  induction s as [|x s IH]; [done|]. simpl.
  destruct (Ascii.eqb_spec x LF) as [->|Hx].
  - rewrite joinLF_cons; [apply Split_nonempty|]. by rewrite IH.
  - pose proof (Split_nonempty LF s) as Hne.
    destruct (Split LF s) as [|l ls]; [done|]. simpl in *. by rewrite -IH.
Qed.

Lemma Split_noLF s : Forall (fun l => LF ∉ l) (Split LF s).
Proof.
  induction s as [|x s IH]; simpl.
  - apply Forall_cons. split; [apply not_elem_of_nil|constructor].
  - destruct (Ascii.eqb_spec x LF) as [->|Hx].
    + apply Forall_cons. split; [apply not_elem_of_nil|done].
    + pose proof (Split_nonempty LF s) as Hne.
      destruct (Split LF s) as [|l ls]; [done|].
      apply Forall_cons in IH as [Hl Hls]. apply Forall_cons. split; [|done].
      rewrite not_elem_of_cons. split; [congruence|done].
Qed.

Lemma Split_head s l ls : Split LF s = l :: ls -> l <> [] -> head l = head s.
Proof.
  destruct s as [|x s]; simpl; [by intros [= <- <-]|].
  destruct (Ascii.eqb x LF); [by intros [= <- <-]|].
  destruct (Split LF s); by intros [= <- <-].
Qed.

Lemma countIndent_app_spaces n l k :
  countIndent l = Some k -> countIndent (replicate n " "%char ++ l) = Some (Z.of_nat n + k).
Proof.
  intros Hl. induction n as [|n IH]; [by rewrite Hl|].
  rewrite /= IH /=. f_equal. lia.
Qed.

Lemma HasPrefix_head x c p : HasPrefix x (c :: p) = true -> head x = Some c.
Proof.
  destruct x as [|a x]; [done|]. simpl.
  destruct (Ascii.eqb_spec c a) as [->|]; done.
Qed.

Lemma TrimSpace_spaces_app n l : TrimSpace (replicate n " "%char ++ l) = TrimSpace l.
Proof. by rewrite /TrimSpace TrimLeft_spaces. Qed.

Lemma dropCR_id_last l : last l <> Some "013"%char -> dropCR l = l.
Proof.
  rewrite /dropCR -head_reverse. destruct (reverse l) as [|c r]; [done|].
  simpl. intros Hc. destruct (Ascii.eqb_spec c "013") as [->|]; done.
Qed.

(** A line of text is classified as such, with the whole line as its
    value. *)
Lemma parseLine_text j l k :
  textLine l -> countIndent l = Some k ->
  parseLine (dropCR (indentStrOf j ++ l))
  = Ok (Some (mkLine (indentOf j + k) [] (indentStrOf j ++ l) lineMultiLine)).
Proof.
  intros (Hne & Hp & Hg & Hh & Hcr & _) Hk.
  assert (l <> []) as Hl by (by intros ->).
  rewrite dropCR_id_last.
  { rewrite last_app. by destruct (last l) eqn:E; [|apply last_None in E]. }
  rewrite /parseLine IndexByte_None.
  { rewrite not_elem_of_app. split; [by apply not_elem_of_spaces|done]. }
  rewrite /indentStrOf TrimSpace_spaces_app bool_decide_eq_false_2 //.
  rewrite (countIndent_app_spaces _ _ _ Hk).
  destruct (HasPrefix (TrimSpace l) (str "> (")) eqn:E1; [by apply HasPrefix_head in E1|].
  destruct (HasPrefix (TrimSpace l) (str ">|")) eqn:E2; [by apply HasPrefix_head in E2|].
  destruct (HasPrefix (TrimSpace l) (str ">")) eqn:E3; [by apply HasPrefix_head in E3|].
  destruct (HasPrefix (TrimSpace l) (str "(")) eqn:E4; [by apply HasPrefix_head in E4|].
  done.
Qed.

Lemma IndexByte_elem c s : c ∈ s -> is_Some (IndexByte c s).
Proof.
  induction s as [|x s IH]; [by intros ?%elem_of_nil|]. simpl.
  destruct (Ascii.eqb_spec x c) as [->|Hx]; [by eexists|].
  intros [?|Hin]%elem_of_cons; [congruence|].
  destruct (IH Hin) as [n ->]. by eexists.
Qed.

Lemma encodeString_multiline s i :
  multiLineText s ->
  encodeString s i false
  = Ok (LF :: unlinesB ((fun l => indentStrOf (i + 1) ++ l) <$> Split LF s)).
Proof.
  intros (Hlf & _ & Hall). rewrite /encodeString /ContainsByte.
  rewrite bool_decide_eq_true_2; [by apply IndexByte_elem|].
  rewrite /unlinesB -list_fmap_compose. simpl. do 3 f_equal.
  apply Forall_fmap_ext. eapply Forall_impl; [exact Hall|].
  intros l (_ & _ & _ & Hh & _). simpl.
  destruct (HasPrefix l ["#"%char]) eqn:E.
  - apply HasPrefix_head in E. destruct l as [|a l]; [done|].
    injection E as ->. exfalso. apply Hh. by left.
  - by rewrite -app_assoc.
Qed.

Lemma multiLineLoop_peeked fuel b base c d r d' :
  peek d = (Ok r, d') -> multiLineLoop fuel b base c d' = multiLineLoop fuel b base c d.
Proof.
  intros Hp. destruct fuel as [|fuel]; [done|].
  simpl. by rewrite Hp (peek_idemp _ _ _ Hp).
Qed.

Lemma drop_indent j l : drop (Z.to_nat (indentOf j)) (indentStrOf j ++ l) = l.
Proof.
  rewrite /indentOf Nat2Z.id /indentStrOf.
  apply drop_app_length'. by rewrite length_replicate.
Qed.

Lemma HasPrefix_indent j l :
  HasPrefix (indentStrOf j ++ l) (replicate (Z.to_nat (indentOf j)) " "%char) = true.
Proof. rewrite /indentOf Nat2Z.id. apply HasPrefix_app. Qed.

Lemma multiLineLoop_lines j c lines :
  Forall textLine lines -> c < indentOf j ->
  forall fuel b rest drest,
    allFit ((fun l => indentStrOf j ++ l) <$> lines) -> stops c rest drest ->
    (length lines + 1 <= fuel)%nat ->
    multiLineLoop fuel b (indentOf j) c
      (onLines (((fun l => indentStrOf j ++ l) <$> lines) ++ rest))
    = Ok (b ++ concat ((fun x => LF :: x) <$> lines), drest).
Proof.
  intros Hall Hc.
  induction Hall as [|l lines Hl _ IH]; intros fuel b rest drest Hfit Hstop Hf.
  - destruct fuel as [|fuel]; [simpl in Hf; lia|]. simpl.
    destruct Hstop as (r & -> & Hr). rewrite app_nil_r.
    destruct r as [li|]; [|done].
    specialize (Hr li eq_refl). by destruct (indent li <=? c) eqn:E; [|lia].
  - destruct fuel as [|fuel]; [simpl in Hf; lia|].
    apply Forall_cons in Hfit as [Hfit1 Hfit2].
    destruct (Hl) as (_ & _ & _ & _ & _ & [k Hk]).
    destruct (countIndent_spec _ _ Hk) as [Hk0 _].
    rewrite fmap_cons -app_comm_cons multiLineLoop_S.
    rewrite (peek_line _ _ _ Hfit1 (parseLine_text j l k Hl Hk)) /=.
    destruct (indentOf j + k <=? c) eqn:E; [lia|].
    pose proof (indentOf_nonneg j) as Hj.
    destruct (indentOf j =? -1) eqn:E2; [lia|].
    rewrite HasPrefix_indent drop_indent consume_peeked.
    rewrite (IH fuel _ rest drest Hfit2 Hstop); [simpl in Hf; lia|].
    by rewrite /= -!app_assoc.
Qed.

(** The lines [encodeString] writes for a multi-line string are read back
    to the string. *)
Lemma multiline_decodes s i old c :
  multiLineText s -> c < indentOf (i + 1) ->
  decodesLines TString old (VString s) c
    ((fun l => indentStrOf (i + 1) ++ l) <$> Split LF s).
Proof.
  intros (Hlf & Hhead & Hall) Hc fuel rest drest Hfit Hstop Hf.
  pose proof (Split_nonempty LF s) as Hne.
  pose proof (joinLF_Split s) as Hjoin.
  destruct (Split LF s) as [|l1 ls] eqn:Hsplit; [done|].
  apply Forall_cons in Hall as [Hl1 Hls].
  assert (l1 <> []) as Hl1ne by (destruct Hl1 as [H _]; by intros ->).
  assert (countIndent l1 = Some 0) as Hk.
  { destruct Hl1 as (_ & _ & _ & _ & _ & [k Hk]).
    rewrite -(Split_head _ _ _ Hsplit Hl1ne) in Hhead.
    destruct l1 as [|a l1]; [done|]. simpl in *.
    destruct (Ascii.eqb_spec a " ") as [->|_]; [done|].
    by destruct (Ascii.eqb a "009"). }
  apply Forall_cons in Hfit as [Hfit1 Hfit2].
  destruct fuel as [|fuel]; [simpl in Hf; lia|].
  pose proof (peek_line _ (((fun l => indentStrOf (i + 1) ++ l) <$> ls) ++ rest) _ Hfit1
                (parseLine_text (i + 1) l1 0 Hl1 Hk)) as Hpeek.
  rewrite fmap_cons -app_comm_cons decodeValue_S Hpeek /=.
  destruct (indentOf (i + 1) + 0 <=? c) eqn:E; [lia|].
  rewrite /decodeMultiLineString /=.
  rewrite (multiLineLoop_peeked _ _ _ _ _ _ _ Hpeek).
  destruct fuel as [|fuel]; [simpl in Hf; lia|].
  rewrite multiLineLoop_S Hpeek /=.
  rewrite E Z.add_0_r.
  assert (indentOf (i + 1) <? Z.of_nat (length (indentStrOf (i + 1) ++ l1)) = true) as ->.
  { apply Z.ltb_lt. rewrite length_app /indentStrOf length_replicate /indentOf.
    destruct l1; [done|]. simpl. lia. }
  rewrite drop_indent consume_peeked.
  rewrite (multiLineLoop_lines (i + 1) c ls Hls Hc fuel l1 rest drest Hfit2 Hstop).
  { rewrite /= ?length_fmap in Hf. lia. }
  by rewrite /= -Hjoin.
Qed.

Lemma multiline_codec s i : multiLineText s -> 0 <= i -> fieldCodec TString (VString s) i.
Proof.
  intros Hs Hi. exists [], ((fun l => indentStrOf (i + 1) ++ l) <$> Split LF s).
  split_and!.
  - rewrite /encodeValue /encodeValueWith /=. by apply encodeString_multiline.
  - apply Forall_fmap. eapply Forall_impl; [apply Split_noLF|].
    intros l Hl. simpl. rewrite not_elem_of_app. split; [by apply not_elem_of_spaces|done].
  - right. split; [by left|]. apply multiline_decodes; [done|].
    rewrite indentOf_succ //. lia.
Qed.

(** X3: a multi-line string behind a key: when every line of the string is a
    line of text and the string does not start with a space, the lines
    [encodeString] writes, one level deeper than the key, are decoded to the
    string again, leading and trailing spaces of the lines included,
    whatever the destination held. *)
Theorem multiline_string_roundtrip s i old fuel rest drest :
  multiLineText s -> 0 <= i ->
  let lines := (fun l => indentStrOf (i + 1) ++ l) <$> Split LF s in
  allFit lines -> stops (indentOf i) rest drest ->
  (2 * length lines + 2 <= fuel)%nat ->
  encodeValue TString (VString s) i false = Ok (LF :: unlinesB lines)
  /\ decodeValue fuel TString (VString old) (indentOf i) (onLines (lines ++ rest))
     = Ok (VString s, drest).
Proof.
  intros Hs Hi lines Hfit Hstop Hf. split.
  - rewrite /encodeValue /encodeValueWith /=. by apply encodeString_multiline.
  - apply multiline_decodes; try done. rewrite indentOf_succ //. lia.
Qed.

End MultiLine.

(** ** Round trip: all values of the class *)

Section RoundTrip.

(** Induction over type descriptors, with the fields of a struct. *)
Lemma gtype_nested_ind (P : gtype -> Prop) :
  P TBool -> (forall k, P (TInt k)) -> (forall k, P (TUint k)) -> (forall k, P (TFloat k)) ->
  P TString -> P TTime ->
  (forall name fields, Forall (fun f => P f.2) fields -> P (TStruct name fields)) ->
  (forall e, P e -> P (TPtr e)) ->
  (forall e, P e -> P (TSlice e)) ->
  (forall n e, P e -> P (TArray n e)) ->
  (forall k e, P k -> P e -> P (TMap k e)) ->
  P TInterface -> (forall n, P (TOther n)) ->
  forall t, P t.
Proof.
  intros HBool HInt HUint HFloat HString HTime HStruct HPtr HSlice HArray HMap HInterface HOther.
  exact (fix IH (t : gtype) : P t :=
           match t with
           | TBool => HBool
           | TInt k => HInt k
           | TUint k => HUint k
           | TFloat k => HFloat k
           | TString => HString
           | TTime => HTime
           | TStruct name fields =>
               HStruct name fields
                 ((fix go (fs : list (fieldInfo * gtype)) : Forall (fun f => P f.2) fs :=
                     match fs with
                     | [] => Forall_nil_2 _
                     | f :: fs' => Forall_cons_2 _ _ _ (IH f.2) (go fs')
                     end) fields)
           | TPtr e => HPtr e (IH e)
           | TSlice e => HSlice e (IH e)
           | TArray n e => HArray n e (IH e)
           | TMap k e => HMap k e (IH k) (IH e)
           | TInterface => HInterface
           | TOther n => HOther n
           end).
Qed.

(** What is proved of every type: a value of the class behind a key is
    written in lines that decode to it, and the fields of a record of the
    class are written in lines the loop of [decodeObject] reads back. *)
Lemma codec_main t :
  (forall v i, 0 <= i -> valueOK t v -> fieldCodec t v i)
  /\ (forall name fs vs j, t = TStruct name fs -> -1 <= j ->
        valueOK t (VStruct vs) -> structCodec t [] fs vs j).
Proof.
  induction t as [| | | | | |name fields IH|e IH|e IH|n e IH|k e _ IH| |]
    using gtype_nested_ind;
    try (split; [intros v i Hi Hok; by apply scalar_codec|done]).
  (* scalars are done, and so are the types outside the class *)
  - (* strings *)
    split; [|done]. intros v i Hi [Hok|(s & -> & Hs)];
      [by apply scalar_codec|by apply multiline_codec].
  - (* records *)
    assert (forall vs j, -1 <= j -> valueOK (TStruct name fields) (VStruct vs) ->
              structCodec (TStruct name fields) [] fields vs j) as Hstruct.
    { intros vs j Hj [Hf Hr]%valueOK_struct.
      apply (struct_codec name fields j Hj) with (prefs := []); try done.
      eapply Forall_impl; [exact IH|]. by intros f [H _]. }
    split; [|by intros ? ? ? ? [= <- <-]; apply Hstruct].
    intros v i Hi Hok. destruct v as [| | | | | |vs| | | | | |]; try done.
    destruct (struct_decodes name fields vs i (TStruct name fields)
                (Zero (TStruct name fields)) (fun y => y)
                (Hstruct vs i ltac:(lia) Hok) eq_refl eq_refl)
      as (lines & Henc & Hlf & _ & Hdec).
    exists [], lines. split_and!; [|done|].
    + rewrite encodeValue_struct Henc /=. by destruct (-1 <? i) eqn:E; [|lia].
    + right. split; [by left|]. apply Hdec. rewrite indentOf_succ //. lia.
  - (* lists *)
    split; [|done]. intros v i Hi Hok.
    destruct v as [| | | | | | | |[l|]| | | |]; try done; [|by apply (nil_codec (TSlice e))].
    destruct Hok as [Hne Hok].
    assert (match e with TPtr _ => False | _ => True end) as Hnp.
    { destruct e; try done. by destruct Hok. }
    assert (Forall (fun x => exists lines,
                      (if bool_decide (Kind e = KStruct) then encodeValue e x (i + 1) true
                       else writePrimitiveArrayItem e x (indentStrOf (i + 1)))
                      = Ok (unlinesB lines)
                      /\ itemCodec e x (i + 1) lines) l) as Hitems.
    { destruct e as [| | | | | |name fs| | | | | |];
        try (destruct Hok as [Hs Hall]; eapply Forall_impl; [exact Hall|];
             intros x Hx; destruct (item_scalar _ x (i + 1) Hs Hx) as (s & ? & ?);
             eexists; split; eassumption).
      destruct Hok as (Hhash & Hlf & Hall). eapply Forall_impl; [exact Hall|].
      intros x Hx. destruct x as [| | | | | |vs| | | | | |]; try done.
      rewrite bool_decide_eq_true_2 //.
      exact (item_struct name fs vs (i + 1) ltac:(lia) Hhash Hlf
               (proj2 IH name fs vs (i + 1 + 1) eq_refl ltac:(lia) Hx)). }
    destruct (items_codec e (i + 1) _ l Hitems) as (lines & Henc & Hlf & Hstart & Hlne & Hloop).
    apply (slice_codec e l i lines); try done; [|by apply Hlne].
    by rewrite encodeSlice_items.
  - (* maps *)
    split; [|done]. intros v i Hi (-> & Hs & Hok).
    destruct v as [| | | | | | | | | |[m|]| |]; try done;
      [|by apply (nil_codec (TMap TString e))].
    destruct Hok as [Hne Hall]. by apply map_codec.
Qed.

(** Building blocks to show that a value is of the class. *)
Lemma valueOK_map e m :
  isScalarType e = true -> m <> ∅ ->
  map_Forall (fun k x => plainKey k /\ scalarOK e x) m ->
  valueOK (TMap TString e) (VMap (Some m)).
Proof. by intros; split_and!. Qed.

Lemma valueOK_scalars e l :
  isScalarType e = true -> l <> [] -> Forall (itemOK e) l ->
  valueOK (TSlice e) (VSlice (Some l)).
Proof. intros He Hl Hall. split; [done|]. by destruct e. Qed.

Lemma valueOK_records name fs l :
  "#"%char ∉ name -> LF ∉ name -> l <> [] ->
  Forall (valueOK (TStruct name fs)) l ->
  valueOK (TSlice (TStruct name fs)) (VSlice (Some l)).
Proof. by intros; split_and!. Qed.

Lemma roundtrip_core name fields vs :
  valueOK (TStruct name fields) (VStruct vs) ->
  exists out,
    Marshal (TStruct name fields) (VStruct vs) = Ok out
    /\ Marshal (TPtr (TStruct name fields)) (VPtr (Some (VStruct vs))) = Ok out
    /\ (allFit (pieces out) ->
        Unmarshal out (TPtr (TStruct name fields))
          (VPtr (Some (Zero (TStruct name fields))))
        = Ok (VPtr (Some (VStruct vs)))).
Proof.
  intros Hok.
  pose proof (proj2 (codec_main (TStruct name fields)) name fields vs (-1) eq_refl
                ltac:(lia) Hok) as Hcodec.
  destruct (struct_decodes name fields vs (-1) (TPtr (TStruct name fields))
              (VPtr (Some (Zero (TStruct name fields)))) (fun y => VPtr (Some y))
              Hcodec eq_refl eq_refl)
    as (lines & Henc & Hlf & _ & Hdec).
  exists (unlinesB lines). split_and!.
  - by rewrite /Marshal /Encode encodeValue_struct Henc.
  - rewrite /Marshal /Encode /encodeValue /encodeValueWith /=.
    change (encodeStructWith _ fields vs (-1)) with (encodeStruct fields vs (-1)).
    by rewrite Henc.
  - rewrite /Unmarshal /NewDecoder /NewScanner /Decode pieces_unlinesB //.
    intros Hfit. change (mkDecoder (Scanning lines) None) with (onLines lines).
    rewrite -{2}(app_nil_r lines).
    rewrite (Hdec (-1) _ _ [] (onLines []) Hfit) //.
    + by exists None.
    + rewrite /pending /=. lia.
Qed.

(** X1: round trip on the class [valueOK].  A record is in the class when
    each field excluded by its tag holds its zero value, and each other
    field has a key without closing parenthesis, comment sign or line feed
    that [findStructField] resolves to this field, and a value that is: a
    number within the range of its type, a boolean, a float or timestamp
    whose text is plain and parses back to it; a string that is empty or
    plain; as the value of a field only, a multi-line string ([multiLineText]:
    no blank line, no comment sign, no line that looks like a key or an
    item); a record of the class; a list, nil or not empty, of such records
    or of one-line scalars whose text does not start with an opening
    parenthesis; a map, nil or not empty, from such keys to one-line scalars.
    There are no pointers in the class.  Such a record is encoded without
    error, directly or behind a pointer, and, when no line of the output
    reaches the scanner's limit of 64 KiB, decoding the output into a
    pointer to a zero record gives the record back. *)
Theorem Marshal_Unmarshal_roundtrip name fields vs :
  valueOK (TStruct name fields) (VStruct vs) ->
  exists out,
    Marshal (TStruct name fields) (VStruct vs) = Ok out
    /\ Marshal (TPtr (TStruct name fields)) (VPtr (Some (VStruct vs))) = Ok out
    /\ (allFit (pieces out) ->
        Unmarshal out (TPtr (TStruct name fields))
          (VPtr (Some (Zero (TStruct name fields))))
        = Ok (VPtr (Some (VStruct vs)))).
Proof. apply roundtrip_core. Qed.

(** X2: on the records of the class the encoding is injective: two records
    of one type with the same output, no line of which reaches the scanner's
    limit, are equal. *)
Theorem Marshal_injective name fields vs1 vs2 out :
  valueOK (TStruct name fields) (VStruct vs1) ->
  valueOK (TStruct name fields) (VStruct vs2) ->
  Marshal (TStruct name fields) (VStruct vs1) = Ok out ->
  Marshal (TStruct name fields) (VStruct vs2) = Ok out ->
  allFit (pieces out) ->
  vs1 = vs2.
Proof.
  intros H1 H2 Hm1 Hm2 Hfit.
  destruct (roundtrip_core _ _ _ H1) as (out1 & Ho1 & _ & Hu1).
  destruct (roundtrip_core _ _ _ H2) as (out2 & Ho2 & _ & Hu2).
  rewrite Hm1 in Ho1. rewrite Hm2 in Ho2. simplify_eq.
  specialize (Hu1 Hfit). specialize (Hu2 Hfit). congruence.
Qed.

End RoundTrip.

(** ** Further properties: the classifier on written lines *)

(** X4: the lines the encoder writes are classified as what they were written
    for: a key with a value, a key alone, a list item and the header of a
    record in a list, each with the indentation of its level (two spaces
    per level), the key and the value. *)
Theorem written_lines_classified i k s name :
  plainKey k -> lineText s -> head s <> Some "("%char -> "#"%char ∉ name ->
  parseLine (keyLine i k (" "%char :: s)) = Ok (Some (mkLine (indentOf i) k s lineKeyValue))
  /\ parseLine (keyLine i k []) = Ok (Some (mkLine (indentOf i) k [] lineKeyOnly))
  /\ parseLine (itemText i s) = Ok (Some (mkLine (indentOf i) [] s lineArrayItem))
  /\ parseLine (indentStrOf i ++ str "> (" ++ name ++ str ")")
     = Ok (Some (mkLine (indentOf i) [] [] lineArrayObject)).
Proof.
  intros Hk Hs Hh Hn. split_and!.
  - by apply parseLine_keyValue.
  - apply parseLine_keyOnly; [done|by left].
  - by apply parseLine_item.
  - by apply parseLine_header.
Qed.

(** ** Further properties: scalars *)

(** X5: the decimal text of a number within the range of its type, and the
    text of a boolean, are assigned back to the same value, whatever the
    slot held; through a pointer slot the value is stored behind a pointer,
    allocated if the slot was nil, and the literal nil sets the pointer to
    nil. *)
Theorem scalars_assigned_back :
  (forall k i old, OverflowInt k i = false ->
      setPrimitive (TInt k) old (FormatInt i) = Ok (VInt i))
  /\ (forall k u old, 0 <= u -> OverflowUint k u = false ->
      setPrimitive (TUint k) old (FormatUint u) = Ok (VUint u))
  /\ (forall b old, setPrimitive TBool old (FormatBool b) = Ok (VBool b))
  /\ (forall t v valueStr,
      setPrimitive (TPtr t) v valueStr
      = if bool_decide (valueStr = str "nil") then Ok (VPtr None)
        else match setPrimitive t (match v with VPtr (Some x) => x | _ => Zero t end)
                     valueStr with
             | Ok x => Ok (VPtr (Some x))
             | Err e => Err e
             end).
Proof.
  split_and!.
  - intros k i old Ho.
    destruct (scalar_text (TInt k) (VInt i) Ho) as (s & [= <-] & [(_ & _ & [=])|[_ H]]).
    apply H.
  - intros k u old H0 Ho.
    destruct (scalar_text (TUint k) (VUint u) (conj H0 Ho))
      as (s & [= <-] & [(_ & _ & [=])|[_ H]]).
    apply H.
  - intros b old.
    destruct (scalar_text TBool (VBool b) I) as (s & [= <-] & [(_ & _ & [=])|[_ H]]).
    apply H.
  - intros t v valueStr. rewrite /setPrimitive. case_bool_decide; [done|].
    simpl. destruct v as [| | | | | | |[x|]| | | | |]; simpl;
      first [ destruct (indirect t x true) as [[t' x'] k]
            | destruct (indirect t (Zero t) true) as [[t' x'] k] ];
      by destruct (setKind t' valueStr).
Qed.

(** ** Further properties: key resolution *)

Lemma findFrom_None key fs i :
  findFrom key fs i = None -> Forall (fun g => fieldMatches key g = false) fs.
Proof.
  revert i. induction fs as [|[fieldT ft] fs IH]; intros i; [constructor|].
  simpl. intros H. apply Forall_cons.
  rewrite /fieldMatches /matchesDirect /searchEmbedded /=.
  destruct (bool_decide (Tag fieldT = key)); [done|].
  destruct (bool_decide (Tag fieldT = []) && bool_decide (ToLower (Name fieldT) = key));
    [done|].
  destruct (if Anonymous fieldT then _ else _) eqn:He; [done|].
  split; [done|exact (IH _ H)].
Qed.

(** X6: a key is unknown to a record exactly when no field answers it: not by
    its tag, not untagged by its lowercased name, and not from inside an
    embedded struct. *)
Theorem findStructField_None_iff name fields key :
  findStructField (TStruct name fields) key = None
  <-> Forall (fun g => fieldMatches key g = false) fields.
Proof.
  rewrite findStructField_unfold. split; [apply findFrom_None|].
  intros H. by rewrite -(app_nil_r fields) findFrom_skip.
Qed.

(** ** Further properties: the encoder *)

(** X7: the value of a field excluded by its tag has no influence on what
    [encodeStruct] writes. *)
Theorem encodeStruct_excluded_value_irrelevant pre f post xs x y zs i :
  Tag f.1 = str "-" -> length xs = length pre ->
  encodeStruct (pre ++ f :: post) (xs ++ x :: zs) i
  = encodeStruct (pre ++ f :: post) (xs ++ y :: zs) i.
Proof.
  intros Ht. revert xs. induction pre as [|g pre IH]; intros [|x0 xs] Hl; try done.
  - by rewrite /= !encodeStruct_skip.
  - simpl in Hl. injection Hl as Hl. specialize (IH xs Hl).
    destruct (decide (Tag g.1 = str "-")) as [Hg|Hg].
    + by rewrite /= !encodeStruct_skip.
    + by rewrite /= !encodeStruct_cons // IH.
Qed.

(** X8: in a list of pointers a nil pointer is skipped without a trace when
    the pointers lead to records (or timestamps), and makes the encoding
    fail when they lead to anything else. *)
Theorem encodeSlice_nil_element :
  (forall e l i, Kind e = KStruct ->
      encodeSlice (TPtr e) (VPtr None :: l) i = encodeSlice (TPtr e) l i)
  /\ (forall e l i, Kind e <> KStruct ->
      encodeSlice (TPtr e) (VPtr None :: l) i = Err (ErrUnsupportedType KInvalid)).
Proof.
  split; intros e l i He; rewrite /encodeSlice /encodeSliceWith.
  - rewrite bool_decide_eq_true_2 //=.
    by destruct (encodeItems _ l) as [out|].
  - by rewrite bool_decide_eq_false_2.
Qed.

(** ** Further properties: blank lines, comments and the scanner's limit *)

Lemma TrimLeft_spaces1 ws : Forall (fun a => isSpace1 a = true) ws -> TrimLeft ws = [].
Proof. induction 1 as [|a ws Ha _ IH]; [done|]. simpl. by rewrite Ha. Qed.

Lemma TrimSpace_spaces1 ws : Forall (fun a => isSpace1 a = true) ws -> TrimSpace ws = [].
Proof. intros H. by rewrite /TrimSpace (TrimLeft_spaces1 _ H). Qed.

Lemma dropCR_cases p : dropCR p = p \/ p = dropCR p ++ ["013"%char].
Proof.
  rewrite /dropCR. destruct (reverse p) as [|c r] eqn:Hr; [by left|].
  destruct (Ascii.eqb_spec c "013") as [->|_]; [right|by left].
  apply (f_equal reverse) in Hr. by rewrite reverse_involutive reverse_cons in Hr.
Qed.

Lemma blank_parse p : blankOrComment p -> parseLine (dropCR p) = Ok None.
Proof.
  intros (ws & rest & Hws & Hp).
  assert (exists ws' rest', Forall (fun a => isSpace1 a = true) ws'
            /\ (dropCR p = ws' \/ dropCR p = ws' ++ "#"%char :: rest'))
    as (ws' & rest' & Hws' & Hd).
  { destruct (dropCR_cases p) as [->|Hcr]; [by exists ws, rest|].
    generalize dependent (dropCR p). intros q Hcr.
    destruct Hp as [->|Hp].
    - exists q, []. split; [|by left].
      rewrite Hcr in Hws. by apply Forall_app in Hws as [? _].
    - destruct rest as [|b rest _] using rev_ind.
      + rewrite Hcr in Hp. apply (f_equal last) in Hp. rewrite !last_snoc in Hp.
        by simplify_eq.
      + exists ws, rest. split; [done|]. right.
        rewrite Hcr (app_assoc ws ["#"%char] (rest ++ [b])) (app_assoc _ rest [b]) in Hp.
        apply app_inj_tail in Hp as [Hp _].
        by rewrite Hp -app_assoc. }
  assert ("#"%char ∉ ws') as Hh.
  { intros Hin. rewrite Forall_forall in Hws'. by specialize (Hws' _ Hin). }
  rewrite /parseLine. destruct Hd as [-> | ->].
  - by rewrite IndexByte_None // TrimSpace_spaces1.
  - by rewrite IndexByte_app // take_app_length TrimSpace_spaces1.
Qed.

Lemma peek_skipped pre rest :
  Forall skipped pre -> peek (onLines (pre ++ rest)) = peek (onLines rest).
Proof.
  induction 1 as [|p pre [Hfit Hb] _ IH]; [done|].
  rewrite -IH. exact (peek_blank p (pre ++ rest) Hfit (blank_parse _ Hb)).
Qed.

(** X9: a document of nothing but blank lines and comments (the empty document
    included) is decoded without error and leaves the destination as it
    was. *)
Theorem Unmarshal_blank_document data t v :
  Forall skipped (pieces data) ->
  Unmarshal data (TPtr t) (VPtr (Some v)) = Ok (VPtr (Some v)).
Proof.
  intros H. rewrite /Unmarshal /NewDecoder /NewScanner /Decode.
  change (mkDecoder (Scanning (pieces data)) None) with (onLines (pieces data)).
  generalize (pending (onLines (pieces data))). intros n.
  assert ((2 * n + 2)%nat = S (2 * n + 1)) as -> by lia. simpl.
  by rewrite -(app_nil_r (pieces data)) (peek_skipped _ _ H) peek_eof.
Qed.

(** X10: the first line that is neither blank nor a comment makes decoding fail
    with the scanner's error when it has 65536 bytes or more, whatever the
    destination. *)
Theorem Unmarshal_line_too_long data pre p ps t v :
  pieces data = pre ++ p :: ps -> Forall skipped pre -> fits p = false ->
  Unmarshal data (TPtr t) (VPtr (Some v)) = Err ErrTooLong.
Proof.
  intros Hd Hpre Hp. rewrite /Unmarshal /NewDecoder /NewScanner /Decode Hd.
  change (mkDecoder (Scanning (pre ++ p :: ps)) None) with (onLines (pre ++ p :: ps)).
  generalize (pending (onLines (pre ++ p :: ps))). intros n.
  assert ((2 * n + 2)%nat = S (2 * n + 1)) as -> by lia. simpl.
  rewrite (peek_skipped _ _ Hpre) /peek /=. by rewrite Hp.
Qed.

(** ** Further properties: what a block can be decoded into *)

Lemma indirect_force_kind t v :
  let '(t', _, _) := indirect t v true in t' = derefType t.
Proof.
  pose proof (indirect_force_type t v) as H.
  by destruct (indirect t v true) as [[t' v'] k].
Qed.

(** X11: the first line of a block decides how the block is decoded, and the
    destination must fit: key lines need a record or a map behind the
    pointers, text lines a string; list items need a list that is no nil
    pointer, set items a map that is no nil pointer. *)
Theorem block_kind_mismatch fuel t v c d li d1 :
  peek d = (Ok (Some li), d1) -> c < indent li ->
  (isKeyLine (lineTypeOf li) = true ->
     Kind (derefType t) <> KStruct -> Kind (derefType t) <> KMap ->
     decodeValue (S fuel) t v c d = Err (ErrObjectInto (Kind (derefType t))))
  /\ (lineTypeOf li = lineMultiLine -> derefType t <> TString ->
     decodeValue (S fuel) t v c d = Err (ErrMultiLineInto (Kind (derefType t))))
  /\ (isItemLine (lineTypeOf li) = true ->
     match t with TPtr _ => v = VPtr None | TSlice _ => False | _ => True end ->
     decodeValue (S fuel) t v c d = Err (ErrArrayInto (Kind t)))
  /\ (lineTypeOf li = lineSetItem ->
     match t with TPtr _ => v = VPtr None | TMap _ _ => False | _ => True end ->
     decodeValue (S fuel) t v c d = Err ErrSetTarget).
Proof.
  intros Hp Hc. split_and!.
  - intros Hk H1 H2. rewrite (decodeValue_object _ _ _ _ _ _ _ Hp Hc Hk) /decodeObjectWith.
    pose proof (indirect_force_kind t v) as Hi.
    destruct (indirect t v true) as [[t' v'] k]. subst t'.
    by destruct (Kind (derefType t)).
  - intros Hm Hs. simpl. rewrite Hp.
    destruct (indent li <=? c) eqn:E; [lia|]. rewrite Hm /decodeMultiLineString.
    pose proof (indirect_force_kind t v) as Hi.
    destruct (indirect t v true) as [[t' v'] k]. subst t'.
    by destruct (derefType t).
  - intros Hk Ht. rewrite (decodeValue_slice _ _ _ _ _ _ _ Hp Hc Hk) /decodeSliceWith.
    destruct t; try done. by subst v.
  - intros Hs Ht. simpl. rewrite Hp.
    destruct (indent li <=? c) eqn:E; [lia|]. rewrite Hs /decodeSet.
    destruct t; try done. by subst v.
Qed.

(** ** Further properties: the classifier *)

Lemma countIndent_None s : countIndent s = None -> "009"%char ∈ s.
Proof.
  induction s as [|r s IH]; [done|]. simpl.
  destruct (Ascii.eqb_spec r " ") as [->|Hr].
  - destruct (countIndent s); [done|]. intros _. right. by apply IH.
  - destruct (Ascii.eqb_spec r "009") as [->|]; [|done]. intros _. by left.
Qed.

Lemma stripComment_prefix l :
  exists tl, l = match IndexByte "#" l with Some i => take i l | None => l end ++ tl.
Proof.
  destruct (IndexByte "#" l) as [i|].
  - exists (drop i l). by rewrite take_drop.
  - exists []. by rewrite app_nil_r.
Qed.

Lemma TrimSpace_subseteq s : TrimSpace s ⊆ s.
Proof.
  rewrite /TrimSpace. destruct (TrimRight_prefix (TrimLeft s)) as [n ->].
  destruct (TrimLeft_suffix s) as [k ->].
  etrans; [apply subseteq_take|apply subseteq_drop].
Qed.

(** X12: the indentation of a classified line is the number of spaces the line
    starts with: the line is that many spaces followed by a text that is not
    empty and does not start with a space. *)
Theorem parseLine_indent l li :
  parseLine l = Ok (Some li) ->
  0 <= indent li
  /\ exists rest, l = replicate (Z.to_nat (indent li)) " "%char ++ rest
                  /\ rest <> [] /\ head rest <> Some " "%char.
Proof.
  rewrite /parseLine. destruct (stripComment_prefix l) as [tl Hl].
  set (clean := match IndexByte "#" l with Some i => take i l | None => l end) in *.
  case_bool_decide as Hblank; [done|].
  destruct (countIndent clean) as [n|] eqn:Hn; [|done].
  destruct (countIndent_spec _ _ Hn) as (H0 & rest & Hclean & Hh).
  assert (rest <> []) as Hne.
  { intros ->. apply Hblank. rewrite Hclean app_nil_r. apply TrimSpace_spaces1.
    apply Forall_forall. by intros a [-> _]%elem_of_replicate. }
  intros Hp.
  assert (indent li = n) as ->.
  { repeat case_match; by simplify_eq. }
  split; [done|]. exists (rest ++ tl). split_and!.
  - by rewrite app_assoc -Hclean.
  - by destruct rest.
  - by destruct rest.
Qed.

(** X13: the classifier has two errors: a tab in the line, and an opening
    parenthesis in the line; a line with neither is always accepted. *)
Theorem parseLine_error_causes l e :
  parseLine l = Err e ->
  (e = ErrSyntaxTabs l /\ "009"%char ∈ l)
  \/ (e = ErrSyntaxMissingParen l /\ "("%char ∈ l).
Proof.
  rewrite /parseLine. destruct (stripComment_prefix l) as [tl Hl].
  set (clean := match IndexByte "#" l with Some i => take i l | None => l end) in *.
  case_bool_decide as Hblank; [done|].
  destruct (countIndent clean) as [n|] eqn:Hn.
  - destruct (HasPrefix (TrimSpace clean) (str "> (")); [done|].
    destruct (HasPrefix (TrimSpace clean) (str ">|")); [done|].
    destruct (HasPrefix (TrimSpace clean) (str ">")); [done|].
    destruct (HasPrefix (TrimSpace clean) (str "(")) eqn:Hpre; [|done].
    destruct (IndexByte ")" (TrimSpace clean)); [by case_bool_decide|].
    intros [= <-]. right. split; [done|].
    rewrite Hl. apply elem_of_app. left. apply TrimSpace_subseteq.
    destruct (TrimSpace clean) as [|a x]; [done|].
    change (Ascii.eqb "(" a && HasPrefix x [] = true) in Hpre.
    destruct (Ascii.eqb_spec "(" a) as [<-|]; [by left|done].
  - intros [= <-]. left. split; [done|].
    rewrite Hl. apply elem_of_app. left. by apply countIndent_None.
Qed.

(** ** Further properties: termination and the unreachable branches *)

Lemma parseLine_not_blank l li : parseLine l = Ok (Some li) -> lineTypeOf li <> lineBlank.
Proof. rewrite /parseLine. intros H. repeat case_match; by simplify_eq. Qed.

Lemma parseLine_err l e : parseLine l = Err e -> internalError e = false.
Proof. rewrite /parseLine. intros H. repeat case_match; by simplify_eq. Qed.

Lemma scanLoop_spec n sc r sc' :
  (remaining sc <= n)%nat -> scanLoop n sc = (r, sc') ->
  (remaining sc' <= remaining sc)%nat
  /\ (forall li, r = Ok (Some li) ->
        lineTypeOf li <> lineBlank /\ (remaining sc' < remaining sc)%nat)
  /\ (forall e, r = Err e -> internalError e = false).
Proof.
  revert sc. induction n as [|n IH]; intros sc Hn; simpl;
    destruct sc as [[|p ps]|buf|]; simpl in *; try lia;
    try (intros [= <- <-]; split_and!; [simpl; lia|done|by intros ? [= <-]]).
  - destruct (fits p).
    + destruct (parseLine (dropCR p)) as [[li|]|e] eqn:Hp.
      * intros [= <- <-]. split_and!; [simpl; lia| |done].
        intros ? [= <-]. split; [exact (parseLine_not_blank _ _ Hp)|simpl; lia].
      * intros H. destruct (IH (Scanning ps) ltac:(simpl; lia) H) as (H1 & H2 & H3).
        split_and!; [simpl in *; lia| |done].
        intros li Hli. destruct (H2 li Hli). split; [done|simpl in *; lia].
      * intros [= <- <-]. split_and!; [simpl; lia|done|].
        intros ? [= <-]. exact (parseLine_err _ _ Hp).
    + intros [= <- <-]. split_and!; [simpl; lia|done|by intros ? [= <-]].
  - destruct (parseLine (dropCR buf)) as [[li|]|e] eqn:Hp.
    + intros [= <- <-]. split_and!; [simpl; lia| |done].
      intros ? [= <-]. split; [exact (parseLine_not_blank _ _ Hp)|simpl; lia].
    + destruct n; simpl; intros [= <- <-];
        (split_and!; [simpl; lia|done|by intros ? [= <-]]).
    + intros [= <- <-]. split_and!; [simpl; lia|done|].
      intros ? [= <-]. exact (parseLine_err _ _ Hp).
Qed.

Lemma peek_spec d r d' :
  wfDecoder d -> peek d = (r, d') ->
  wfDecoder d'
  /\ (pending d' <= pending d)%nat
  /\ (forall li, r = Ok (Some li) -> peekBuf d' = Some li)
  /\ (forall e, r = Err e -> internalError e = false).
Proof.
  intros Hwf. rewrite /peek. destruct d as [sc [li|]]; simpl.
  { intros [= <- <-]. split_and!; try done. by intros ? [= <-]. }
  destruct (scanLoop (remaining sc) sc) as [r0 sc'] eqn:Hs.
  destruct (scanLoop_spec _ _ _ _ (le_n _) Hs) as (H1 & H2 & H3).
  destruct r0 as [[li|]|e]; intros [= <- <-].
  - destruct (H2 li eq_refl) as [Hnb Hlt]. split_and!; try done.
    + by intros ? [= <-].
    + rewrite /pending /=. lia.
    + by intros ? [= <-].
  - split_and!; try done. rewrite /pending /=. lia.
  - split_and!; try done. rewrite /pending /=. lia.
Qed.

Lemma consume_spec d li :
  peekBuf d = Some li -> wfDecoder (consume d) /\ (pending (consume d) + 1 = pending d)%nat.
Proof. intros H. split; [done|]. rewrite /pending /consume /= H. lia. Qed.

Lemma consumeChildrenLoop_spec n c d :
  wfDecoder d ->
  wfDecoder (consumeChildrenLoop n c d)
  /\ (pending (consumeChildrenLoop n c d) <= pending d)%nat.
Proof.
  revert d. induction n as [|n IH]; intros d Hwf; simpl;
    destruct (peek d) as [r d1] eqn:Hp;
    destruct (peek_spec _ _ _ Hwf Hp) as (Hwf1 & Hle & Hbuf & _);
    destruct r as [[li|]|e]; try done; destruct (c <? indent li); try done.
  destruct (consume_spec d1 li (Hbuf _ eq_refl)) as [Hwf2 Hc].
  destruct (IH _ Hwf2) as [H1 H2]. split; [done|lia].
Qed.

Lemma setKind_err t s e : setKind t s = Err e -> internalError e = false.
Proof. destruct t; simpl; repeat case_match; by intros [= <-]. Qed.

Lemma setPrimitive_err t v s e : setPrimitive t v s = Err e -> internalError e = false.
Proof.
  rewrite /setPrimitive. case_bool_decide; [by case_match; intros [= <-]|].
  destruct (indirect t v true) as [[t' v'] k].
  destruct (setKind t' s) eqn:Hs; [done|]. intros [= <-]. exact (setKind_err _ _ _ Hs).
Qed.

Lemma progress_le {A} d d0 (r : result (A * Decoder)) :
  (pending d <= pending d0)%nat -> progress d r -> progress d0 r.
Proof. intros Hle. destruct r as [[x d']|e]; [|done]. intros [? ?]. split; [done|]. simpl in *. lia. Qed.

Lemma progress_map {A B} d (r : result (A * Decoder)) (k : A -> B) :
  progress d r -> progress d (' (x, d') <- r ;;; Ok (k x, d')).
Proof. by destruct r as [[x d']|e]. Qed.

Lemma setLoop_progress fuel sv m c d :
  wfDecoder d -> (pending d + 1 <= fuel)%nat -> progress d (setLoop fuel sv m c d).
Proof.
  revert m d. induction fuel as [|fuel IH]; intros m d Hwf Hf; [lia|]. simpl.
  destruct (peek d) as [r d1] eqn:Hp.
  destruct (peek_spec _ _ _ Hwf Hp) as (Hwf1 & Hle & Hbuf & Herr).
  destruct r as [[li|]|e]; [| |by apply Herr]; [|done].
  destruct (indent li <=? c); [done|].
  destruct (consume_spec d1 li (Hbuf _ eq_refl)) as [Hwf2 Hc].
  destruct (lineTypeOf li); try done.
  apply progress_le with (consume d1); [lia|]. apply IH; [done|lia].
Qed.

Lemma multiLineLoop_progress fuel b base c d :
  wfDecoder d -> (pending d + 1 <= fuel)%nat -> progress d (multiLineLoop fuel b base c d).
Proof.
  revert b base d. induction fuel as [|fuel IH]; intros b base d Hwf Hf; [lia|]. simpl.
  destruct (peek d) as [r d1] eqn:Hp.
  destruct (peek_spec _ _ _ Hwf Hp) as (Hwf1 & Hle & Hbuf & Herr).
  destruct r as [[li|]|e]; [| |by apply Herr]; [|done].
  destruct (indent li <=? c); [done|].
  destruct (consume_spec d1 li (Hbuf _ eq_refl)) as [Hwf2 Hc].
  destruct (lineTypeOf li); try done.
  destruct (base =? -1); (apply progress_le with (consume d1); [lia|]);
    (apply IH; [done|lia]).
Qed.

Lemma decodeObjectWith_progress loop t v c d :
  (forall t' v', progress d (loop t' v' c d)) ->
  progress d (decodeObjectWith loop t v c d).
Proof.
  intros H. rewrite /decodeObjectWith.
  destruct (indirect t v true) as [[t' v'] k].
  destruct t'; simpl; try done; try by apply progress_map.
  case_bool_decide; [|done]. by apply progress_map.
Qed.

Lemma decodeSliceWith_progress loop t v c d :
  (forall e acc, progress d (loop e acc c d)) ->
  progress d (decodeSliceWith loop t v c d).
Proof.
  intros H. rewrite /decodeSliceWith.
  destruct (indirect t v false) as [[t' v'] k].
  destruct t'; simpl; try done. by apply (progress_map _ _ (fun l => k (VSlice (Some l)))).
Qed.

Lemma findTarget_err t v k e : findTarget t v k = Err e -> internalError e = false.
Proof. rewrite /findTarget. intros H. repeat case_match; by simplify_eq. Qed.

Lemma decode_progress fuel :
  (forall t v c d, wfDecoder d -> (2 * pending d + 2 <= fuel)%nat ->
      progress d (decodeValue fuel t v c d))
  /\ (forall t v c d, wfDecoder d -> (2 * pending d + 1 <= fuel)%nat ->
      progress d (objectLoop fuel t v c d))
  /\ (forall e acc c d, wfDecoder d -> (2 * pending d + 1 <= fuel)%nat ->
      progress d (sliceLoop fuel e acc c d)).
Proof.
  induction fuel as [|fuel (IHv & IHo & IHs)]; [split_and!; intros; lia|].
  split_and!.
  - intros t v c d Hwf Hf. simpl.
    destruct (peek d) as [r d1] eqn:Hp.
    destruct (peek_spec _ _ _ Hwf Hp) as (Hwf1 & Hle & Hbuf & Herr).
    destruct r as [[li|]|e]; [| |by apply Herr]; [|done].
    destruct (indent li <=? c); [done|].
    pose proof (Hwf1 li (Hbuf _ eq_refl)) as Hnb.
    apply progress_le with d1; [done|].
    destruct (lineTypeOf li); try done.
    + apply decodeObjectWith_progress. intros. apply IHo; [done|lia].
    + apply decodeObjectWith_progress. intros. apply IHo; [done|lia].
    + apply decodeSliceWith_progress. intros. apply IHs; [done|lia].
    + rewrite /decodeSet. destruct (indirect t v false) as [[t' v'] k].
      destruct t'; try done. case_match; [done|]. case_match; [|done].
      apply (progress_map _ _ (fun m' => k (VMap (Some m')))).
      apply setLoop_progress; [done|lia].
    + apply decodeSliceWith_progress. intros. apply IHs; [done|lia].
    + rewrite /decodeMultiLineString. destruct (indirect t v true) as [[t' v'] k].
      destruct t'; try done.
      apply (progress_map _ _ (fun b => k (VString b))).
      apply multiLineLoop_progress; [done|lia].
  - intros t v c d Hwf Hf. simpl.
    destruct (peek d) as [r d1] eqn:Hp.
    destruct (peek_spec _ _ _ Hwf Hp) as (Hwf1 & Hle & Hbuf & Herr).
    destruct r as [[li|]|e]; [| |by apply Herr]; [|done].
    destruct (indent li <=? c); [done|].
    destruct (isKeyLine (lineTypeOf li)) eqn:Hk; [|done]. simpl.
    destruct (consume_spec d1 li (Hbuf _ eq_refl)) as [Hwf2 Hc].
    destruct (findTarget t v (key li)) as [[[[tt tv] store]|]|e] eqn:Hft;
      [| |exact (findTarget_err _ _ _ _ Hft)].
    + assert (progress d
                (match decodeValue fuel tt tv (indent li) (consume d1) with
                 | Ok (x, d0) => objectLoop fuel t (store x) c d0
                 | Err e => Err (ErrDecodingField (key li) e)
                 end)) as Hrec.
      { pose proof (IHv tt tv (indent li) (consume d1) Hwf2 ltac:(lia)) as Hv.
        destruct (decodeValue fuel tt tv (indent li) (consume d1)) as [[x d2]|e]; [|done].
        destruct Hv as [Hwf3 Hle3].
        apply progress_le with d2; [lia|]. apply IHo; [done|lia]. }
      destruct (lineTypeOf li); try done.
      destruct (setPrimitive tt tv (value li)) as [x|e] eqn:Hs;
        [|by apply (setPrimitive_err _ _ _ _ Hs)].
      apply progress_le with (consume d1); [lia|]. apply IHo; [done|lia].
    + pose proof (consumeChildrenLoop_spec (pending (consume d1)) (indent li) (consume d1) Hwf2)
        as [Hwf3 Hle3].
      destruct (lineTypeOf li); try done;
        first [ apply progress_le with (consume d1); [lia|]; apply IHo; [done|lia]
              | apply progress_le with (consumeChildren (indent li) (consume d1));
                [rewrite /consumeChildren; lia|];
                apply IHo; [done|rewrite /consumeChildren; lia] ].
  - intros e acc c d Hwf Hf. simpl.
    destruct (peek d) as [r d1] eqn:Hp.
    destruct (peek_spec _ _ _ Hwf Hp) as (Hwf1 & Hle & Hbuf & Herr).
    destruct r as [[li|]|e0]; [| |by apply Herr]; [|done].
    destruct (indent li <=? c); [done|].
    destruct (consume_spec d1 li (Hbuf _ eq_refl)) as [Hwf2 Hc].
    destruct (lineTypeOf li); try done.
    + destruct (setPrimitive e (Zero e) (value li)) as [x|e0] eqn:Hs;
        [|by apply (setPrimitive_err _ _ _ _ Hs)].
      apply progress_le with (consume d1); [lia|]. apply IHs; [done|lia].
    + pose proof (IHv e (Zero e) (indent li) (consume d1) Hwf2 ltac:(lia)) as Hv.
      destruct (decodeValue fuel e (Zero e) (indent li) (consume d1)) as [[x d2]|e0]; [|done].
      destruct Hv as [Hwf3 Hle3].
      apply progress_le with d2; [lia|]. apply IHs; [done|lia].
Qed.

(** X14: decoding terminates and stays clear of the branches the sources mark
    as impossible: with the fuel [Unmarshal] supplies, no run ends in the
    exhaustion of the fuel, in the error for an unknown line type or in the
    error for an invalid state, at the top or wrapped in the error of a
    field; and a successful [Decode] with enough fuel leaves no more input
    pending than it found, so the decoder never reads a line twice. *)
Theorem Unmarshal_no_internal_error :
  (forall data t v e, Unmarshal data t v = Err e -> internalError e = false)
  /\ (forall fuel d t v x d',
        wfDecoder d -> (2 * pending d + 2 <= fuel)%nat ->
        Decode fuel d t v = Ok (x, d') -> (pending d' <= pending d)%nat).
Proof.
  split.
  - intros data t v e. rewrite /Unmarshal /Decode.
    assert (wfDecoder (NewDecoder data)) as Hwf by done.
    pose proof (proj1 (decode_progress _) t v (-1) _ Hwf (le_n _)) as Hp.
    destruct t; try (by intros [= <-]).
    destruct v as [| | | | | | |[x|]| | | | |]; try (by intros [= <-]).
    destruct (decodeValue _ _ _ _ _) as [[y d']|e0]; [done|]. by intros [= <-].
  - intros fuel d t v x d' Hwf Hf. rewrite /Decode.
    pose proof (proj1 (decode_progress fuel) t v (-1) d Hwf Hf) as Hp.
    destruct t; try done. destruct v as [| | | | | | |[y|]| | | | |]; try done.
    intros H. rewrite H in Hp. by destruct Hp.
Qed.

(** ** Further properties: the fuel plays no part *)

Lemma clean_map {A B} (r : result (A * Decoder)) (k : A -> B) :
  clean (' (x, d') <- r ;;; Ok (k x, d')) -> clean r.
Proof. by destruct r as [[x d']|e]. Qed.

Lemma setLoop_more fuel sv m c d :
  clean (setLoop fuel sv m c d) -> setLoop (S fuel) sv m c d = setLoop fuel sv m c d.
Proof.
  revert m d. induction fuel as [|fuel IH]; intros m d; [done|].
  rewrite (setLoop_S (S fuel)) (setLoop_S fuel).
  destruct (peek d) as [[[li|]|e] d1]; try done.
  destruct (indent li <=? c); [done|]. destruct (lineTypeOf li); try done.
  by apply IH.
Qed.

Lemma multiLineLoop_more fuel b base c d :
  clean (multiLineLoop fuel b base c d) ->
  multiLineLoop (S fuel) b base c d = multiLineLoop fuel b base c d.
Proof.
  revert b base d. induction fuel as [|fuel IH]; intros b base d; [done|].
  rewrite (multiLineLoop_S (S fuel)) (multiLineLoop_S fuel).
  destruct (peek d) as [[[li|]|e] d1]; try done.
  destruct (indent li <=? c); [done|]. destruct (lineTypeOf li); try done.
  destruct (base =? -1); by apply IH.
Qed.

Lemma decodeObjectWith_more loop1 loop2 t v c d :
  (forall t' v', clean (loop1 t' v' c d) -> loop2 t' v' c d = loop1 t' v' c d) ->
  clean (decodeObjectWith loop1 t v c d) ->
  decodeObjectWith loop2 t v c d = decodeObjectWith loop1 t v c d.
Proof.
  intros H. rewrite /decodeObjectWith. destruct (indirect t v true) as [[t' v'] k].
  destruct (Kind t'); try done.
  - intros Hc%clean_map. by rewrite H.
  - destruct t'; try done. case_bool_decide; [|done].
    intros Hc%clean_map. by rewrite H.
Qed.

Lemma decodeSliceWith_more loop1 loop2 t v c d :
  (forall e acc, clean (loop1 e acc c d) -> loop2 e acc c d = loop1 e acc c d) ->
  clean (decodeSliceWith loop1 t v c d) ->
  decodeSliceWith loop2 t v c d = decodeSliceWith loop1 t v c d.
Proof.
  intros H. rewrite /decodeSliceWith. destruct (indirect t v false) as [[t' v'] k].
  destruct t'; try done.
  intros Hc%(clean_map _ (fun l => k (VSlice (Some l)))). by rewrite H.
Qed.

Lemma decode_more fuel :
  (forall t v c d, clean (decodeValue fuel t v c d) ->
      decodeValue (S fuel) t v c d = decodeValue fuel t v c d)
  /\ (forall t v c d, clean (objectLoop fuel t v c d) ->
      objectLoop (S fuel) t v c d = objectLoop fuel t v c d)
  /\ (forall e acc c d, clean (sliceLoop fuel e acc c d) ->
      sliceLoop (S fuel) e acc c d = sliceLoop fuel e acc c d).
Proof.
  induction fuel as [|fuel (IHv & IHo & IHs)]; [done|].
  split_and!.
  - intros t v c d. rewrite (decodeValue_S (S fuel)) (decodeValue_S fuel). intros H.
    destruct (peek d) as [[[li|]|e] d1]; try done.
    destruct (indent li <=? c); [done|].
    destruct (lineTypeOf li); try done.
    + apply decodeObjectWith_more; [intros; by apply IHo|done].
    + apply decodeObjectWith_more; [intros; by apply IHo|done].
    + apply decodeSliceWith_more; [intros; by apply IHs|done].
    + revert H. rewrite /decodeSet. destruct (indirect t v false) as [[t' v'] k].
      destruct t'; try done. case_match; [done|]. case_match; [|done].
      intros Hc%(clean_map _ (fun m' => k (VMap (Some m')))). by rewrite setLoop_more.
    + apply decodeSliceWith_more; [intros; by apply IHs|done].
    + revert H. rewrite /decodeMultiLineString. destruct (indirect t v true) as [[t' v'] k].
      destruct t'; try done.
      intros Hc%(clean_map _ (fun b => k (VString b))). by rewrite multiLineLoop_more.
  - intros t v c d. rewrite (objectLoop_S (S fuel)) (objectLoop_S fuel). intros H.
    destruct (peek d) as [[[li|]|e] d1]; try done.
    destruct (indent li <=? c); [done|].
    destruct (isKeyLine (lineTypeOf li)); [|done]. cbn [negb] in *.
    destruct (findTarget t v (key li)) as [[[[tt tv] store]|]|e]; [| |done].
    + destruct (lineTypeOf li);
        first [ destruct (setPrimitive tt tv (value li)); [by apply IHo|done]
              | destruct (decodeValue fuel tt tv (indent li) (consume d1))
                  as [[x d2]|e0] eqn:Hv;
                [rewrite IHv ?Hv //; by apply IHo|by rewrite IHv ?Hv] ].
    + by apply IHo.
  - intros e acc c d. rewrite (sliceLoop_S (S fuel)) (sliceLoop_S fuel). intros H.
    destruct (peek d) as [[[li|]|e0] d1]; try done.
    destruct (indent li <=? c); [done|].
    destruct (lineTypeOf li); try done.
    + destruct (setPrimitive e (Zero e) (value li)); [|done]. by apply IHs.
    + destruct (decodeValue fuel e (Zero e) (indent li) (consume d1)) as [[x d2]|e0] eqn:Hv.
      * rewrite IHv ?Hv //. by apply IHs.
      * by rewrite IHv ?Hv.
Qed.

Lemma decodeValue_more_fuel k fuel t v c d :
  clean (decodeValue fuel t v c d) ->
  decodeValue (k + fuel) t v c d = decodeValue fuel t v c d.
Proof.
  intros H. induction k as [|k IH]; [done|].
  change (S k + fuel)%nat with (S (k + fuel)).
  rewrite (proj1 (decode_more _)) IH //.
Qed.

(** X15: the fuel of the embedding plays no part: from any state with a
    classified line in the buffer, every amount of fuel from the one
    [Unmarshal] supplies on gives the same result. *)
Theorem Decode_fuel_irrelevant fuel d t v :
  wfDecoder d -> (2 * pending d + 2 <= fuel)%nat ->
  Decode fuel d t v = Decode (2 * pending d + 2) d t v.
Proof.
  intros Hwf Hf. rewrite /Decode.
  destruct t; try done. destruct v as [| | | | | | |[x|]| | | | |]; try done.
  destruct (Nat.le_exists_sub _ _ Hf) as (k & -> & _).
  apply decodeValue_more_fuel.
  pose proof (proj1 (decode_progress (2 * pending d + 2)) (TPtr t) (VPtr (Some x)) (-1) d
                Hwf (le_n _)) as Hp.
  by destruct (decodeValue _ _ _ _ _) as [[y d']|e].
Qed.

(** ** Further properties: sets *)

Lemma parseLine_setItem i s :
  lineText s ->
  parseLine (setItemText i s) = Ok (Some (mkLine (indentOf i) [] s lineSetItem)).
Proof.
  intros Hs. destruct (Hs) as (Hne & Htrim & Hhash & Hl).
  assert (setItemText i s
          = replicate (2 * Z.to_nat i) " "%char ++ ">"%char :: ["|"%char] ++ " "%char :: s)
    as Heq by done.
  rewrite /parseLine IndexByte_None.
  { rewrite Heq !not_elem_of_app !not_elem_of_cons. split_and!; try done;
      first [by apply not_elem_of_spaces|apply not_elem_of_nil]. }
  rewrite Heq countIndent_spaces // TrimSpace_line_value //.
  rewrite bool_decide_eq_false_2 //=.
  by rewrite (TrimSpace_space_text _ Htrim).
Qed.

Lemma setLoop_peeked fuel sv m c d r d' :
  peek d = (Ok r, d') -> setLoop fuel sv m c d' = setLoop fuel sv m c d.
Proof.
  intros Hp. destruct fuel as [|fuel]; [done|].
  simpl. by rewrite Hp (peek_idemp _ _ _ Hp).
Qed.

Lemma setLoop_items sv i c items :
  Forall lineText items -> c < indentOf i ->
  forall fuel m rest drest,
    allFit (setItemText i <$> items) -> stops c rest drest ->
    (length items + 1 <= fuel)%nat ->
    setLoop fuel sv m c (onLines ((setItemText i <$> items) ++ rest))
    = Ok (addAll sv items m, drest).
Proof.
  intros Hall Hc. induction Hall as [|s items Hs _ IH]; intros fuel m rest drest Hfit Hstop Hf.
  - destruct fuel as [|fuel]; [simpl in Hf; lia|]. simpl.
    destruct Hstop as (r & -> & Hr). destruct r as [li|]; [|done].
    specialize (Hr li eq_refl). by destruct (indent li <=? c) eqn:E; [|lia].
  - destruct fuel as [|fuel]; [simpl in Hf; lia|].
    apply Forall_cons in Hfit as [Hfit1 Hfit2].
    assert (parseLine (dropCR (setItemText i s))
            = Ok (Some (mkLine (indentOf i) [] s lineSetItem))) as Hparse.
    { rewrite /setItemText !app_assoc dropCR_text // -!app_assoc.
      by apply parseLine_setItem. }
    rewrite fmap_cons -app_comm_cons (setLoop_S fuel).
    rewrite (peek_line _ _ _ Hfit1 Hparse) /=.
    destruct (indentOf i <=? c) eqn:E; [lia|].
    rewrite consume_peeked. apply IH; [done|done|simpl in Hf; lia].
Qed.

Lemma addAll_lookup sv items m (k : bytes) :
  addAll sv items m !! k = if bool_decide (k ∈ items) then Some sv else m !! k.
Proof.
  revert m. induction items as [|s items IH]; intros m.
  - by rewrite bool_decide_eq_false_2; [apply not_elem_of_nil|].
  - rewrite /addAll /= -/(addAll sv items _) IH.
    destruct (decide (k ∈ items)) as [Hin|Hin].
    + rewrite !bool_decide_eq_true_2 //. by right.
    + rewrite (bool_decide_eq_false_2 (k ∈ items)) //.
      destruct (decide (k = s)) as [->|Hne].
      * rewrite bool_decide_eq_true_2; [by left|]. by rewrite lookup_insert_eq.
      * rewrite bool_decide_eq_false_2; [by intros [?|?]%elem_of_cons|].
        rewrite lookup_insert_ne; first [done|congruence].
Qed.

(** X16: a block of set items is decoded into a map from strings to booleans
    (or to empty records): every item becomes a key bound to true (to the
    empty record), the entries the map had under other keys stay, and a nil
    map is made first. *)
Theorem decodeSet_items e sv i c items m0 fuel rest drest :
  (e = TBool /\ sv = VBool true \/ exists n, e = TStruct n [] /\ sv = VStruct []) ->
  Forall lineText items -> items <> [] -> c < indentOf i ->
  allFit (setItemText i <$> items) -> stops c rest drest ->
  (length items + 2 <= fuel)%nat ->
  decodeValue fuel (TMap TString e) (VMap m0) c (onLines ((setItemText i <$> items) ++ rest))
  = Ok (VMap (Some (addAll sv items (default ∅ m0))), drest)
  /\ forall k, addAll sv items (default ∅ m0) !! k
               = if bool_decide (k ∈ items) then Some sv else default ∅ m0 !! k.
Proof.
  intros He Hall Hne Hc Hfit Hstop Hf. split; [|intros k; apply addAll_lookup].
  destruct fuel as [|fuel]; [lia|].
  destruct items as [|s items]; [done|].
  pose proof Hall as [Hs _]%Forall_cons. pose proof Hfit as [Hfit1 _]%Forall_cons.
  assert (parseLine (dropCR (setItemText i s))
          = Ok (Some (mkLine (indentOf i) [] s lineSetItem))) as Hparse.
  { rewrite /setItemText !app_assoc dropCR_text // -!app_assoc.
    by apply parseLine_setItem. }
  rewrite decodeValue_S.
  pose proof (peek_line _ ((setItemText i <$> items) ++ rest) _ Hfit1 Hparse) as Hpeek.
  rewrite {1}fmap_cons -app_comm_cons Hpeek /=.
  destruct (indentOf i <=? c) eqn:E; [lia|].
  rewrite /decodeSet /=.
  assert (match e with TStruct _ [] => Some (Zero e) | TBool => Some (VBool true) | _ => None end
          = Some sv) as ->.
  { by destruct He as [[-> ->]|(n & -> & ->)]. }
  assert (match m0 with Some m => m | None => ∅ end = default ∅ m0) as Hm by (by destruct m0).
  assert (match VMap m0 with VMap (Some m) => m | _ => ∅ end = default ∅ m0) as -> by done.
  rewrite (setLoop_peeked _ _ _ _ _ _ _ Hpeek).
  change (mkDecoder (Scanning (setItemText i s :: (setItemText i <$> items) ++ rest)) None)
    with (onLines ((setItemText i <$> (s :: items)) ++ rest)).
  rewrite (setLoop_items sv i c (s :: items) Hall Hc fuel _ rest drest Hfit Hstop) //.
  simpl in *. lia.
Qed.

(** ** Further properties: carriage returns *)

Lemma fits_shorter l : fits (l ++ [CR]) = true -> fits l = true.
Proof.
  rewrite /fits length_app /=. intros H%N.ltb_lt. apply N.ltb_lt. lia.
Qed.

Lemma dropCR_snoc l : dropCR (l ++ [CR]) = l.
Proof. by rewrite /dropCR reverse_app /= reverse_involutive. Qed.

Lemma scanLoop_sameButCR n ls :
  Forall crOK ls ->
  exists r ls',
    scanLoop n (Scanning ((fun l => l ++ [CR]) <$> ls))
    = (r, Scanning ((fun l => l ++ [CR]) <$> ls'))
    /\ scanLoop n (Scanning ls) = (r, Scanning ls')
    /\ Forall crOK ls'.
Proof.
  intros H. revert n. induction H as [|l ls [Hl Hfit] Hls IH]; intros n.
  - exists (Ok None), []. by destruct n.
  - assert (forall m, scanLoop m (Scanning ((fun l => l ++ [CR]) <$> (l :: ls)))
                      = match parseLine l with
                        | Err e => (Err e, Scanning ((fun l => l ++ [CR]) <$> ls))
                        | Ok (Some li) => (Ok (Some li), Scanning ((fun l => l ++ [CR]) <$> ls))
                        | Ok None =>
                            match m with
                            | O => (Err ErrOutOfFuel, Scanning ((fun l => l ++ [CR]) <$> ls))
                            | S m' => scanLoop m' (Scanning ((fun l => l ++ [CR]) <$> ls))
                            end
                        end) as HA.
    { intros [|m]; by rewrite /= Hfit dropCR_snoc. }
    assert (forall m, scanLoop m (Scanning (l :: ls))
                      = match parseLine l with
                        | Err e => (Err e, Scanning ls)
                        | Ok (Some li) => (Ok (Some li), Scanning ls)
                        | Ok None =>
                            match m with
                            | O => (Err ErrOutOfFuel, Scanning ls)
                            | S m' => scanLoop m' (Scanning ls)
                            end
                        end) as HB.
    { intros [|m]; by rewrite /= (fits_shorter _ Hfit) (dropCR_id_last _ Hl). }
    rewrite HA HB. destruct (parseLine l) as [[li|]|e]; try by eexists _, ls.
    destruct n as [|n]; [by eexists _, ls|]. apply IH.
Qed.

Lemma peek_sameButCR dA dB :
  sameButCR dA dB ->
  exists r dA' dB', peek dA = (r, dA') /\ peek dB = (r, dB') /\ sameButCR dA' dB'.
Proof.
  destruct dA as [sA bA], dB as [sB bB]. intros [Hb (ls & HA & HB & Hls)].
  simpl in *. subst. rewrite /peek /=. destruct bB as [li|].
  { eexists _, _, _. split_and!; try done. split; [done|]. by exists ls. }
  rewrite length_fmap.
  destruct (scanLoop_sameButCR (length ls) ls Hls) as (r & ls' & -> & -> & Hls').
  destruct r as [[li|]|e]; eexists _, _, _; (split_and!; [done|done|]);
    (split; [done|]); by exists ls'.
Qed.

Lemma consume_sameButCR dA dB : sameButCR dA dB -> sameButCR (consume dA) (consume dB).
Proof. intros [_ H]. by split. Qed.

Lemma pending_sameButCR dA dB : sameButCR dA dB -> pending dA = pending dB.
Proof.
  intros [Hb (ls & HA & HB & _)]. by rewrite /pending HA HB Hb /= length_fmap.
Qed.

Lemma consumeChildrenLoop_sameButCR n c dA dB :
  sameButCR dA dB ->
  sameButCR (consumeChildrenLoop n c dA) (consumeChildrenLoop n c dB).
Proof.
  revert dA dB. induction n as [|n IH]; intros dA dB H; simpl;
    destruct (peek_sameButCR _ _ H) as (r & dA' & dB' & -> & -> & H');
    destruct r as [[li|]|e]; try done; destruct (c <? indent li); try done.
  by apply IH, consume_sameButCR.
Qed.

Lemma sameRun_map {A B} (rA rB : result (A * Decoder)) (k : A -> B) :
  sameRun rA rB ->
  sameRun (' (x, d') <- rA ;;; Ok (k x, d')) (' (x, d') <- rB ;;; Ok (k x, d')).
Proof.
  destruct rA as [[x dA]|e], rB as [[y dB]|e']; try done. by intros [-> ?].
Qed.

Lemma setLoop_sameButCR fuel sv m c dA dB :
  sameButCR dA dB -> sameRun (setLoop fuel sv m c dA) (setLoop fuel sv m c dB).
Proof.
  revert m dA dB. induction fuel as [|fuel IH]; intros m dA dB H; [done|]. simpl.
  destruct (peek_sameButCR _ _ H) as (r & dA' & dB' & -> & -> & H').
  destruct r as [[li|]|e]; try done.
  destruct (indent li <=? c); [done|]. destruct (lineTypeOf li); try done.
  by apply IH, consume_sameButCR.
Qed.

Lemma multiLineLoop_sameButCR fuel b base c dA dB :
  sameButCR dA dB ->
  sameRun (multiLineLoop fuel b base c dA) (multiLineLoop fuel b base c dB).
Proof.
  revert b base dA dB. induction fuel as [|fuel IH]; intros b base dA dB H; [done|]. simpl.
  destruct (peek_sameButCR _ _ H) as (r & dA' & dB' & -> & -> & H').
  destruct r as [[li|]|e]; try done.
  destruct (indent li <=? c); [done|]. destruct (lineTypeOf li); try done.
  destruct (base =? -1); by apply IH, consume_sameButCR.
Qed.

Lemma decodeObjectWith_sameButCR loop t v c dA dB :
  (forall t' v', sameRun (loop t' v' c dA) (loop t' v' c dB)) ->
  sameRun (decodeObjectWith loop t v c dA) (decodeObjectWith loop t v c dB).
Proof.
  intros H. rewrite /decodeObjectWith. destruct (indirect t v true) as [[t' v'] k].
  destruct (Kind t'); try done.
  - by apply sameRun_map.
  - destruct t'; try done. case_bool_decide; [|done]. by apply sameRun_map.
Qed.

Lemma decodeSliceWith_sameButCR loop t v c dA dB :
  (forall e acc, sameRun (loop e acc c dA) (loop e acc c dB)) ->
  sameRun (decodeSliceWith loop t v c dA) (decodeSliceWith loop t v c dB).
Proof.
  intros H. rewrite /decodeSliceWith. destruct (indirect t v false) as [[t' v'] k].
  destruct t'; try done. by apply (sameRun_map _ _ (fun l => k (VSlice (Some l)))).
Qed.

Lemma decode_sameButCR fuel :
  (forall t v c dA dB, sameButCR dA dB ->
      sameRun (decodeValue fuel t v c dA) (decodeValue fuel t v c dB))
  /\ (forall t v c dA dB, sameButCR dA dB ->
      sameRun (objectLoop fuel t v c dA) (objectLoop fuel t v c dB))
  /\ (forall e acc c dA dB, sameButCR dA dB ->
      sameRun (sliceLoop fuel e acc c dA) (sliceLoop fuel e acc c dB)).
Proof.
  induction fuel as [|fuel (IHv & IHo & IHs)]; [done|].
  split_and!.
  - intros t v c dA dB H. rewrite !decodeValue_S.
    destruct (peek_sameButCR _ _ H) as (r & dA' & dB' & -> & -> & H').
    destruct r as [[li|]|e]; try done.
    destruct (indent li <=? c); [done|].
    destruct (lineTypeOf li); try done.
    + apply decodeObjectWith_sameButCR. intros. by apply IHo.
    + apply decodeObjectWith_sameButCR. intros. by apply IHo.
    + apply decodeSliceWith_sameButCR. intros. by apply IHs.
    + rewrite /decodeSet. destruct (indirect t v false) as [[t' v'] k].
      destruct t'; try done. case_match; [done|]. case_match; [|done].
      apply (sameRun_map _ _ (fun m' => k (VMap (Some m')))).
      by apply setLoop_sameButCR.
    + apply decodeSliceWith_sameButCR. intros. by apply IHs.
    + rewrite /decodeMultiLineString. destruct (indirect t v true) as [[t' v'] k].
      destruct t'; try done.
      apply (sameRun_map _ _ (fun b => k (VString b))).
      by apply multiLineLoop_sameButCR.
  - intros t v c dA dB H. rewrite !objectLoop_S.
    destruct (peek_sameButCR _ _ H) as (r & dA' & dB' & -> & -> & H').
    destruct r as [[li|]|e]; try done.
    destruct (indent li <=? c); [done|].
    destruct (isKeyLine (lineTypeOf li)); [|done]. cbn [negb].
    pose proof (consume_sameButCR _ _ H') as Hc.
    destruct (findTarget t v (key li)) as [[[[tt tv] store]|]|e]; [| |done].
    + assert (sameRun
                (match decodeValue fuel tt tv (indent li) (consume dA') with
                 | Ok (x, d) => objectLoop fuel t (store x) c d
                 | Err e => Err (ErrDecodingField (key li) e)
                 end)
                (match decodeValue fuel tt tv (indent li) (consume dB') with
                 | Ok (x, d) => objectLoop fuel t (store x) c d
                 | Err e => Err (ErrDecodingField (key li) e)
                 end)) as Hrec.
      { pose proof (IHv tt tv (indent li) _ _ Hc) as Hv.
        destruct (decodeValue fuel tt tv (indent li) (consume dA')) as [[x dA2]|e1],
                 (decodeValue fuel tt tv (indent li) (consume dB')) as [[y dB2]|e2];
          try done; [destruct Hv as [-> ?]; by apply IHo|simpl in *; by subst]. }
      destruct (lineTypeOf li); try done.
      destruct (setPrimitive tt tv (value li)); [by apply IHo|done].
    + rewrite /consumeChildren (pending_sameButCR _ _ Hc).
      destruct (lineTypeOf li); try (by apply IHo).
      by apply IHo, consumeChildrenLoop_sameButCR.
  - intros e acc c dA dB H. rewrite !sliceLoop_S.
    destruct (peek_sameButCR _ _ H) as (r & dA' & dB' & -> & -> & H').
    destruct r as [[li|]|e0]; try done.
    destruct (indent li <=? c); [done|].
    pose proof (consume_sameButCR _ _ H') as Hc.
    destruct (lineTypeOf li); try done.
    + destruct (setPrimitive e (Zero e) (value li)); [by apply IHs|done].
    + pose proof (IHv e (Zero e) (indent li) _ _ Hc) as Hv.
      destruct (decodeValue fuel e (Zero e) (indent li) (consume dA')) as [[x dA2]|e1],
               (decodeValue fuel e (Zero e) (indent li) (consume dB')) as [[y dB2]|e2];
        try done.
      destruct Hv as [-> ?]. by apply IHs.
Qed.

Lemma pieces_unlinesCRLF ls :
  noLF ls -> pieces (unlinesCRLF ls) = (fun l => l ++ [CR]) <$> ls.
Proof.
  intros H.
  assert (unlinesCRLF ls = unlinesB ((fun l => l ++ [CR]) <$> ls)) as ->.
  { rewrite /unlinesCRLF /unlinesB -list_fmap_compose. f_equal.
    apply list_fmap_ext. intros _ l _. by rewrite /= -app_assoc. }
  apply pieces_unlinesB, Forall_fmap. eapply Forall_impl; [exact H|].
  intros l Hl. simpl. rewrite not_elem_of_app not_elem_of_cons.
  split_and!; [done|done|apply not_elem_of_nil].
Qed.

(** X17: a text whose lines end in a carriage return and a line feed is decoded
    like the same text with line feeds only, into any destination, provided
    no line ends in a carriage return of its own or reaches the scanner's
    limit. *)
Theorem Unmarshal_crlf ls t v :
  noLF ls -> Forall crOK ls ->
  Unmarshal (unlinesCRLF ls) t v = Unmarshal (unlinesB ls) t v.
Proof.
  intros Hlf Hok. rewrite /Unmarshal /NewDecoder /NewScanner.
  rewrite pieces_unlinesCRLF // pieces_unlinesB //.
  assert (sameButCR (mkDecoder (Scanning ((fun l => l ++ [CR]) <$> ls)) None)
                    (mkDecoder (Scanning ls) None)) as H.
  { split; [done|]. by exists ls. }
  rewrite (pending_sameButCR _ _ H) /Decode.
  destruct t; try done. destruct v as [| | | | | | |[x|]| | | | |]; try done.
  pose proof (proj1 (decode_sameButCR (2 * pending (mkDecoder (Scanning ls) None) + 2))
                (TPtr t) (VPtr (Some x)) (-1) _ _ H) as Hrun.
  destruct (decodeValue _ _ _ _ {| s := Scanning (_ <$> ls) |}) as [[y dA]|e1],
           (decodeValue _ _ _ _ {| s := Scanning ls |}) as [[z dB]|e2]; try done.
  - by destruct Hrun as [-> _].
  - simpl in Hrun. by subst.
Qed.

End Properties.

(** ** Instances of the statements *)

Lemma C10_key_value_trimmed_witness :
  let li := mkLine 0 (str "host") (str "localhost") lineKeyValue in
  parseLine (str "(host)   localhost  ") = Ok (Some li)
  /\ TrimSpace (value li) = value li.
Proof.
  intros li.
  assert (parseLine (str "(host)   localhost  ") = Ok (Some li)) as Hp by reflexivity.
  split; [exact Hp|].
  exact (proj1 (C10_key_value_trimmed _ li Hp eq_refl)).
Defined.

Lemma C4_first_match_wins_witness :
  findStructField SimpleConfig (str "port") = Some [1%nat].
Proof.
  apply (C4_first_match_wins (str "SimpleConfig") _ (str "port") 1
           (field "Port" "port" (TInt Int))).
  - reflexivity.
  - reflexivity.
  - repeat constructor.
Defined.

(** C4 as stated fails: the second field of [Shadowed] is tagged port, yet
    the key port is bound to the first field, whose lowercased name is
    port. *)
Lemma C4_tag_shadowed_by_earlier_name :
  match Shadowed with
  | TStruct _ fields =>
      exists f, fields !! 1%nat = Some f /\ Tag f.1 = str "port"
  | _ => False
  end
  /\ findStructField Shadowed (str "port") = Some [0%nat]
  /\ findStructField Shadowed (str "port") <> Some [1%nat].
Proof. split_and!; [by eexists|reflexivity|by intros [=]]. Qed.

Lemma C3_embedded_witness :
  findStructField AppSettings (str "timeout") = Some [0%nat; 0%nat].
Proof.
  apply (proj1 C3_embedded_promoted_on_decode_nested_on_encode
           (str "AppSettings") _ (str "timeout") 0%nat
           (embedded "BaseSettings" BaseSettings) [0%nat]).
  - reflexivity.
  - reflexivity.
  - reflexivity.
  - constructor.
Defined.

(** C3 as stated fails on its encoding half: in the output for
    [AppSettings] the key timeout stands at indent 2 under the key
    basesettings, and no key timeout stands at the parent's indent 0. *)
Lemma C3_encoding_nests_embedded_struct :
  exists out,
    Marshal AppSettings (VStruct [VStruct [VInt 30]; VString (str "My-App")]) = Ok out
    /\ keyLines out = [(0, str "basesettings"); (2, str "timeout"); (0, str "app_name")]
    /\ (0, str "timeout") ∉ keyLines out.
Proof.
  exists (unlines ["(basesettings)"; "  (timeout) 30"; "(app_name) My-App"]).
  split; [reflexivity|].
  assert (keyLines (unlines ["(basesettings)"; "  (timeout) 30"; "(app_name) My-App"])
          = [(0, str "basesettings"); (2, str "timeout"); (0, str "app_name")]) as ->
    by reflexivity.
  split; [done|].
  intros H. repeat (apply elem_of_cons in H as [[=]|H]). by apply elem_of_nil in H.
Qed.

Lemma C7_abort_witness :
  let d := NewDecoder (str "(port) thirty") in
  objectLoop 1 SimpleConfig (Zero SimpleConfig) (-1) d
  = Err (ErrSettingField (str "port") (ErrInvalidInteger (str "thirty"))).
Proof.
  intros d.
  refine (proj1 (proj2 C7_type_mismatch_causes_and_abort)
            0%nat SimpleConfig (Zero SimpleConfig) (-1) d
            (mkLine 0 (str "port") (str "thirty") lineKeyValue)
            (mkDecoder (Scanning []) (Some (mkLine 0 (str "port") (str "thirty") lineKeyValue)))
            (TInt Int) (VInt 0) (setFieldAt (Zero SimpleConfig) [1%nat]) _ _ _ _ _ _).
  - reflexivity.
  - simpl; lia.
  - reflexivity.
  - reflexivity.
  - reflexivity.
Defined.

(** C7 as stated fails: scalar text for a list slot is a type mismatch,
    and it is none of the three causes the claim lists. *)
Lemma C7_scalar_into_list_fails :
  fails (setPrimitive (TSlice TString) (VSlice None) (str "x"))
  /\ ~ (parseFails (TSlice TString) (str "x")
        \/ overflows (TSlice TString) (str "x")
        \/ nilToNonNilable (TSlice TString) (str "x"))
  /\ Unmarshal (unlines ["(features) x"]) (TPtr NilConfig) (VPtr (Some (Zero NilConfig)))
     = Err (ErrSettingField (str "features") (ErrPrimitiveInto KSlice)).
Proof.
  split_and!.
  - eexists. reflexivity.
  - rewrite /parseFails /overflows /nilToNonNilable /=. intros [[]|[[]|[[=] _]]].
  - reflexivity.
Qed.

Lemma unknown_key_block_skipped_witness :
  let hdr := mkLine 0 (str "unknown") [] lineKeyOnly in
  let block := [str "  (a) 1"; []; str "    text"] in
  let rest := [str "(port) 5"] in
  let d := mkDecoder (Scanning (str "(unknown)" :: block ++ rest)) None in
  objectLoop 3 DBConfig (Zero DBConfig) (-1) d
  = objectLoop 2 DBConfig (Zero DBConfig) (-1) (mkDecoder (Scanning rest) None).
Proof.
  intros hdr block rest d.
  refine (proj1 unknown_key_block_skipped 2%nat DBConfig (Zero DBConfig) (-1) d hdr
            block rest (Some (mkLine 0 (str "port") (str "5") lineKeyValue))
            (mkDecoder (Scanning []) (Some (mkLine 0 (str "port") (str "5") lineKeyValue)))
            _ _ _ _ _ _ _).
  - reflexivity.
  - simpl. lia.
  - reflexivity.
  - reflexivity.
  - repeat apply Forall_cons_2; [| | |apply Forall_nil_2]; (split; [reflexivity|]).
    + right. eexists. split; [reflexivity|simpl; lia].
    + left. reflexivity.
    + right. eexists. split; [reflexivity|simpl; lia].
  - reflexivity.
  - intros li [= <-]. simpl. lia.
Defined.

(** C8: the block of an unknown key is not discarded whole when a line in it
    is malformed.  [consumeChildren] returns at the error of [peek] and
    drops it, where the other loops return it; the next nested line is then
    decoded as a key of the record.  Decoding succeeds and [port] becomes 99,
    where the document without the unknown key and its block leaves it 0.
    The same slip hides the error of a malformed line that follows the
    block: the document is accepted, and rejected once the block is taken
    out. *)
Lemma C8_nested_line_leaks_after_malformed_line :
  Unmarshal unknownBlockDoc (TPtr DBConfig) (VPtr (Some (Zero DBConfig)))
  = Ok (VPtr (Some (VStruct [VString (str "h"); VInt 99])))
  /\ Unmarshal unknownBlockRest (TPtr DBConfig) (VPtr (Some (Zero DBConfig)))
     = Ok (VPtr (Some (VStruct [VString (str "h"); VInt 0])))
  /\ Unmarshal (unlines ["(unknown)"; "  (x) 1"; "(bad"; "(host) h"]) (TPtr DBConfig)
       (VPtr (Some (Zero DBConfig)))
     = Ok (VPtr (Some (VStruct [VString (str "h"); VInt 0])))
  /\ Unmarshal (unlines ["(bad"; "(host) h"]) (TPtr DBConfig)
       (VPtr (Some (Zero DBConfig)))
     = Err (ErrSyntaxMissingParen (str "(bad")).
Proof. split_and!; reflexivity. Qed.

Lemma C9_old_entries_kept_witness :
  let a : gmap bytes val := {[ str "x" := VInt 1 ]} in
  let m : gmap bytes val := {[ str "y" := VInt 2 ]} in
  (a ∪ m) !! str "y" = m !! str "y".
Proof.
  intros a m.
  refine (proj2 (proj2 (proj2 C9_slice_rebuilt_map_extended)) a m (str "y") _).
  reflexivity.
Defined.

(** ** Instances of the further properties *)

Ltac plain_text :=
  split; [split_and!; [done | reflexivity | compute_done | compute_done] | done].
Ltac plain_key := split_and!; compute_done.
Ltac line_text := split_and!; [done | reflexivity | compute_done | compute_done].
Ltac text_line :=
  split_and!; [by compute | by compute | by compute | compute_done | by compute
              | by eexists].

Lemma DBConfig_resolves :
  resolves (str "DBConfig") [field "Host" "host" TString; field "Port" "port" (TInt Int)].
Proof.
  intros i f Hi Ht.
  repeat (destruct i as [|i]; [injection Hi as <-; reflexivity|]). done.
Qed.

Lemma Marshal_Unmarshal_roundtrip_witness :
  exists out,
    Marshal Server server = Ok out
    /\ Marshal (TPtr Server) (VPtr (Some server)) = Ok out
    /\ (allFit (pieces out) ->
        Unmarshal out (TPtr Server) (VPtr (Some (Zero Server))) = Ok (VPtr (Some server))).
Proof.
  apply (Marshal_Unmarshal_roundtrip (str "Server")).
  apply valueOK_struct. split.
  - rewrite /fieldsOK. split_and!; try done.
    + split; [plain_key|]. left. right. plain_text.
    + split; [plain_key|]. reflexivity.
    + split; [plain_key|]. apply valueOK_scalars; [done|done|].
      repeat apply Forall_cons_2; [| |apply Forall_nil_2].
      * split; [right; plain_text|]. by intros s [= <-].
      * split; [by left|]. by intros s [= <-].
    + split; [plain_key|]. apply valueOK_struct. split; [|apply DBConfig_resolves].
      split_and!; try done.
      * split; [plain_key|]. left. right. plain_text.
      * split; [plain_key|]. reflexivity.
    + split; [plain_key|]. apply valueOK_map; [done|apply map_non_empty_singleton|].
      apply map_Forall_singleton. split; [plain_key|]. split; [done|reflexivity].
    + split; [plain_key|]. apply valueOK_records; [compute_done|compute_done|done|].
      repeat apply Forall_cons_2; [| |apply Forall_nil_2].
      * apply valueOK_struct. split; [|apply DBConfig_resolves].
        split_and!; try done.
        -- split; [plain_key|]. left. right. plain_text.
        -- split; [plain_key|]. reflexivity.
      * apply valueOK_struct. split; [|apply DBConfig_resolves].
        split_and!; try done.
        -- split; [plain_key|]. left. by left.
        -- split; [plain_key|]. reflexivity.
    + split; [plain_key|]. done.
    + split; [plain_key|]. right. eexists. split; [reflexivity|].
      split_and!; [compute_done|done|].
      repeat apply Forall_cons_2; [text_line..|apply Forall_nil_2].
  - intros i f Hi Ht.
    repeat (destruct i as [|i]; [injection Hi as <-; first [reflexivity|by destruct Ht]|]).
    done.
Defined.


Lemma Marshal_injective_witness :
  [VString (str "db.local"); VInt 5432] = [VString (str "db.local"); VInt 5432].
Proof.
  assert (valueOK DBConfig (VStruct [VString (str "db.local"); VInt 5432])) as Hok.
  { apply valueOK_struct. split; [|apply DBConfig_resolves].
    split_and!; try done.
    - split; [plain_key|]. left. right. plain_text.
    - split; [plain_key|]. reflexivity. }
  apply (Marshal_injective (str "DBConfig") _ _ _
           (unlines ["(host) db.local"; "(port) 5432"]) Hok Hok).
  - reflexivity.
  - reflexivity.
  - repeat apply Forall_cons_2; [reflexivity..|apply Forall_nil_2].
Defined.

Lemma written_lines_classified_witness :
  parseLine (str "  (port) 8080") = Ok (Some (mkLine 2 (str "port") (str "8080") lineKeyValue))
  /\ parseLine (str "  (port)") = Ok (Some (mkLine 2 (str "port") [] lineKeyOnly))
  /\ parseLine (str "  > 8080") = Ok (Some (mkLine 2 [] (str "8080") lineArrayItem))
  /\ parseLine (str "  > (DBConfig)") = Ok (Some (mkLine 2 [] [] lineArrayObject)).
Proof.
  apply (written_lines_classified 1 (str "port") (str "8080") (str "DBConfig")).
  - plain_key.
  - line_text.
  - done.
  - compute_done.
Defined.

Lemma scalars_assigned_back_witness :
  setPrimitive (TInt Int8) (VInt 5) (FormatInt (-128)) = Ok (VInt (-128)).
Proof. apply (proj1 scalars_assigned_back Int8 (-128) (VInt 5)). reflexivity. Defined.

Lemma findStructField_None_iff_witness :
  findStructField DBConfig (str "user") = None.
Proof.
  apply (proj2 (findStructField_None_iff (str "DBConfig") _ (str "user"))).
  repeat apply Forall_cons_2; [reflexivity..|apply Forall_nil_2].
Defined.

Lemma encodeStruct_excluded_value_irrelevant_witness :
  encodeStruct
    [field "Port" "port" (TInt Int); field "InternalCounter" "-" (TInt Int);
     field "IsProduction" "is_production" TBool]
    [VInt 80; VInt 1; VBool true] (-1)
  = encodeStruct
      [field "Port" "port" (TInt Int); field "InternalCounter" "-" (TInt Int);
       field "IsProduction" "is_production" TBool]
      [VInt 80; VInt 99; VBool true] (-1).
Proof.
  apply (encodeStruct_excluded_value_irrelevant
           [field "Port" "port" (TInt Int)] (field "InternalCounter" "-" (TInt Int))
           [field "IsProduction" "is_production" TBool]
           [VInt 80] (VInt 1) (VInt 99) [VBool true] (-1)).
  - reflexivity.
  - reflexivity.
Defined.

Lemma encodeSlice_nil_element_witness :
  encodeSlice (TPtr DBConfig) [VPtr None; VPtr (Some (VStruct [VString (str "h"); VInt 1]))] 0
  = encodeSlice (TPtr DBConfig) [VPtr (Some (VStruct [VString (str "h"); VInt 1]))] 0.
Proof. apply (proj1 encodeSlice_nil_element DBConfig). reflexivity. Defined.

Lemma Unmarshal_blank_document_witness :
  Unmarshal (unlines ["# a comment"; ""; "   "; "  # another"]) (TPtr DBConfig)
    (VPtr (Some (VStruct [VString (str "h"); VInt 1])))
  = Ok (VPtr (Some (VStruct [VString (str "h"); VInt 1]))).
Proof.
  apply Unmarshal_blank_document.
  repeat apply Forall_cons_2; [| | | |apply Forall_nil_2]; (split; [reflexivity|]).
  - exists [], (str " a comment"). split; [constructor|by right].
  - exists [], []. split; [constructor|by left].
  - exists (str "   "), []. split; [by repeat constructor|by left].
  - exists (str "  "), (str " another"). split; [by repeat constructor|by right].
Defined.

Lemma big_line_noLF : noLF [replicate (N.to_nat MaxScanTokenSize) "x"%char].
Proof.
  apply Forall_cons_2; [|apply Forall_nil_2]. by intros [? _]%elem_of_replicate.
Qed.

Lemma Unmarshal_line_too_long_witness :
  Unmarshal (unlinesB [replicate (N.to_nat MaxScanTokenSize) "x"%char]) (TPtr DBConfig)
    (VPtr (Some (Zero DBConfig)))
  = Err ErrTooLong.
Proof.
  apply (Unmarshal_line_too_long _ [] (replicate (N.to_nat MaxScanTokenSize) "x"%char) []).
  - exact (pieces_unlinesB _ big_line_noLF).
  - apply Forall_nil_2.
  - rewrite /fits length_replicate N2Nat.id. reflexivity.
Defined.

Lemma block_kind_mismatch_witness :
  decodeValue 1 (TPtr (TSlice TString)) (VPtr None) (-1) (NewDecoder (str "> a"))
  = Err (ErrArrayInto KPtr).
Proof.
  refine (proj1 (proj2 (proj2
            (block_kind_mismatch 0 (TPtr (TSlice TString)) (VPtr None) (-1)
               (NewDecoder (str "> a")) (mkLine 0 [] (str "a") lineArrayItem)
               (mkDecoder (Scanning []) (Some (mkLine 0 [] (str "a") lineArrayItem)))
               _ _))) _ _).
  - reflexivity.
  - reflexivity.
  - reflexivity.
  - reflexivity.
Defined.

Lemma parseLine_indent_witness :
  0 <= 3
  /\ exists rest, str "   (port) 5 # five" = replicate (Z.to_nat 3) " "%char ++ rest
                  /\ rest <> [] /\ head rest <> Some " "%char.
Proof.
  apply (parseLine_indent (str "   (port) 5 # five")
           (mkLine 3 (str "port") (str "5") lineKeyValue)).
  reflexivity.
Defined.

Lemma parseLine_error_causes_witness :
  (ErrSyntaxMissingParen (str "  (port 5") = ErrSyntaxTabs (str "  (port 5")
   /\ "009"%char ∈ str "  (port 5")
  \/ (ErrSyntaxMissingParen (str "  (port 5") = ErrSyntaxMissingParen (str "  (port 5")
      /\ "("%char ∈ str "  (port 5").
Proof. apply parseLine_error_causes. reflexivity. Defined.

Lemma Unmarshal_no_internal_error_witness :
  internalError (ErrSettingField (str "port") (ErrInvalidInteger (str "thirty"))) = false.
Proof.
  apply (proj1 Unmarshal_no_internal_error (str "(port) thirty") (TPtr DBConfig)
           (VPtr (Some (Zero DBConfig)))).
  reflexivity.
Defined.

Lemma Decode_fuel_irrelevant_witness :
  Decode 50 (NewDecoder (unlines ["(host) h"; "(port) 5"])) (TPtr DBConfig)
    (VPtr (Some (Zero DBConfig)))
  = Decode (2 * pending (NewDecoder (unlines ["(host) h"; "(port) 5"])) + 2)
      (NewDecoder (unlines ["(host) h"; "(port) 5"])) (TPtr DBConfig)
      (VPtr (Some (Zero DBConfig))).
Proof.
  apply Decode_fuel_irrelevant.
  - done.
  - simpl. lia.
Defined.

Lemma decodeSet_items_witness :
  decodeValue 4 (TMap TString TBool) (VMap None) 0
    (onLines ((setItemText 1 <$> [str "red"; str "blue"]) ++ [str "(next) 1"]))
  = Ok (VMap (Some (addAll (VBool true) [str "red"; str "blue"] ∅)),
        mkDecoder (Scanning []) (Some (mkLine 0 (str "next") (str "1") lineKeyValue)))
  /\ forall k, addAll (VBool true) [str "red"; str "blue"] ∅ !! k
               = if bool_decide (k ∈ [str "red"; str "blue"]) then Some (VBool true)
                 else (∅ : gmap bytes val) !! k.
Proof.
  apply (decodeSet_items TBool (VBool true) 1 0 [str "red"; str "blue"] None 4
           [str "(next) 1"]).
  - by left.
  - repeat apply Forall_cons_2; [line_text..|apply Forall_nil_2].
  - done.
  - reflexivity.
  - repeat apply Forall_cons_2; [reflexivity..|apply Forall_nil_2].
  - exists (Some (mkLine 0 (str "next") (str "1") lineKeyValue)).
    split; [reflexivity|]. intros li [= <-]. simpl. lia.
  - simpl. lia.
Defined.

Lemma Unmarshal_crlf_witness :
  Unmarshal (unlinesCRLF [str "(host) h"; str "(port) 5"]) (TPtr DBConfig)
    (VPtr (Some (Zero DBConfig)))
  = Unmarshal (unlinesB [str "(host) h"; str "(port) 5"]) (TPtr DBConfig)
      (VPtr (Some (Zero DBConfig))).
Proof.
  apply Unmarshal_crlf.
  - repeat apply Forall_cons_2; [compute_done..|apply Forall_nil_2].
  - repeat apply Forall_cons_2; [split; [done|reflexivity]..|apply Forall_nil_2].
Defined.


Lemma multiline_string_roundtrip_witness :
  let s := joinLines ["first line"; "  second, indented "; "third"] in
  let lines := [str "  first line"; str "    second, indented "; str "  third"] in
  encodeValue TString (VString s) 0 false = Ok (LF :: unlinesB lines)
  /\ decodeValue 8 TString (VString (str "old")) (indentOf 0) (onLines (lines ++ [str "(next) 1"]))
     = Ok (VString s,
           mkDecoder (Scanning []) (Some (mkLine 0 (str "next") (str "1") lineKeyValue))).
Proof.
  apply (multiline_string_roundtrip
           (joinLines ["first line"; "  second, indented "; "third"]) 0 (str "old") 8
           [str "(next) 1"]).
  - split_and!; [compute_done|done|].
    repeat apply Forall_cons_2; [text_line..|apply Forall_nil_2].
  - done.
  - repeat apply Forall_cons_2; [reflexivity..|apply Forall_nil_2].
  - exists (Some (mkLine 0 (str "next") (str "1") lineKeyValue)).
    split; [reflexivity|]. intros li [= <-]. by compute.
  - compute. lia.
Defined.
